(** * Astra: architecture synthesis, cost model and carbon model

    A shallow embedding of the computational core of the Astra backends:

    - [web/backend/app/data/components_data.py]      (module [Catalog])
    - [web/backend/app/models/architecture.py]       (module [Models])
    - [web/backend/app/services/connection_validator.py]
                                                     (module [ConnectionValidator])
    - [web/backend/app/services/cost_calculator.py]  (module [CostCalculator])
    - [web/backend/app/services/architecture_service.py]
                                                     (module [ArchitectureService])
    - [web-dashboard/backend/app/services/carbon_service.py]
                                                     (module [CarbonService])
    - [web/backend/app/services/gemini_service.py]   (module [GeminiService])
    - [web-dashboard/backend/app/services/incentive_service.py]
                                                     (module [IncentiveService])

    Conventions of the embedding.

    - Python [int] is [Z]; Python [str] is [string].
    - Python [float] is modelled by the exact rationals [Q]: every float
      literal of the source is the decimal it is written as, and [*], [+],
      [/] are exact.  Binary64 rounding error is outside the model.
      [round(x, n)] is rounding to [n] decimals, ties to even, which is
      what CPython's [float.__round__] does on the exact value of [x].
      Module [Binary64] has the same rounding on IEEE doubles, to
      evaluate a formula of the source bit for bit.
    - [dict]s that the code mutates are [gmap]s, [set]s are [gset]s; the
      constant tables whose iteration order the code relies on are
      association lists in source order.
    - [secrets.token_urlsafe] is a stream of tokens [token : nat -> string]
      threaded through the code with a counter (explicit state passing).
    - Sums of floats are exact as well: a total of the cost model
      agrees with the code's up to the binary64 rounding of the running
      sum.
    - Where a float can overflow (module [IncentiveService]) it is a
      [Float.t]: a finite exact value, an infinity or NaN, so that
      [int] of an infinity is the exception it is in Python. *)

From Stdlib Require Import ZArith QArith Qround Lia Lqa Ascii.
From Stdlib Require PrimFloat FloatOps SpecFloat Uint63.
From stdpp Require Import gmap strings list fin_maps sorting pretty.

(** ** Python numerics *)

Module Py.

(** Nearest integer, ties to even. *)
Definition round_half_even (x : Q) : Z :=
  let f := Qfloor x in
  match (x - inject_Z f ?= 1 # 2)%Q with
  | Lt => f
  | Gt => (f + 1)%Z
  | Eq => if Z.even f then f else (f + 1)%Z
  end.

Definition pow10 (ndigits : nat) : positive := Z.to_pos (10 ^ Z.of_nat ndigits).

(** [round(x, ndigits)]; the result is in lowest terms. *)
Definition round (x : Q) (ndigits : nat) : Q :=
  Qred (round_half_even (x * inject_Z (Zpos (pow10 ndigits))) # pow10 ndigits).

(** [max(a, b)]: Python returns the first argument unless [b > a]. *)
Definition max (a b : Q) : Q :=
  match (a ?= b)%Q with Lt => b | _ => a end.

(** [a < b] on floats. *)
Definition ltb (a b : Q) : bool :=
  match (a ?= b)%Q with Lt => true | _ => false end.

(** [a <= b] on floats. *)
Definition leb (a b : Q) : bool :=
  match (a ?= b)%Q with Gt => false | _ => true end.

(** [d.get(k, default)] on a constant table. *)
Definition dict_get {K V} `{EqDecision K} (d : list (K * V)) (k : K) (dflt : V) : V :=
  match List.find (λ kv, bool_decide (kv.1 = k)) d with
  | Some kv => kv.2
  | None => dflt
  end.

(** [x in [a, b, ...]] for strings. *)
Definition str_in (x : string) (l : list string) : bool :=
  bool_decide (x ∈ l).

(** [d[k]]: [None] stands for [KeyError]. *)
Definition dict_item {K V} `{EqDecision K} (d : list (K * V)) (k : K) : option V :=
  snd <$> List.find (λ kv, bool_decide (kv.1 = k)) d.

(** [enumerate(l)] *)
Definition enumerate {A} (l : list A) : list (nat * A) := imap (λ i a, (i, a)) l.

(** [s.replace(c, '')] for a one-character [c]. *)
Fixpoint remove_char (c : Ascii.ascii) (s : string) : string :=
  match s with
  | EmptyString => EmptyString
  | String a r => if Ascii.eqb a c then remove_char c r else String a (remove_char c r)
  end.

End Py.

(** ** Python floats as IEEE binary64

    The kernel's primitive floats are binary64 with round-to-nearest-even
    arithmetic, as CPython's [float]. *)

Module Binary64.
Import PrimFloat.

(** The rational a finite double stands for. *)
Definition exact (f : float) : option Q :=
  match FloatOps.Prim2SF f with
  | SpecFloat.S754_zero _ => Some 0%Q
  | SpecFloat.S754_finite s m e =>
      let v := if (0 <=? e)%Z then inject_Z (Z.pos m * 2 ^ e)
               else (Z.pos m # Z.to_pos (2 ^ (- e)))%Q in
      Some (if s then (- v)%Q else v)
  | _ => None
  end.

(** The double nearest to an integer below 2^63 in magnitude. *)
Definition of_Z (n : Z) : float :=
  if (0 <=? n)%Z then of_uint63 (Uint63.of_Z n)
  else opp (of_uint63 (Uint63.of_Z (- n))).

(** [round(f, ndigits)]: the exact value is rounded to [ndigits]
    decimals, ties to even, and the decimal obtained is read back as
    the nearest double (the correctly rounded quotient of two integers
    that are doubles); infinities and NaN are returned as they are. *)
Definition round (f : float) (ndigits : nat) : float :=
  match exact f with
  | None => f
  | Some q =>
      let p := Z.pos (Py.pow10 ndigits) in
      div (of_Z (Py.round_half_even (q * inject_Z p))) (of_Z p)
  end.

End Binary64.

(** ** The component catalog ([components_data.py]) *)

Module Catalog.

Record Component := mkComponent {
  id : string;
  name : string;
  category : string;
  pricing_tier : string;
  base_cost : Z;
  description : string
}.

Definition COMPONENTS : list Component := [
  mkComponent "nextjs" "Next.js" "frontend" "free" 0
    "React framework for production";
  mkComponent "react" "React" "frontend" "free" 0
    "JavaScript library for building UIs";
  mkComponent "vue" "Vue.js" "frontend" "free" 0
    "Progressive JavaScript framework";
  mkComponent "angular" "Angular" "frontend" "free" 0
    "Platform for building web applications";
  mkComponent "svelte" "Svelte" "frontend" "free" 0
    "Cybernetically enhanced web apps";
  mkComponent "fastapi" "FastAPI" "backend" "free" 0
    "Modern Python web framework";
  mkComponent "django" "Django" "backend" "free" 0
    "Python web framework";
  mkComponent "flask" "Flask" "backend" "free" 0
    "Lightweight Python framework";
  mkComponent "nodejs" "Node.js" "backend" "free" 0
    "JavaScript runtime";
  mkComponent "express" "Express.js" "backend" "free" 0
    "Node.js web framework";
  mkComponent "nestjs" "NestJS" "backend" "free" 0
    "Progressive Node.js framework";
  mkComponent "springboot" "Spring Boot" "backend" "free" 0
    "Java application framework";
  mkComponent "golang" "Go/Gin" "backend" "free" 0
    "Go web framework";
  mkComponent "postgresql" "PostgreSQL" "database" "managed" 25
    "Relational database";
  mkComponent "mongodb" "MongoDB" "database" "managed" 25
    "NoSQL document database";
  mkComponent "mysql" "MySQL" "database" "managed" 20
    "Relational database";
  mkComponent "redis" "Redis" "database" "managed" 15
    "In-memory data structure store";
  mkComponent "elasticsearch" "Elasticsearch" "database" "managed" 40
    "Search and analytics engine";
  mkComponent "cassandra" "Cassandra" "database" "managed" 35
    "Distributed NoSQL database";
  mkComponent "vercel" "Vercel" "hosting" "serverless" 20
    "Frontend cloud platform";
  mkComponent "netlify" "Netlify" "hosting" "serverless" 19
    "Web hosting platform";
  mkComponent "aws_ec2" "AWS EC2" "hosting" "compute" 50
    "Virtual servers";
  mkComponent "aws_lambda" "AWS Lambda" "hosting" "serverless" 10
    "Serverless compute";
  mkComponent "gcp_compute" "GCP Compute Engine" "hosting" "compute" 48
    "Virtual machines on GCP";
  mkComponent "gcp_cloud_run" "Google Cloud Run" "hosting" "serverless" 12
    "Serverless containers";
  mkComponent "azure_vm" "Azure VM" "hosting" "compute" 52
    "Virtual machines on Azure";
  mkComponent "heroku" "Heroku" "hosting" "platform" 25
    "Cloud application platform";
  mkComponent "digitalocean" "DigitalOcean" "hosting" "compute" 30
    "Cloud infrastructure provider";
  mkComponent "aws_s3" "AWS S3" "storage" "object_storage" 5
    "Object storage";
  mkComponent "gcp_storage" "Google Cloud Storage" "storage" "object_storage" 5
    "Object storage on GCP";
  mkComponent "azure_blob" "Azure Blob Storage" "storage" "object_storage" 5
    "Object storage on Azure";
  mkComponent "cloudinary" "Cloudinary" "storage" "media_storage" 15
    "Media management platform";
  mkComponent "nginx" "Nginx" "infrastructure" "free" 0
    "Web server and reverse proxy";
  mkComponent "kong" "Kong" "infrastructure" "enterprise" 50
    "API gateway";
  mkComponent "aws_alb" "AWS Application Load Balancer" "infrastructure" "managed" 25
    "Load balancing service";
  mkComponent "cloudflare" "Cloudflare" "infrastructure" "cdn" 20
    "CDN and DDoS protection";
  mkComponent "auth0" "Auth0" "authentication" "managed" 30
    "Authentication platform";
  mkComponent "firebase_auth" "Firebase Auth" "authentication" "managed" 10
    "Google authentication service";
  mkComponent "cognito" "AWS Cognito" "authentication" "managed" 15
    "User authentication service";
  mkComponent "clerk" "Clerk" "authentication" "managed" 25
    "Complete user management";
  mkComponent "openai" "OpenAI API" "ai_ml" "api" 50
    "GPT and AI models";
  mkComponent "gemini" "Google Gemini" "ai_ml" "api" 30
    "Google's AI model";
  mkComponent "anthropic" "Anthropic Claude" "ai_ml" "api" 45
    "Claude AI model";
  mkComponent "huggingface" "Hugging Face" "ai_ml" "api" 25
    "ML model hosting";
  mkComponent "aws_sagemaker" "AWS SageMaker" "ai_ml" "managed" 100
    "ML platform";
  mkComponent "rabbitmq" "RabbitMQ" "messaging" "managed" 20
    "Message broker";
  mkComponent "kafka" "Apache Kafka" "messaging" "managed" 40
    "Event streaming platform";
  mkComponent "aws_sqs" "AWS SQS" "messaging" "managed" 10
    "Message queue service";
  mkComponent "pubsub" "Google Pub/Sub" "messaging" "managed" 12
    "Messaging service";
  mkComponent "datadog" "Datadog" "monitoring" "enterprise" 60
    "Monitoring and analytics";
  mkComponent "newrelic" "New Relic" "monitoring" "enterprise" 55
    "Observability platform";
  mkComponent "prometheus" "Prometheus" "monitoring" "free" 0
    "Monitoring system";
  mkComponent "grafana" "Grafana" "monitoring" "free" 0
    "Analytics and visualization";
  mkComponent "google_analytics" "Google Analytics" "analytics" "free" 0
    "Web analytics";
  mkComponent "mixpanel" "Mixpanel" "analytics" "managed" 35
    "Product analytics";
  mkComponent "amplitude" "Amplitude" "analytics" "managed" 40
    "Product analytics platform";
  mkComponent "github_actions" "GitHub Actions" "cicd" "managed" 10
    "Automation platform";
  mkComponent "jenkins" "Jenkins" "cicd" "free" 0
    "Automation server";
  mkComponent "circleci" "CircleCI" "cicd" "managed" 15
    "CI/CD platform";
  mkComponent "gitlab_ci" "GitLab CI" "cicd" "managed" 12
    "DevOps platform";
  mkComponent "sendgrid" "SendGrid" "email" "managed" 20
    "Email delivery service";
  mkComponent "mailgun" "Mailgun" "email" "managed" 18
    "Email automation";
  mkComponent "ses" "AWS SES" "email" "managed" 5
    "Email sending service";
  mkComponent "stripe" "Stripe" "payment" "transaction_fee" 0
    "Payment processing";
  mkComponent "paypal" "PayPal" "payment" "transaction_fee" 0
    "Payment platform";
  mkComponent "square" "Square" "payment" "transaction_fee" 0
    "Payment processing";
  mkComponent "algolia" "Algolia" "search" "managed" 30
    "Search and discovery API";
  mkComponent "meilisearch" "Meilisearch" "search" "free" 0
    "Open-source search engine";
  mkComponent "kubernetes" "Kubernetes" "infrastructure" "managed" 70
    "Container orchestration";
  mkComponent "docker" "Docker" "infrastructure" "free" 0
    "Containerization platform"
].

Definition get_component_by_id (component_id : string) : option Component :=
  List.find (λ component, bool_decide (id component = component_id)) COMPONENTS.

Definition get_components_by_category (cat : string) : list Component :=
  List.filter (λ c, bool_decide (category c = cat)) COMPONENTS.

Definition get_all_components : list Component := COMPONENTS.

End Catalog.

(** ** The Pydantic models ([models/architecture.py]) *)

Module Models.

Inductive Handle := top | right | bottom | left.

#[global] Instance Handle_eq_dec : EqDecision Handle.
Proof. solve_decision. Defined.

Record NodeData := mkNodeData {
  label : string;
  componentId : string;
  category : string;
  icon : option string;
  color : option string;
  config : list (string * string)
}.

Record NodePosition := mkNodePosition { x : Q; y : Q }.

Record Node := mkNode {
  node_id : string;
  node_type : string;
  position : NodePosition;
  data : NodeData
}.

Record Edge := mkEdge {
  edge_id : string;
  source : string;
  target : string;
  sourceHandle : option Handle;
  targetHandle : option Handle;
  edge_type : string
}.

Record Scope := mkScope {
  users : Z;
  trafficLevel : Z;
  dataVolumeGB : Q;
  regions : Z;
  availability : Q
}.

(** The keyword arguments of [Scope(...)]: a field the caller leaves out
    is [None]. *)
Record ScopeArgs := mkScopeArgs {
  arg_users : option Z;
  arg_trafficLevel : option Z;
  arg_dataVolumeGB : option Q;
  arg_regions : option Z;
  arg_availability : option Q
}.

(** The constructor [Scope]: every field has a default; [trafficLevel] is
    declared [Field(default=3, ge=1, le=5)], a supplied value outside
    the range is a validation error ([None]). *)
Definition Scope_new (a : ScopeArgs) : option Scope :=
  let t := default 3%Z (arg_trafficLevel a) in
  if (1 <=? t)%Z && (t <=? 5)%Z then
    Some {| users := default 1000%Z (arg_users a);
            trafficLevel := t;
            dataVolumeGB := default 100%Q (arg_dataVolumeGB a);
            regions := default 1%Z (arg_regions a);
            availability := default 99.9%Q (arg_availability a) |}
  else None.

Record CostBreakdown := mkCostBreakdown {
  cb_category : string;
  cb_component : string;
  cb_componentId : string;
  baseCost : Q;
  scaledCost : Q
}.

Record CostEstimate := mkCostEstimate {
  total : Q;
  breakdown : list CostBreakdown
}.

Record ArchitectureJson := mkArchitectureJson {
  nodes : list Node;
  edges : list Edge;
  scope : Scope;
  costEstimate : option CostEstimate;
  timestamp : option Z
}.

End Models.

(** ** Connection rules ([connection_validator.py]) *)

Module ConnectionValidator.

(** The set literal of the source, pair by pair; [("backend",
    "messaging")] is written twice there. *)
Definition VALID_CONNECTIONS : gset (string * string) :=
  list_to_set [
    ("frontend", "backend");
    ("frontend", "authentication");
    ("frontend", "hosting");
    ("frontend", "infrastructure");
    ("backend", "database");
    ("backend", "storage");
    ("backend", "authentication");
    ("backend", "ai_ml");
    ("backend", "messaging");
    ("backend", "email");
    ("backend", "payment");
    ("backend", "search");
    ("backend", "hosting");
    ("infrastructure", "frontend");
    ("infrastructure", "backend");
    ("infrastructure", "database");
    ("backend", "backend");
    ("hosting", "backend");
    ("hosting", "frontend");
    ("database", "storage");
    ("monitoring", "frontend");
    ("monitoring", "backend");
    ("monitoring", "database");
    ("monitoring", "infrastructure");
    ("monitoring", "hosting");
    ("analytics", "frontend");
    ("analytics", "backend");
    ("cicd", "hosting");
    ("cicd", "infrastructure");
    ("backend", "messaging");
    ("messaging", "backend")
  ].

Definition is_valid_connection (source_category target_category : string) : bool :=
  bool_decide ((source_category, target_category) ∈ VALID_CONNECTIONS).

Definition get_valid_targets (source_category : string) : gset string :=
  set_map snd (filter (λ p : string * string, p.1 = source_category) VALID_CONNECTIONS).

Definition get_valid_sources (target_category : string) : gset string :=
  set_map fst (filter (λ p : string * string, p.2 = target_category) VALID_CONNECTIONS).

End ConnectionValidator.

(** ** The cost model ([cost_calculator.py]) *)

Module CostCalculator.
Import Catalog Models.

Definition TRAFFIC_MULTIPLIERS : list (Z * Q) :=
  [ (1%Z, 1.0%Q); (2%Z, 1.5%Q); (3%Z, 2.0%Q); (4%Z, 3.0%Q); (5%Z, 5.0%Q) ].

(** A tier threshold: an integer or [float('inf')]. *)
Inductive threshold := Finite (n : Z) | Infinity.

Definition USER_TIERS : list (threshold * Q) :=
  [ (Finite 1000, 1.0%Q);
    (Finite 10000, 1.5%Q);
    (Finite 100000, 2.5%Q);
    (Finite 1000000, 4.0%Q);
    (Infinity, 6.0%Q) ].

Definition DATA_COST_PER_GB : Q := 0.023%Q.

Definition REGION_MULTIPLIERS : list (Z * Q) :=
  [ (1%Z, 1.0%Q); (2%Z, 1.3%Q); (3%Z, 1.5%Q); (4%Z, 1.8%Q) ].

Definition AVAILABILITY_MULTIPLIERS : list (Q * Q) :=
  [ (99.0%Q, 1.0%Q); (99.9%Q, 1.2%Q); (99.95%Q, 1.4%Q);
    (99.99%Q, 1.7%Q); (99.999%Q, 2.5%Q) ].

(** [users <= threshold] *)
Definition le_threshold (users : Z) (t : threshold) : bool :=
  match t with
  | Finite n => (users <=? n)%Z
  | Infinity => true
  end.

(** The [for ... if ...: return] loop over a table, with the value
    returned after the loop. *)
Fixpoint first_match {T} (test : T → bool) (tiers : list (T * Q)) (after : Q) : Q :=
  match tiers with
  | [] => after
  | (t, multiplier) :: rest =>
      if test t then multiplier else first_match test rest after
  end.

Definition get_user_multiplier (users : Z) : Q :=
  first_match (le_threshold users) USER_TIERS 6.0%Q.

Definition get_traffic_multiplier (traffic_level : Z) : Q :=
  Py.dict_get TRAFFIC_MULTIPLIERS traffic_level 2.0%Q.

Definition get_region_multiplier (regions : Z) : Q :=
  if (4 <=? regions)%Z then 1.8%Q
  else Py.dict_get REGION_MULTIPLIERS regions 1.0%Q.

Definition get_availability_multiplier (availability : Q) : Q :=
  first_match (Py.leb availability) AVAILABILITY_MULTIPLIERS 2.5%Q.

Definition calculate_component_cost (component_id : string) (scope : Scope) : Q * Q :=
  match get_component_by_id component_id with
  | None => (0.0%Q, 0.0%Q)
  | Some component =>
      let base_cost := base_cost component in
      if (base_cost =? 0)%Z then (0.0%Q, 0.0%Q)
      else
        let base := inject_Z base_cost in
        let user_mult := get_user_multiplier (users scope) in
        let traffic_mult := get_traffic_multiplier (trafficLevel scope) in
        let region_mult := get_region_multiplier (regions scope) in
        let availability_mult := get_availability_multiplier (availability scope) in
        let category := Catalog.category component in
        let scaled_cost :=
          if Py.str_in category ["database"; "storage"] then
            let data_cost := (dataVolumeGB scope * DATA_COST_PER_GB)%Q in
            (base * user_mult * traffic_mult * region_mult * availability_mult
             + data_cost)%Q
          else if Py.str_in category ["hosting"; "infrastructure"] then
            (base * user_mult * traffic_mult * region_mult * availability_mult)%Q
          else if Py.str_in category ["ai_ml"; "search"] then
            (base * user_mult * traffic_mult)%Q
          else if Py.str_in category ["monitoring"; "analytics"] then
            (base * region_mult * availability_mult)%Q
          else
            (base * user_mult * traffic_mult)%Q in
        (base, Py.round scaled_cost 2)
  end.

(** One iteration of the loop of [calculate_architecture_cost]; the
    state is [(breakdown, total)]. *)
Definition cost_step (scope : Scope) (st : list CostBreakdown * Q) (component_id : string)
  : list CostBreakdown * Q :=
  let '(breakdown, total) := st in
  match get_component_by_id component_id with
  | None => (breakdown, total)
  | Some component =>
      let '(base_cost, scaled_cost) := calculate_component_cost component_id scope in
      (breakdown ++ [ {| cb_category := Catalog.category component;
                         cb_component := Catalog.name component;
                         cb_componentId := component_id;
                         baseCost := base_cost;
                         scaledCost := scaled_cost |} ],
       (total + scaled_cost)%Q)
  end.

Definition calculate_architecture_cost (component_ids : list string) (scope : Scope)
  : CostEstimate :=
  let '(breakdown, total) := fold_left (cost_step scope) component_ids ([], 0.0%Q) in
  {| total := Py.round total 2; breakdown := breakdown |}.

End CostCalculator.

(** ** The graph synthesizer ([architecture_service.py]) *)

Module ArchitectureService.
Import Catalog Models.

Definition HORIZONTAL_SPACING : Z := 300.
Definition VERTICAL_SPACING : Z := 150.
Definition START_X : Z := 100.
Definition START_Y : Z := 100.

Definition CATEGORY_LAYERS : list (string * Z) :=
  [ ("frontend", 0); ("infrastructure", 1); ("backend", 2);
    ("authentication", 2); ("database", 3); ("storage", 3);
    ("messaging", 3); ("search", 3); ("ai_ml", 3); ("email", 3);
    ("payment", 3); ("hosting", 4); ("monitoring", 5);
    ("analytics", 5); ("cicd", 6) ]%Z.

Definition calculate_node_position (layer : Z) (index_in_layer : nat) : NodePosition :=
  let x := (START_X + layer * HORIZONTAL_SPACING)%Z in
  let y := (START_Y + Z.of_nat index_in_layer * VERTICAL_SPACING)%Z in
  {| x := inject_Z x; y := inject_Z y |}.

Section WithTokens.

(** The [k]-th value of [secrets.token_urlsafe(6)[:8]] drawn by the
    process.  Functions that draw tokens take the number of tokens
    drawn so far and return the new count. *)
Variable token : nat → string.

Definition generate_node_id (component_id : string) (k : nat) : string * nat :=
  let random_suffix := token k in
  (component_id +:+ "-" +:+ random_suffix, S k).

Definition create_node_from_component
    (component_id : string) (position : NodePosition) (k : nat) : option Node * nat :=
  match get_component_by_id component_id with
  | None => (None, k)
  | Some component =>
      let '(node_id, k) := generate_node_id component_id k in
      let icon_name := Py.remove_char "-"%char (Py.remove_char "_"%char component_id) in
      let icon_color := "000000" in
      let icon_url := "https://cdn.simpleicons.org/" +:+ icon_name +:+ "/" +:+ icon_color in
      let node_data :=
        {| label := Catalog.name component;
           componentId := component_id;
           category := Catalog.category component;
           icon := Some icon_url;
           color := Some "#3b82f6";
           config := [] |} in
      (Some {| node_id := node_id; node_type := "custom";
               position := position; data := node_data |}, k)
  end.

(** The grouping loop of [generate_edges]: [nodes_by_category]. *)
Definition group_step (nodes_by_category : gmap string (list Node)) (node : Node)
  : gmap string (list Node) :=
  let category := category (data node) in
  let nodes_by_category :=
    match nodes_by_category !! category with
    | None => <[category := []]> nodes_by_category
    | Some _ => nodes_by_category
    end in
  alter (λ l, l ++ [node]) category nodes_by_category.

Definition group_by_category (nodes : list Node) : gmap string (list Node) :=
  fold_left group_step nodes ∅.

(** The body of the inner loop of [generate_edges]; the state is the
    edge list built so far and the token count. *)
Definition edge_step (nodes_by_category : gmap string (list Node)) (source_node : Node)
    (st : list Edge * nat) (target_category : string) : list Edge * nat :=
  let '(edges, k) := st in
  match nodes_by_category !! target_category with
  | None => (edges, k)
  | Some target_nodes =>
      match target_nodes with
      | [] => (edges, k)
      | target_node :: _ =>
          let edge_id := "e" +:+ token k in
          let lt := Py.ltb (x (position source_node)) (x (position target_node)) in
          let source_handle := if lt then right else bottom in
          let target_handle := if lt then left else top in
          (edges ++ [ {| edge_id := edge_id;
                         source := node_id source_node;
                         target := node_id target_node;
                         sourceHandle := Some source_handle;
                         targetHandle := Some target_handle;
                         edge_type := "custom" |} ],
           S k)
      end
  end.

(** The body of the outer loop.  Python leaves the iteration order of a
    [set] unspecified; here it is the order of [elements]. *)
Definition source_step (nodes_by_category : gmap string (list Node))
    (st : list Edge * nat) (source_node : Node) : list Edge * nat :=
  let source_category := category (data source_node) in
  let valid_targets := ConnectionValidator.get_valid_targets source_category in
  fold_left (edge_step nodes_by_category source_node) (elements valid_targets) st.

(** [generate_edges]; the dictionary [node_by_id] of the source is
    built and never read. *)
Definition generate_edges (nodes : list Node) (k : nat) : list Edge * nat :=
  let nodes_by_category := group_by_category nodes in
  fold_left (source_step nodes_by_category) nodes ([], k).

(** The layering loop of [generate_architecture_from_components]. *)
Definition layer_step (layers : gmap Z (list string)) (comp_id : string)
  : gmap Z (list string) :=
  match get_component_by_id comp_id with
  | None => layers
  | Some component =>
      let category := Catalog.category component in
      let layer := Py.dict_get CATEGORY_LAYERS category 3%Z in
      let layers :=
        match layers !! layer with
        | None => <[layer := []]> layers
        | Some _ => layers
        end in
      alter (λ l, l ++ [comp_id]) layer layers
  end.

(** The loop over one layer; the state is the node list and the
    token count. *)
Definition node_step (layer_num : Z) (st : list Node * nat) (ic : nat * string)
  : list Node * nat :=
  let '(nodes, k) := st in
  let '(idx, comp_id) := ic in
  let position := calculate_node_position layer_num idx in
  match create_node_from_component comp_id position k with
  | (Some node, k) => (nodes ++ [node], k)
  | (None, k) => (nodes, k)
  end.

Definition place_layer (layers : gmap Z (list string))
    (st : list Node * nat) (layer_num : Z) : list Node * nat :=
  let components_in_layer := default [] (layers !! layer_num) in
  fold_left (node_step layer_num) (Py.enumerate components_in_layer) st.

(** [sorted(layers.keys())] *)
Definition sorted_keys (layers : gmap Z (list string)) : list Z :=
  merge_sort Z.le (map fst (map_to_list layers)).

Definition generate_architecture_from_components
    (component_ids : list string) (scope : Scope) (k : nat) : ArchitectureJson :=
  let layers := fold_left layer_step component_ids ∅ in
  let '(nodes, k) := fold_left (place_layer layers) (sorted_keys layers) ([], k) in
  let '(edges, k) := generate_edges nodes k in
  let cost_data := CostCalculator.calculate_architecture_cost component_ids scope in
  let cost_estimate := {| total := total cost_data; breakdown := breakdown cost_data |} in
  {| nodes := nodes;
     edges := edges;
     scope := scope;
     costEstimate := Some cost_estimate;
     timestamp := None |}.

End WithTokens.

End ArchitectureService.

(** ** The carbon model ([carbon_service.py], [generate_report]) *)

Module CarbonService.
Import Models.

(** gCO2/kWh *)
Definition REGION_CARBON_INTENSITY : list (string * Q) :=
  [ ("us-east-1", 379.0); ("us-east-2", 531.0); ("us-west-1", 210.0);
    ("us-west-2", 102.0); ("eu-west-1", 296.0); ("eu-west-2", 228.0);
    ("eu-central-1", 338.0); ("eu-north-1", 8.0);
    ("ap-southeast-1", 431.0); ("ap-northeast-1", 465.0);
    ("ap-south-1", 708.0); ("sa-east-1", 61.0); ("ca-central-1", 120.0);
    ("us-central1", 440.0); ("us-east4", 379.0); ("europe-west1", 80.0);
    ("europe-north1", 8.0); ("asia-east1", 509.0);
    ("eastus", 379.0); ("westus", 210.0); ("westeurope", 296.0);
    ("northeurope", 296.0);
    ("default", 400.0) ]%Q.

(** Watts *)
Definition COMPONENT_POWER_DRAW : list (string * Q) :=
  [ ("backend", 50.0); ("frontend", 5.0); ("database", 80.0);
    ("hosting", 60.0); ("ml", 300.0); ("auth", 10.0); ("cache", 30.0);
    ("queue", 25.0); ("storage", 15.0); ("cicd", 20.0);
    ("monitoring", 10.0); ("search", 60.0) ]%Q.

Record CarbonMetrics := mkCarbonMetrics {
  energy_kwh : Q;
  carbon_kg : Q;
  carbon_intensity : Q;
  region : string;
  cost_usd : Q
}.

Record ComponentCarbon := mkComponentCarbon {
  component_id : string;
  component_name : string;
  cc_category : string;
  cc_energy_kwh : Q;
  cc_carbon_kg : Q;
  power_draw_watts : Q
}.

Record CarbonReport := mkCarbonReport {
  report_id : option string;
  architecture_json : ArchitectureJson;
  metrics : CarbonMetrics;
  component_breakdown : list ComponentCarbon;
  created_at : Z;
  user_id : option string
}.

Section WithEnvironment.

(** [math.log10] on an argument it accepts (a positive one). *)
Variable log10 : Z → Q.

(** The [total] of [calculate_costs(nodes_dict, scope_dict)], a
    function of the dashboard's [cost_calculator] module, which is
    not part of the sources at hand. *)
Variable calculate_costs_total : list Node → Scope → Q.

(** [str(uuid.uuid4())] and [datetime.utcnow()] at the call. *)
Variable uuid4 : string.
Variable utcnow : Z.

(** One iteration of the loop over the nodes; the state is
    [(component_breakdown, total_energy, total_carbon)]. *)
Definition carbon_step (carbon_intensity traffic_mul user_mul : Q)
    (st : list ComponentCarbon * Q * Q) (node : Node)
  : list ComponentCarbon * Q * Q :=
  let '(component_breakdown, total_energy, total_carbon) := st in
  let category := category (data node) in
  let power_draw := Py.dict_get COMPONENT_POWER_DRAW category 30.0%Q in
  let scaled_power :=
    (power_draw * Py.max traffic_mul 0.5 * Py.max user_mul 0.5)%Q in
  let scaled_power :=
    if bool_decide (category = "ml") then (scaled_power * traffic_mul)%Q
    else scaled_power in
  let hours_per_month := 730%Q in
  let energy_kwh := (scaled_power * hours_per_month / 1000.0)%Q in
  let carbon_kg := (energy_kwh * carbon_intensity / 1000.0)%Q in
  (component_breakdown ++
     [ {| component_id := componentId (data node);
          component_name := label (data node);
          cc_category := category;
          cc_energy_kwh := Py.round energy_kwh 4;
          cc_carbon_kg := Py.round carbon_kg 4;
          power_draw_watts := Py.round scaled_power 2 |} ],
   (total_energy + energy_kwh)%Q,
   (total_carbon + carbon_kg)%Q).

(** [generate_report]; [None] is an exception ([KeyError] of the
    table, [ValueError] of [math.log10]). *)
Definition generate_report (architecture_json : ArchitectureJson)
    (region : string) (user_id : option string) : option CarbonReport :=
  match Py.dict_item REGION_CARBON_INTENSITY "default" with
  | None => None
  | Some dflt =>
      let carbon_intensity := Py.dict_get REGION_CARBON_INTENSITY region dflt in
      let traffic_mul := (inject_Z (trafficLevel (scope architecture_json)) / 3.0)%Q in
      let arg := (users (scope architecture_json) + 1)%Z in
      if (arg <=? 0)%Z then None
      else
        let user_mul := (log10 arg / 2.0)%Q in
        let '(component_breakdown, total_energy, total_carbon) :=
          fold_left (carbon_step carbon_intensity traffic_mul user_mul)
                    (nodes architecture_json) ([], 0.0%Q, 0.0%Q) in
        let cost_total :=
          calculate_costs_total (nodes architecture_json) (scope architecture_json) in
        Some {| report_id := Some uuid4;
                architecture_json := architecture_json;
                metrics :=
                  {| energy_kwh := Py.round total_energy 4;
                     carbon_kg := Py.round total_carbon 4;
                     carbon_intensity := carbon_intensity;
                     region := region;
                     cost_usd := Py.round cost_total 2 |};
                component_breakdown := component_breakdown;
                created_at := utcnow;
                user_id := user_id |}
  end.

End WithEnvironment.

End CarbonService.

(** ** Specification-level definitions

  What the specification says, in its own words, to be compared with
  the embedding of the code. *)

Module Spec.
Import Models.

(** "step function with breakpoints at 1,000 / 10,000 / 100,000 /
    1,000,000 (values 1.0, 1.5, 2.5, 4.0) and 6.0 beyond" *)
Definition userMultiplier_step (users : Z) : Q :=
  if (users <=? 1000)%Z then 1.0%Q
  else if (users <=? 10000)%Z then 1.5%Q
  else if (users <=? 100000)%Z then 2.5%Q
  else if (users <=? 1000000)%Z then 4.0%Q
  else 6.0%Q.

(** [sum(l)] of the breakdown values. *)
Definition sum (l : list Q) : Q := fold_left Qplus l 0%Q.

(** "the first node (in creation order) of that target category" *)
Definition first_in_category (c : string) (nodes : list Node) : option Node :=
  List.find (λ n, bool_decide (category (data n) = c)) nodes.

(** What an edge connects, and on which sides: the edge without its
    random identifier. *)
Definition link : Type := string * string * option Handle * option Handle.

Definition edge_link (e : Edge) : link :=
  (source e, target e, sourceHandle e, targetHandle e).

(** "if source.x < target.x, sourceHandle=right/targetHandle=left, else
    sourceHandle=bottom/targetHandle=top" *)
Definition expected_link (s t : Node) : link :=
  if Py.ltb (x (position s)) (x (position t))
  then (node_id s, node_id t, Some right, Some left)
  else (node_id s, node_id t, Some bottom, Some top).

(** "for each category in validTargets(source.category) for which at
    least one node exists, one edge to the first node of that
    category" *)
Definition links_from (nodes : list Node) (s : Node) : list link :=
  omap (λ c, expected_link s <$> first_in_category c nodes)
       (elements (ConnectionValidator.get_valid_targets (category (data s)))).

(** The edge drawn for a link when [k] tokens have been used. *)
Definition mk_edge (token : nat → string) (k : nat) (l : link) : Edge :=
  let '(s, t, sh, th) := l in
  {| edge_id := "e" +:+ token k; source := s; target := t;
     sourceHandle := sh; targetHandle := th; edge_type := "custom" |}.

(** The identifiers of the nodes of a category. *)
Definition ids_of_category (c : string) (nodes : list Node) : list string :=
  map node_id (filter (λ n, category (data n) = c) nodes).

(** A link from node [s] into category [c]. *)
Definition from_into (nodes : list Node) (s : Node) (c : string) (l : link) : Prop :=
  l.1.1.1 = node_id s ∧ l.1.1.2 ∈ ids_of_category c nodes.

#[global] Instance from_into_dec nodes s c l : Decision (from_into nodes s c l).
Proof. unfold from_into. apply _. Defined.

(** The layer of a component identifier: "a fixed category to layer
    integer map ...; any category not listed defaults to layer 3";
    unknown identifiers have none. *)
Definition layer_of (component_id : string) : option Z :=
  (λ c, Py.dict_get ArchitectureService.CATEGORY_LAYERS (Catalog.category c) 3%Z)
    <$> Catalog.get_component_by_id component_id.

(** What a node is, apart from its random identifier: its component
    and its position. *)
Definition placement : Type := string * NodePosition.

Definition node_placement (n : Node) : placement := (componentId (data n), position n).

(** "position = (START_X + layer * 300, START_Y + indexInLayer * 150)",
    for the identifiers of one layer in order. *)
Definition layer_placements (layer : Z) (component_ids : list string) : list placement :=
  imap (λ i c, (c, ArchitectureService.calculate_node_position layer i)) component_ids.

(** The energy (kWh/month) the carbon model attributes to a node:
    "scaledPower = powerDraw * max(trafficMul, 0.5) * max(userMul, 0.5);
    if category is ml, multiply again by trafficMul; energyKwh =
    scaledPower * 730 / 1000". *)
Definition node_energy (traffic_mul user_mul : Q) (n : Node) : Q :=
  let power_draw := Py.dict_get CarbonService.COMPONENT_POWER_DRAW (category (data n)) 30.0%Q in
  let scaled_power := (power_draw * Py.max traffic_mul 0.5 * Py.max user_mul 0.5)%Q in
  let scaled_power :=
    if bool_decide (category (data n) = "ml") then (scaled_power * traffic_mul)%Q
    else scaled_power in
  (scaled_power * 730 / 1000.0)%Q.

(** The running total of energy in the carbon loop. *)
Definition energy_step (traffic_mul user_mul : Q) (acc : Q) (n : Node) : Q :=
  (acc + node_energy traffic_mul user_mul n)%Q.

(** The carbon intensity used for a region: the table's value, or the
    documented default. *)
Definition intensity (region : string) : Q :=
  Py.dict_get CarbonService.REGION_CARBON_INTENSITY region 400.0%Q.

(** Two node lists have the same node set: the same components at the
    same positions. *)
Definition same_node_set (a b : list Node) : Prop :=
  ∀ p, p ∈ map node_placement a ↔ p ∈ map node_placement b.

(** An identifier the catalog resolves. *)
Definition known (component_id : string) : bool :=
  bool_decide (is_Some (Catalog.get_component_by_id component_id)).

End Spec.

(** ** Concrete inputs for the examples *)

Module Sample.
Import Models.

(** A hand-made node, for examples. *)
Definition sample_node (i c : string) (px : Z) : Node :=
  {| node_id := i; node_type := "custom";
     position := {| x := inject_Z px; y := 100%Q |};
     data := {| label := i; componentId := i; category := c;
                icon := None; color := None; config := [] |} |}.

Definition sample_nodes : list Node :=
  [ sample_node "web" "frontend" 100;
    sample_node "api-1" "backend" 700;
    sample_node "api-2" "backend" 700;
    sample_node "db" "database" 1000 ].

(** The scope of the specification's worked example. *)
Definition sample_scope : Scope :=
  {| users := 1000; trafficLevel := 3; dataVolumeGB := 100%Q;
     regions := 1; availability := 99.9%Q |}.

(** An architecture over the hand-made nodes, and stand-ins for the
    environment of the carbon report, for examples. *)
Definition sample_architecture : ArchitectureJson :=
  {| nodes := sample_nodes; edges := []; scope := sample_scope;
     costEstimate := None; timestamp := None |}.

Definition sample_log10 (n : Z) : Q := inject_Z (Z.log2 n) * 0.30103%Q.

Definition sample_costs (ns : list Node) (s : Scope) : Q := 0%Q.

(** A stand-in for the token stream, for examples. *)
Definition sample_token (k : nat) : string := "tok" +:+ pretty k.

End Sample.

(** ** Further Python built-ins *)

Module Builtins.

(** [min(a, b)]: Python returns the first argument unless [b < a]. *)
Definition min (a b : Q) : Q :=
  match (b ?= a)%Q with Lt => b | _ => a end.

(** [int(x)] on a float: truncation towards zero. *)
Definition int (x : Q) : Z :=
  if (0 <=? Qnum x)%Z then Qfloor x else Qceiling x.

(** [needle in hay] on strings: [needle] occurs as a substring. *)
Fixpoint contains (needle hay : string) : bool :=
  String.prefix needle hay
  || match hay with
     | EmptyString => false
     | String _ rest => contains needle rest
     end.

(** [s.replace(c, '')] twice, as the identifier matching does. *)
Definition strip2 (c1 c2 : Ascii.ascii) (s : string) : string :=
  Py.remove_char c2 (Py.remove_char c1 s).

End Builtins.

(** ** Identifier extraction ([gemini_service.py],
       [extract_component_ids_from_text]) *)

Module GeminiService.
Import Catalog.

Section WithLower.

(** [str.lower]. *)
Variable lower : string → string.

(** The body of the loop over the catalog. *)
Definition mention_step (text_lower : string) (mentioned : list string)
    (component : Component) : list string :=
  let name_lower := lower (name component) in
  let component_id := id component in
  if Builtins.contains name_lower text_lower then mentioned ++ [component_id]
  else if Builtins.contains (Builtins.strip2 "-" "_" component_id)
                            (Builtins.strip2 "." " " text_lower)
       then mentioned ++ [component_id]
       else mentioned.

(** "Remove duplicates while preserving order": the state is
    [(seen, result)]. *)
Definition dedupe_step (st : gset string * list string) (comp_id : string)
  : gset string * list string :=
  let '(seen, result) := st in
  if bool_decide (comp_id ∉ seen) then ({[comp_id]} ∪ seen, result ++ [comp_id])
  else (seen, result).

Definition remove_duplicates (mentioned : list string) : list string :=
  (fold_left dedupe_step mentioned (∅, [])).2.

Definition extract_component_ids_from_text (text : string) : list string :=
  let text_lower := lower text in
  let mentioned := fold_left (mention_step text_lower) get_all_components [] in
  remove_duplicates mentioned.

End WithLower.

End GeminiService.

(** ** Floats that can overflow

    [calculate_sustainability_score] divides by a measurement that can
    be arbitrarily small, so its intermediate results can overflow to
    an infinity, which [int] refuses to convert.  In that function a
    float is a finite value (exact, as everywhere else), an infinity or
    NaN, and an operation on finite values gives an infinity when its
    exact result reaches the overflow threshold of binary64.  Rounding
    below the threshold, underflow and the sign of zero stay outside
    the model. *)

Module Float.

Inductive t :=
| Fin (q : Q)
| PInf
| NInf
| NaN.

(** 2^1024 - 2^970: the least magnitude that rounds to an infinity. *)
Definition overflow : Q := inject_Z (2 ^ 1024 - 2 ^ 970).

(** The float of an exact result. *)
Definition of_Q (q : Q) : t :=
  if Py.leb overflow q then PInf
  else if Py.leb q (- overflow) then NInf
  else Fin q.

Definition neg (x : t) : t :=
  match x with
  | Fin q => Fin (- q)
  | PInf => NInf
  | NInf => PInf
  | NaN => NaN
  end.

Definition add (x y : t) : t :=
  match x, y with
  | Fin a, Fin b => of_Q (a + b)
  | Fin _, PInf => PInf
  | Fin _, NInf => NInf
  | PInf, Fin _ => PInf
  | PInf, PInf => PInf
  | NInf, Fin _ => NInf
  | NInf, NInf => NInf
  | _, _ => NaN
  end.

Definition sub (x y : t) : t := add x (neg y).

(** An infinity times a finite value: the sign decides, and zero gives
    NaN. *)
Definition scale (inf : t) (a : Q) : t :=
  match (0 ?= a)%Q with
  | Lt => inf
  | Eq => NaN
  | Gt => neg inf
  end.

Definition mul (x y : t) : t :=
  match x, y with
  | Fin a, Fin b => of_Q (a * b)
  | Fin a, PInf => scale PInf a
  | Fin a, NInf => scale NInf a
  | PInf, Fin b => scale PInf b
  | NInf, Fin b => scale NInf b
  | PInf, PInf => PInf
  | NInf, NInf => PInf
  | PInf, NInf => NInf
  | NInf, PInf => NInf
  | _, _ => NaN
  end.

(** [x / y]; [None] is [ZeroDivisionError]. *)
Definition div (x y : t) : option t :=
  match y with
  | Fin b =>
      if Qeq_bool b 0 then None
      else Some match x with
                | Fin a => of_Q (a / b)
                | NaN => NaN
                | inf => scale inf b
                end
  | NaN => Some NaN
  | _ => Some match x with Fin _ => Fin 0 | _ => NaN end
  end.

(** [x < y] and [x <= y]; a comparison with NaN is false. *)
Definition ltb (x y : t) : bool :=
  match x, y with
  | Fin a, Fin b => Py.ltb a b
  | Fin _, PInf => true
  | NInf, Fin _ => true
  | NInf, PInf => true
  | _, _ => false
  end.

Definition leb (x y : t) : bool :=
  match x, y with
  | Fin a, Fin b => Py.leb a b
  | Fin _, PInf => true
  | NInf, Fin _ => true
  | NInf, PInf => true
  | PInf, PInf => true
  | NInf, NInf => true
  | _, _ => false
  end.

(** [min(a, b)]: Python returns the first argument unless [b < a]. *)
Definition min (a b : t) : t := if ltb b a then b else a.

(** [int(x)]; [None] is [OverflowError] (an infinity) or [ValueError]
    (NaN).  A finite value is truncated as it is, exactly; the code
    truncates the rounded product, which just below an integer can be
    one lower. *)
Definition int (x : t) : option Z :=
  match x with
  | Fin q => Some (Builtins.int q)
  | _ => None
  end.

(** [round(x, n)] with [n] given: an infinity and NaN are returned as
    they are. *)
Definition round (x : t) (n : nat) : t :=
  match x with
  | Fin q => Fin (Py.round q n)
  | _ => x
  end.

End Float.

(** ** Sustainability scoring ([incentive_service.py],
       [calculate_sustainability_score]) *)

Module IncentiveService.
Import Float.

(** An entry of [improvements]: the message, by its kind and the values
    formatted into it. *)
Inductive improvement :=
| CarbonReduced (reduction_pct carbon_saved : Float.t)
| VeryLowCarbonRegion (region : string) (intensity : Q)
| LowCarbonRegion (region : string) (intensity : Q)
| SwitchedRegion (previous_region region : string).

Record SustainabilityScore := mkSustainabilityScore {
  score : Float.t;
  carbon_saved_kg : Float.t;
  energy_saved_kwh : Float.t;
  green_points : Z;
  improvements : list improvement
}.

(** The constructor [SustainabilityScore]: [score] is declared
    [Field(ge=0, le=100)]; a value outside is a validation error
    ([None]). *)
Definition SustainabilityScore_new (score carbon_saved_kg energy_saved_kwh : Float.t)
    (green_points : Z) (improvements : list improvement) : option SustainabilityScore :=
  if Float.leb (Fin 0) score && Float.leb score (Fin 100) then
    Some {| score := score; carbon_saved_kg := carbon_saved_kg;
            energy_saved_kwh := energy_saved_kwh; green_points := green_points;
            improvements := improvements |}
  else None.

(** The state of the function body: [(improvements, score, green_points,
    carbon_saved, energy_saved)]. *)
Record acc := mkAcc {
  a_improvements : list improvement;
  a_score : Float.t;
  a_green_points : Z;
  a_carbon_saved : Float.t;
  a_energy_saved : Float.t
}.

(** The state at the start: "Base score for evaluating", "Base
    points". *)
Definition initial : acc :=
  {| a_improvements := []; a_score := Fin 15.0; a_green_points := 10;
     a_carbon_saved := Fin 0.0; a_energy_saved := Fin 0.0 |}.

(** "Carbon reduction scoring"; [None] is an exception: the
    [OverflowError] of [int] on an infinite [reduction_pct * 5] (the
    division cannot fail, the guard has [previous_carbon_kg > 0]). *)
Definition carbon_part (current_carbon_kg : Q) (previous_carbon_kg : option Q) (a : acc)
  : option acc :=
  match previous_carbon_kg with
  | Some previous =>
      if negb (Qeq_bool previous 0) && Py.ltb 0 previous then
        match Float.div (Float.sub (Fin previous) (Fin current_carbon_kg)) (Fin previous) with
        | None => None
        | Some ratio =>
            let reduction_pct := Float.mul ratio (Fin 100) in
            if Float.ltb (Fin 0) reduction_pct then
              let carbon_score := Float.min (Fin 60) (Float.mul reduction_pct (Fin 1.2)) in
              let carbon_saved := Float.sub (Fin previous) (Fin current_carbon_kg) in
              match Float.int (Float.mul reduction_pct (Fin 5)) with
              | None => None
              | Some points =>
                  Some {| a_improvements :=
                            a_improvements a ++ [CarbonReduced reduction_pct carbon_saved];
                          a_score := Float.add (a_score a) carbon_score;
                          a_green_points := (a_green_points a + points)%Z;
                          a_carbon_saved := carbon_saved;
                          a_energy_saved := Float.mul carbon_saved (Fin 2.5) |}
              end
            else Some a
        end
      else Some a
  | None => Some a
  end.

(** "Region scoring". *)
Definition region_part (region : string) (current_intensity : Q) (a : acc) : acc :=
  if Py.leb current_intensity 100 then
    {| a_improvements := a_improvements a ++ [VeryLowCarbonRegion region current_intensity];
       a_score := Float.add (a_score a) (Fin 25);
       a_green_points := (a_green_points a + 25)%Z;
       a_carbon_saved := a_carbon_saved a;
       a_energy_saved := a_energy_saved a |}
  else if Py.leb current_intensity 250 then
    {| a_improvements := a_improvements a ++ [LowCarbonRegion region current_intensity];
       a_score := Float.add (a_score a) (Fin 15);
       a_green_points := (a_green_points a + 15)%Z;
       a_carbon_saved := a_carbon_saved a;
       a_energy_saved := a_energy_saved a |}
  else if Py.leb current_intensity 400 then
    {| a_improvements := a_improvements a;
       a_score := Float.add (a_score a) (Fin 5);
       a_green_points := (a_green_points a + 5)%Z;
       a_carbon_saved := a_carbon_saved a;
       a_energy_saved := a_energy_saved a |}
  else a.

(** "Region improvement bonus"; the intensities are the table's, far
    from any overflow. *)
Definition bonus_part (region : string) (current_intensity : Q)
    (previous_region : option string) (a : acc) : acc :=
  match previous_region with
  | Some previous =>
      if bool_decide (previous = "") then a
      else
        let prev_intensity := Py.dict_get CarbonService.REGION_CARBON_INTENSITY previous 400%Q in
        if Py.ltb current_intensity prev_intensity then
          let bonus := Z.min 15 (Builtins.int ((prev_intensity - current_intensity) / 20)%Q) in
          {| a_improvements := a_improvements a ++ [SwitchedRegion previous region];
             a_score := a_score a;
             a_green_points := (a_green_points a + bonus)%Z;
             a_carbon_saved := a_carbon_saved a;
             a_energy_saved := a_energy_saved a |}
        else a
  | None => a
  end.

(** [calculate_sustainability_score], for measurements that are finite
    floats; [None] is an exception. *)
Definition calculate_sustainability_score (current_carbon_kg : Q)
    (previous_carbon_kg : option Q) (region : string) (previous_region : option string)
  : option SustainabilityScore :=
  match carbon_part current_carbon_kg previous_carbon_kg initial with
  | None => None
  | Some a =>
      let current_intensity := Py.dict_get CarbonService.REGION_CARBON_INTENSITY region 400%Q in
      let a := region_part region current_intensity a in
      let a := bonus_part region current_intensity previous_region a in
      SustainabilityScore_new (Float.min (Fin 100) (Float.round (a_score a) 1))
        (Float.round (a_carbon_saved a) 4) (Float.round (a_energy_saved a) 4)
        (a_green_points a) (a_improvements a)
  end.

End IncentiveService.

(** ** Notions used by the further properties *)

Module Derived.
Import Models.

(** One scope asks for at least as much as another: more users, data,
    regions and availability, at the same traffic level or at a higher
    one among the levels 1 to 5. *)
Definition scope_le (s1 s2 : Scope) : Prop :=
  (users s1 <= users s2)%Z
  ∧ (trafficLevel s1 = trafficLevel s2
     ∨ (1 <= trafficLevel s1 <= trafficLevel s2 ∧ trafficLevel s2 <= 5)%Z)
  ∧ (dataVolumeGB s1 <= dataVolumeGB s2)%Q
  ∧ (regions s1 <= regions s2)%Z
  ∧ (availability s1 <= availability s2)%Q.

(** The breakdown entry of an identifier, if the catalog resolves it. *)
Definition cost_entry (scope : Scope) (component_id : string) : option CostBreakdown :=
  (λ component,
     {| cb_category := Catalog.category component;
        cb_component := Catalog.name component;
        cb_componentId := component_id;
        baseCost := (CostCalculator.calculate_component_cost component_id scope).1;
        scaledCost := (CostCalculator.calculate_component_cost component_id scope).2 |})
    <$> Catalog.get_component_by_id component_id.

(** A character occurs in a string. *)
Fixpoint has_char (c : Ascii.ascii) (s : string) : bool :=
  match s with
  | EmptyString => false
  | String a r => Ascii.eqb a c || has_char c r
  end.

(** The categories that occur as the source of a connection rule. *)
Definition source_categories : list string :=
  ["frontend"; "backend"; "infrastructure"; "hosting"; "database";
   "monitoring"; "analytics"; "cicd"; "messaging"].

(** The nodes were named with the tokens drawn from the [k]-th on:
    "{componentId}-{token}". *)
Definition ids_drawn (token : nat → string) (k : nat) (ns : list Node) : Prop :=
  ∀ j n, ns !! j = Some n →
         node_id n = componentId (data n) +:+ "-" +:+ token (k + j).

(** One position comes before another in the layout: further left, or
    in the same column and higher up. *)
Definition before (p q : NodePosition) : Prop :=
  (x p < x q)%Q ∨ (x p = x q ∧ (y p < y q)%Q).

(** The power (W) and the carbon (kg) the carbon model attributes to a
    node, and its breakdown entry. *)
Definition node_power (traffic_mul user_mul : Q) (n : Node) : Q :=
  let power_draw := Py.dict_get CarbonService.COMPONENT_POWER_DRAW (category (data n)) 30.0%Q in
  let scaled_power := (power_draw * Py.max traffic_mul 0.5 * Py.max user_mul 0.5)%Q in
  if bool_decide (category (data n) = "ml") then (scaled_power * traffic_mul)%Q
  else scaled_power.

Definition node_carbon (carbon_intensity traffic_mul user_mul : Q) (n : Node) : Q :=
  (Spec.node_energy traffic_mul user_mul n * carbon_intensity / 1000.0)%Q.

Definition carbon_entry (carbon_intensity traffic_mul user_mul : Q) (n : Node)
  : CarbonService.ComponentCarbon :=
  {| CarbonService.component_id := componentId (data n);
     CarbonService.component_name := label (data n);
     CarbonService.cc_category := category (data n);
     CarbonService.cc_energy_kwh := Py.round (Spec.node_energy traffic_mul user_mul n) 4;
     CarbonService.cc_carbon_kg :=
       Py.round (node_carbon carbon_intensity traffic_mul user_mul n) 4;
     CarbonService.power_draw_watts := Py.round (node_power traffic_mul user_mul n) 2 |}.

(** The multipliers the carbon model derives from a scope. *)
Definition traffic_mul (s : Scope) : Q := (inject_Z (trafficLevel s) / 3.0)%Q.

Definition user_mul (log10 : Z → Q) (s : Scope) : Q := (log10 (users s + 1)%Z / 2.0)%Q.

(** A text mentions a component: by its lower-cased name, or by its
    identifier without dashes and underscores in the text without dots
    and spaces. *)
Definition mentions (lower : string → string) (text : string) (c : Catalog.Component) : bool :=
  Builtins.contains (lower (Catalog.name c)) (lower text)
  || Builtins.contains (Builtins.strip2 "-" "_" (Catalog.id c))
                       (Builtins.strip2 "." " " (lower text)).

(** The exact reduction in percent, where the code computes it. *)
Definition reduction_pct (previous current : Q) : Q :=
  ((previous - current) / previous * 100)%Q.

(** The points of a region, by its carbon intensity. *)
Definition region_points (current_intensity : Q) : Z :=
  if Py.leb current_intensity 100 then 25
  else if Py.leb current_intensity 250 then 15
  else if Py.leb current_intensity 400 then 5
  else 0.

(** The carbon intensity the scoring uses for a region. *)
Definition scoring_intensity (region : string) : Q :=
  Py.dict_get CarbonService.REGION_CARBON_INTENSITY region 400%Q.

(** The previous measurement, when the scoring credits a reduction: it
    is positive and above the current one. *)
Definition credited (previous : option Q) (current : Q) : option Q :=
  match previous with
  | Some p => if Py.ltb 0 p && Py.ltb current p then Some p else None
  | None => None
  end.

(** The exact score, points and savings of the carbon part. *)
Definition carbon_points (previous : option Q) (current : Q) : Q :=
  match credited previous current with
  | Some p => Builtins.min 60 (reduction_pct p current * 1.2)%Q
  | None => 0%Q
  end.

Definition carbon_green (previous : option Q) (current : Q) : Z :=
  match credited previous current with
  | Some p => Builtins.int (reduction_pct p current * 5)%Q
  | None => 0%Z
  end.

Definition carbon_saved (previous : option Q) (current : Q) : Q :=
  match credited previous current with
  | Some p => (p - current)%Q
  | None => 0.0%Q
  end.

Definition energy_saved (previous : option Q) (current : Q) : Float.t :=
  match credited previous current with
  | Some p => Float.of_Q ((p - current) * 2.5)%Q
  | None => Float.Fin 0.0%Q
  end.

(** A step of the carbon part overflows. *)
Definition overflows (previous : option Q) (current : Q) : Prop :=
  match credited previous current with
  | Some p => (Float.overflow <= p - current
               ∨ Float.overflow <= reduction_pct p current * 5)%Q
  | None => False
  end.

(** The green points of the region improvement bonus. *)
Definition region_bonus (current_intensity : Q) (previous_region : option string) : Z :=
  match previous_region with
  | Some previous =>
      if bool_decide (previous = "") then 0%Z
      else
        let prev_intensity := scoring_intensity previous in
        if Py.ltb current_intensity prev_intensity
        then Z.min 15 (Builtins.int ((prev_intensity - current_intensity) / 20)%Q)
        else 0%Z
  | None => 0%Z
  end.

End Derived.

(** ** Further examples *)

Module MoreSamples.
Import Models.

(** [str.lower] on ASCII letters, a stand-in for examples. *)
Definition lower_ascii (a : Ascii.ascii) : Ascii.ascii :=
  let n := Ascii.nat_of_ascii a in
  if (65 <=? n)%nat && (n <=? 90)%nat then Ascii.ascii_of_nat (n + 32) else a.

Fixpoint lower (s : string) : string :=
  match s with
  | EmptyString => EmptyString
  | String a rest => String (lower_ascii a) (lower rest)
  end.

(** A scope that asks for more than [Sample.sample_scope] on every axis. *)
Definition large_scope : Scope :=
  {| users := 50000; trafficLevel := 4; dataVolumeGB := 2000%Q;
     regions := 3; availability := 99.99%Q |}.

(** An architecture without nodes. *)
Definition empty_architecture : ArchitectureJson :=
  {| nodes := []; edges := []; scope := Sample.sample_scope;
     costEstimate := None; timestamp := None |}.

(** A node of a category that no connection rule mentions. *)
Definition lone_nodes : list Node := [ Sample.sample_node "x" "unlisted" 100 ].

End MoreSamples.

(** * Properties *)

(** A loop over the empty list appends nothing and draws no token. *)
Ltac loop_done :=
  exists []; rewrite app_nil_r, Nat.add_0_r; split; reflexivity.

(** ** Rounding *)

Section RoundFacts.
Import Py.
Local Open Scope Q_scope.

Lemma round_half_even_comp x y : x == y → round_half_even x = round_half_even y.
Proof.
  intros E. unfold round_half_even.
  rewrite (Qfloor_comp _ _ E).
  assert (H : x - inject_Z (Qfloor y) == y - inject_Z (Qfloor y)) by (rewrite E; reflexivity).
  rewrite (Qcompare_comp _ _ H (1#2) (1#2) (Qeq_refl _)). reflexivity.
Qed.

Lemma round_comp x y n : x == y → round x n = round y n.
Proof.
  intros E. unfold round.
  rewrite (round_half_even_comp (x * _) (y * inject_Z (Z.pos (pow10 n)))); [reflexivity|].
  rewrite E. reflexivity.
Qed.

Lemma round_half_even_floor x :
  (Qfloor x <= round_half_even x <= Qfloor x + 1)%Z.
Proof.
  unfold round_half_even.
  destruct (_ ?= _); try destruct (Z.even _); lia.
Qed.

(** The nearest integer is within one half. *)
Lemma round_half_even_near x :
  inject_Z (round_half_even x) - (1#2) <= x ∧ x <= inject_Z (round_half_even x) + (1#2).
Proof.
  unfold round_half_even.
  pose proof (Qfloor_le x) as Hlo. pose proof (Qlt_floor x) as Hhi.
  set (f := Qfloor x) in *.
  assert (Hf1 : inject_Z (f + 1) == inject_Z f + 1) by (rewrite inject_Z_plus; reflexivity).
  rewrite Hf1 in Hhi.
  destruct (Qcompare_spec (x - inject_Z f) (1#2)) as [E|L|G].
  - destruct (Z.even f).
    + split; lra.
    + rewrite Hf1. split; lra.
  - split; lra.
  - rewrite Hf1. split; lra.
Qed.

Lemma round_half_even_mono x y : x <= y → (round_half_even x <= round_half_even y)%Z.
Proof.
  intros L. pose proof (Qfloor_resp_le _ _ L) as Hf.
  destruct (Z.eq_dec (Qfloor x) (Qfloor y)) as [E|N].
  - unfold round_half_even. rewrite E.
    destruct (Qcompare_spec (x - inject_Z (Qfloor y)) (1#2)),
             (Qcompare_spec (y - inject_Z (Qfloor y)) (1#2));
      try destruct (Z.even _); try lia; exfalso; lra.
  - pose proof (round_half_even_floor x). pose proof (round_half_even_floor y). lia.
Qed.

Lemma round_half_even_gap x y : x + 1 < y → (round_half_even x < round_half_even y)%Z.
Proof.
  intros L. rewrite Zlt_Qlt.
  destruct (round_half_even_near x), (round_half_even_near y). lra.
Qed.

Lemma round_half_even_Z x (m : Z) : x == inject_Z m → round_half_even x = m.
Proof.
  intros E. rewrite (round_half_even_comp _ _ E).
  unfold round_half_even. rewrite Qfloor_Z.
  destruct (Qcompare_spec (inject_Z m - inject_Z m) (1#2)); [exfalso; lra|reflexivity|exfalso; lra].
Qed.

Lemma Qmake_le_num (a b : Z) (p : positive) : (a <= b)%Z → a # p <= b # p.
Proof. intros L. unfold Qle; simpl. nia. Qed.

Lemma Qmake_lt_num (a b : Z) (p : positive) : (a < b)%Z → a # p < b # p.
Proof. intros L. unfold Qlt; simpl. nia. Qed.

Lemma pow10_pos n : 0 < inject_Z (Z.pos (pow10 n)).
Proof. unfold Qlt; simpl. lia. Qed.

Lemma round_mono x y n : x <= y → round x n <= round y n.
Proof.
  intros L. unfold round. rewrite !Qred_correct.
  apply Qmake_le_num, round_half_even_mono.
  apply Qmult_le_compat_r; [exact L|]. apply Qlt_le_weak, pow10_pos.
Qed.

(** Values further apart than one unit of the last kept digit stay
    strictly ordered. *)
Lemma round_gap x y n :
  x * inject_Z (Z.pos (pow10 n)) + 1 < y * inject_Z (Z.pos (pow10 n)) →
  round x n < round y n.
Proof.
  intros L. unfold round. rewrite !Qred_correct.
  apply Qmake_lt_num, round_half_even_gap, L.
Qed.

Lemma round_idempotent x n : round (round x n) n = round x n.
Proof.
  unfold round at 1 3. f_equal. f_equal.
  apply round_half_even_Z.
  unfold round. rewrite Qred_correct.
  unfold Qeq; simpl. lia.
Qed.

End RoundFacts.

(** ** A formula of the worked example in binary64 *)

Section Binary64Facts.
Import PrimFloat.

(** The scaled cost of [postgresql] in the worked example, evaluated in
    binary64 as CPython does: the double written [62.3]. *)
Lemma postgresql_cost_binary64 :
  Binary64.round
    (PrimFloat.add
       (PrimFloat.mul (PrimFloat.mul (PrimFloat.mul (PrimFloat.mul
          (Binary64.of_Z 25) 1.0%float) 2.0%float) 1.0%float) 0x1.3333333333333p+0%float)
       (PrimFloat.mul 100.0%float 0x1.78d4fdf3b645ap-6%float)) 2
  = 0x1.f266666666666p+5%float.
Proof. vm_compute. reflexivity. Qed.

End Binary64Facts.

(** ** The cost model *)

Section CostFacts.
Import Catalog Models CostCalculator.

Lemma fold_left_Qplus_comp (l : list Q) (a b : Q) :
  (a == b)%Q → (fold_left Qplus l a == fold_left Qplus l b)%Q.
Proof.
  revert a b. induction l as [|q l IH]; intros a b E; simpl; [exact E|].
  apply IH. rewrite E. reflexivity.
Qed.

(** The loop of [calculate_architecture_cost] appends entries and adds
    their scaled costs to the running total, in order. *)
Lemma cost_loop scope ids bd t :
  ∃ new,
    fold_left (cost_step scope) ids (bd, t)
    = (bd ++ new, fold_left Qplus (map scaledCost new) t)
    ∧ Forall (λ e, Spec.known (cb_componentId e) = true
                   ∧ (baseCost e, scaledCost e)
                     = calculate_component_cost (cb_componentId e) scope) new
    ∧ map cb_componentId new = filter (λ i, Spec.known i = true) ids.
Proof.
  revert bd t. induction ids as [|i ids IH]; intros bd t; cbn [fold_left].
  - exists []. rewrite app_nil_r. repeat split; constructor.
  - unfold cost_step at 2.
    destruct (get_component_by_id i) as [c|] eqn:Hc.
    + destruct (calculate_component_cost i scope) as [b sc] eqn:Hcost.
      destruct (IH (bd ++ [mkCostBreakdown (Catalog.category c) (Catalog.name c) i b sc]) (t + sc)%Q)
        as (new & Hfold & Hall & Hids).
      exists (mkCostBreakdown (Catalog.category c) (Catalog.name c) i b sc :: new).
      rewrite Hfold, <- app_assoc. simpl. split; [reflexivity|]. split.
      * constructor; [|exact Hall]. simpl. split; [|congruence].
        unfold Spec.known. rewrite Hc. reflexivity.
      * rewrite filter_cons_True; [simpl; congruence|].
        unfold Spec.known. rewrite Hc. reflexivity.
    + destruct (IH bd t) as (new & Hfold & Hall & Hids).
      exists new. split; [exact Hfold|]. split; [exact Hall|].
      rewrite filter_cons_False; [exact Hids|].
      unfold Spec.known. rewrite Hc. intros H. discriminate H.
Qed.

Lemma component_cost_rounded component_id scope :
  (Py.round (calculate_component_cost component_id scope).2 2
   == (calculate_component_cost component_id scope).2)%Q.
Proof.
  unfold calculate_component_cost.
  destruct (get_component_by_id component_id) as [c|]; [|reflexivity].
  destruct (base_cost c =? 0)%Z; [reflexivity|].
  cbn [snd]. rewrite round_idempotent. reflexivity.
Qed.

(** C5: [get_user_multiplier] is the step function with breakpoints
    1,000 / 10,000 / 100,000 / 1,000,000 and values 1.0 / 1.5 / 2.5 /
    4.0, the first breakpoint the user count is at most winning, and
    6.0 above the last one; it is non-decreasing, and its values at
    999, 1000, 1001 and 10^7 are 1.0, 1.0, 1.5 and 6.0. *)
Theorem C5_user_multiplier_step :
  (∀ users, get_user_multiplier users = Spec.userMultiplier_step users)
  ∧ (∀ u1 u2, (u1 <= u2)%Z → (get_user_multiplier u1 <= get_user_multiplier u2)%Q)
  ∧ get_user_multiplier 999 = 1.0%Q
  ∧ get_user_multiplier 1000 = 1.0%Q
  ∧ get_user_multiplier 1001 = 1.5%Q
  ∧ get_user_multiplier (10 ^ 7) = 6.0%Q.
Proof.
  split; [intros users; reflexivity|].
  split; [|repeat split; reflexivity].
  intros u1 u2 L.
  change (Spec.userMultiplier_step u1 <= Spec.userMultiplier_step u2)%Q.
  unfold Spec.userMultiplier_step.
  repeat match goal with
         | |- context [(?a <=? ?b)%Z] => destruct (Z.leb_spec a b)
         end;
    try lia; unfold Qle; simpl; lia.
Qed.

Lemma C5_user_multiplier_step_witness :
  (999 <= 1001)%Z ∧ (get_user_multiplier 999 <= get_user_multiplier 1001)%Q.
Proof.
  split; [lia|].
  apply (proj1 (proj2 C5_user_multiplier_step) 999%Z 1001%Z). lia.
Defined.

(** C6: [calculate_component_cost] returns [(0, 0)] when the identifier
    is not in the catalog or the component's base cost is 0, whatever
    the scope. *)
Theorem C6_free_tier_never_scales (component_id : string) (scope : Scope) :
  (get_component_by_id component_id = None
   ∨ ∃ component, get_component_by_id component_id = Some component
                  ∧ base_cost component = 0%Z) →
  calculate_component_cost component_id scope = (0.0%Q, 0.0%Q).
Proof.
  intros [Hnone | (component & Hsome & Hfree)]; unfold calculate_component_cost.
  - rewrite Hnone. reflexivity.
  - rewrite Hsome, Hfree. reflexivity.
Qed.

Lemma C6_free_tier_never_scales_witness :
  calculate_component_cost "nextjs"
    {| users := 5000000; trafficLevel := 5; dataVolumeGB := 10000%Q;
       regions := 4; availability := 99.999%Q |}
  = (0.0%Q, 0.0%Q).
Proof.
  apply C6_free_tier_never_scales.
  right. eexists. split; reflexivity.
Defined.

(** C2: the total reported by [calculate_architecture_cost] is the sum
    of the breakdown's scaled costs rounded to 2 decimals, and every
    breakdown entry's scaled cost is the 2-decimal-rounded scaled cost
    of its component. *)
Theorem C2_total_is_rounded_sum (component_ids : list string) (scope : Scope) :
  let r := calculate_architecture_cost component_ids scope in
  total r = Py.round (Spec.sum (map scaledCost (breakdown r))) 2
  ∧ Forall (λ e, scaledCost e = (calculate_component_cost (cb_componentId e) scope).2
                 ∧ (Py.round (scaledCost e) 2 == scaledCost e)%Q)
           (breakdown r).
Proof.
  unfold calculate_architecture_cost.
  destruct (cost_loop scope component_ids [] 0.0%Q) as (new & Hfold & Hall & _).
  rewrite Hfold. cbn [app total breakdown]. split.
  - apply round_comp, fold_left_Qplus_comp. reflexivity.
  - eapply Forall_impl; [exact Hall|].
    intros e [_ He]. cbn beta.
    assert (Hs : scaledCost e = (calculate_component_cost (cb_componentId e) scope).2)
      by (rewrite <- He; reflexivity).
    split; [exact Hs|]. rewrite Hs. apply component_cost_rounded.
Qed.

End CostFacts.

(** ** Edge generation *)

Section EdgeFacts.
Import Models ArchitectureService.
Variable token : nat → string.

Lemma head_filter_find {A} (P : A → Prop) `{∀ a, Decision (P a)} (l : list A) :
  head (filter P l) = List.find (λ a, bool_decide (P a)) l.
Proof.
  induction l as [|a l IH]; [reflexivity|]. simpl.
  destruct (decide (P a)) as [Hp|Hn].
  - rewrite filter_cons_True, bool_decide_true by exact Hp. reflexivity.
  - rewrite filter_cons_False, bool_decide_false by exact Hn. exact IH.
Qed.

Lemma group_step_lookup (m : gmap string (list Node)) (n : Node) (c : string) :
  group_step m n !! c
  = if decide (category (data n) = c) then Some (default [] (m !! c) ++ [n])
    else m !! c.
Proof.
  unfold group_step. destruct (decide (category (data n) = c)) as [->|Hne].
  - destruct (m !! c) as [l|] eqn:Hm.
    + rewrite lookup_alter_eq, Hm. reflexivity.
    + rewrite lookup_alter_eq, lookup_insert_eq. reflexivity.
  - destruct (m !! category (data n)).
    + rewrite lookup_alter_ne by exact Hne. reflexivity.
    + rewrite lookup_alter_ne, lookup_insert_ne by exact Hne. reflexivity.
Qed.

(** After the grouping loop a category maps to its nodes in creation
    order; a category without nodes has no key. *)
Lemma group_fold_lookup (nodes : list Node) (m : gmap string (list Node)) (c : string) :
  fold_left group_step nodes m !! c
  = match m !! c, filter (λ n, category (data n) = c) nodes with
    | Some l, f => Some (l ++ f)
    | None, [] => None
    | None, f => Some f
    end.
Proof.
  revert m. induction nodes as [|n nodes IH]; intros m; cbn [fold_left].
  - rewrite filter_nil. destruct (m !! c); [rewrite app_nil_r|]; reflexivity.
  - rewrite IH, group_step_lookup.
    destruct (decide (category (data n) = c)) as [E|Hne].
    + rewrite filter_cons_True by exact E.
      destruct (m !! c) as [l|]; simpl; [rewrite <- app_assoc|]; reflexivity.
    + rewrite filter_cons_False by exact Hne. reflexivity.
Qed.

Lemma group_by_category_lookup (nodes : list Node) (c : string) :
  group_by_category nodes !! c
  = match filter (λ n, category (data n) = c) nodes with
    | [] => None
    | f => Some f
    end.
Proof.
  unfold group_by_category. rewrite group_fold_lookup, lookup_empty. reflexivity.
Qed.

(** One pass of the inner loop draws the edge to the first node of the
    category, if the category has a node. *)
Lemma edge_step_first (nodes : list Node) (s : Node) (es : list Edge) (k : nat) (c : string) :
  edge_step token (group_by_category nodes) s (es, k) c
  = match Spec.first_in_category c nodes with
    | None => (es, k)
    | Some t => (es ++ [Spec.mk_edge token k (Spec.expected_link s t)], S k)
    end.
Proof.
  unfold edge_step, Spec.first_in_category.
  rewrite group_by_category_lookup, <- head_filter_find.
  destruct (filter _ nodes) as [|t f]; [reflexivity|]. simpl.
  unfold Spec.expected_link. destruct (Py.ltb _ _); reflexivity.
Qed.

Lemma edge_link_mk_edge k l : Spec.edge_link (Spec.mk_edge token k l) = l.
Proof. destruct l as [[[s t] sh] th]. reflexivity. Qed.

Lemma inner_loop (nodes : list Node) (s : Node) (cats : list string) (es : list Edge) (k : nat) :
  ∃ new,
    fold_left (edge_step token (group_by_category nodes) s) cats (es, k)
    = (es ++ new, k + length new)
    ∧ map Spec.edge_link new
      = omap (λ c, Spec.expected_link s <$> Spec.first_in_category c nodes) cats.
Proof.
  revert es k. induction cats as [|c cats IH]; intros es k; cbn [fold_left].
  - loop_done.
  - rewrite edge_step_first. cbn [omap list_omap].
    destruct (Spec.first_in_category c nodes) as [t|]; cbn [fmap option_fmap option_map].
    + destruct (IH (es ++ [Spec.mk_edge token k (Spec.expected_link s t)]) (S k)) as (new & Hf & Hl).
      exists (Spec.mk_edge token k (Spec.expected_link s t) :: new).
      rewrite Hf, <- app_assoc. simpl. rewrite Nat.add_succ_r, edge_link_mk_edge, Hl.
      split; reflexivity.
    + apply IH.
Qed.

Lemma outer_loop (nodes srcs : list Node) (es : list Edge) (k : nat) :
  ∃ new,
    fold_left (source_step token (group_by_category nodes)) srcs (es, k)
    = (es ++ new, k + length new)
    ∧ map Spec.edge_link new = srcs ≫= Spec.links_from nodes.
Proof.
  revert es k. induction srcs as [|s srcs IH]; intros es k; cbn [fold_left].
  - loop_done.
  - unfold source_step at 2.
    destruct (inner_loop nodes s
                (elements (ConnectionValidator.get_valid_targets (category (data s)))) es k)
      as (new1 & Hf1 & Hl1).
    rewrite Hf1.
    destruct (IH (es ++ new1) (k + length new1)) as (new2 & Hf2 & Hl2).
    exists (new1 ++ new2). rewrite Hf2, <- app_assoc, length_app, Nat.add_assoc.
    split; [reflexivity|].
    rewrite map_app, Hl1, Hl2. reflexivity.
Qed.

(** The edges of [generate_edges], without their identifiers: for each
    source node in order, the links to the first node of each valid
    target category that has a node. *)
Lemma generate_edges_links (nodes : list Node) (k : nat) :
  map Spec.edge_link (generate_edges token nodes k).1 = nodes ≫= Spec.links_from nodes.
Proof.
  unfold generate_edges.
  destruct (outer_loop nodes nodes [] k) as (new & Hf & Hl).
  rewrite Hf. exact Hl.
Qed.

Lemma ltb_irrefl (q : Q) : Py.ltb q q = false.
Proof. unfold Py.ltb. rewrite (proj1 (Qeq_alt q q) (Qeq_refl q)). reflexivity. Qed.

Lemma first_in_category_Some (c : string) (nodes : list Node) (t : Node) :
  Spec.first_in_category c nodes = Some t → t ∈ nodes ∧ category (data t) = c.
Proof.
  intros H. apply find_some in H as [Hin Hc].
  split; [apply list_elem_of_In, Hin|]. exact (bool_decide_eq_true_1 _ Hc).
Qed.

(** Every link the specification lists is drawn. *)
Lemma link_drawn (nodes : list Node) (k : nat) (s t : Node) (c : string) :
  s ∈ nodes →
  c ∈ ConnectionValidator.get_valid_targets (category (data s)) →
  Spec.first_in_category c nodes = Some t →
  ∃ e, e ∈ (generate_edges token nodes k).1 ∧ Spec.edge_link e = Spec.expected_link s t.
Proof.
  intros Hs Hc Ht.
  assert (Hl : Spec.expected_link s t ∈ map Spec.edge_link (generate_edges token nodes k).1).
  { rewrite generate_edges_links. apply list_elem_of_bind. exists s. split; [|exact Hs].
    unfold Spec.links_from. apply list_elem_of_omap. exists c. split.
    - apply elem_of_elements, Hc.
    - rewrite Ht. reflexivity. }
  apply list_elem_of_fmap in Hl as (e & He & Hin). exists e. split; [exact Hin|]. symmetry. exact He.
Qed.

(** Every edge drawn is one the specification lists. *)
Lemma edge_is_link (nodes : list Node) (k : nat) (e : Edge) :
  e ∈ (generate_edges token nodes k).1 →
  ∃ s c t, s ∈ nodes
           ∧ c ∈ ConnectionValidator.get_valid_targets (category (data s))
           ∧ Spec.first_in_category c nodes = Some t
           ∧ Spec.edge_link e = Spec.expected_link s t.
Proof.
  intros He.
  assert (Hl : Spec.edge_link e ∈ map Spec.edge_link (generate_edges token nodes k).1)
    by (apply list_elem_of_fmap; exists e; split; [reflexivity|exact He]).
  rewrite generate_edges_links in Hl.
  apply list_elem_of_bind in Hl as (s & Hl & Hs).
  unfold Spec.links_from in Hl. apply list_elem_of_omap in Hl as (c & Hc & Hl).
  destruct (Spec.first_in_category c nodes) as [t|] eqn:Ht; [|discriminate Hl].
  exists s, c, t. repeat split; try assumption.
  - apply elem_of_elements, Hc.
  - injection Hl as Hl. symmetry. exact Hl.
Qed.

Lemma filter_none {A} (P : A → Prop) `{∀ a, Decision (P a)} (l : list A) :
  (∀ a, a ∈ l → ¬ P a) → filter P l = [].
Proof.
  induction l as [|a l IH]; intros Hn; [reflexivity|].
  rewrite filter_cons_False by (apply Hn; left).
  apply IH. intros b Hb. apply Hn. right. exact Hb.
Qed.

Lemma fmap_filter_comm {A B} (f : A → B) (P : B → Prop) `{∀ b, Decision (P b)}
    (l : list A) :
  f <$> filter (λ a, P (f a)) l = filter P (f <$> l).
Proof.
  induction l as [|a l IH]; [reflexivity|]. csimpl.
  rewrite !filter_cons. destruct (decide (P (f a))); csimpl; congruence.
Qed.

Lemma node_id_inj (nodes : list Node) (a b : Node) :
  NoDup (map node_id nodes) → a ∈ nodes → b ∈ nodes → node_id a = node_id b → a = b.
Proof.
  induction nodes as [|n l IH]; intros Hnd Ha Hb E; [inversion Ha|].
  cbn [map] in Hnd. apply NoDup_cons in Hnd as [Hn Hnd].
  apply elem_of_cons in Ha as [->|Ha]; apply elem_of_cons in Hb as [->|Hb].
  - reflexivity.
  - exfalso. apply Hn. rewrite E. apply (list_elem_of_fmap_2 node_id), Hb.
  - exfalso. apply Hn. rewrite <- E. apply (list_elem_of_fmap_2 node_id), Ha.
  - apply IH; assumption.
Qed.

Lemma expected_link_ends (s t : Node) :
  (Spec.expected_link s t).1.1.1 = node_id s ∧ (Spec.expected_link s t).1.1.2 = node_id t.
Proof. unfold Spec.expected_link. destruct (Py.ltb _ _); split; reflexivity. Qed.

Lemma elem_of_ids_of_category (c : string) (nodes : list Node) (i : string) :
  i ∈ Spec.ids_of_category c nodes ↔ ∃ n, n ∈ nodes ∧ category (data n) = c ∧ node_id n = i.
Proof.
  unfold Spec.ids_of_category. split.
  - intros H. apply list_elem_of_fmap in H as (n & -> & Hn).
    apply list_elem_of_filter in Hn as [Hc Hn]. exists n. repeat split; assumption.
  - intros (n & Hn & Hc & <-). apply (list_elem_of_fmap_2 node_id).
    apply list_elem_of_filter. split; assumption.
Qed.

(** With distinct node identifiers, the links from [s] into category
    [c] are the single link to the first node of [c]. *)
Lemma links_from_into (nodes : list Node) (s t : Node) (c : string) :
  NoDup (map node_id nodes) →
  s ∈ nodes →
  c ∈ ConnectionValidator.get_valid_targets (category (data s)) →
  Spec.first_in_category c nodes = Some t →
  filter (Spec.from_into nodes s c) (Spec.links_from nodes s) = [Spec.expected_link s t].
Proof.
  intros Hnd Hs Hc Ht.
  destruct (first_in_category_Some _ _ _ Ht) as [Htin Htc].
  assert (Hother : ∀ cats, c ∉ cats →
            filter (Spec.from_into nodes s c)
              (omap (λ c', Spec.expected_link s <$> Spec.first_in_category c' nodes) cats) = []).
  { intros cats Hnot. apply filter_none. intros l Hl [_ Hinto].
    apply list_elem_of_omap in Hl as (c' & Hc' & Hl).
    destruct (Spec.first_in_category c' nodes) as [t'|] eqn:Ht'; [|discriminate Hl].
    injection Hl as <-.
    destruct (first_in_category_Some _ _ _ Ht') as [Ht'in Ht'c].
    rewrite (proj2 (expected_link_ends s t')) in Hinto.
    apply elem_of_ids_of_category in Hinto as (n & Hn & Hnc & Hid).
    apply (node_id_inj nodes n t' Hnd Hn Ht'in) in Hid. subst n.
    apply Hnot. congruence. }
  unfold Spec.links_from.
  assert (Hc' : c ∈ elements (ConnectionValidator.get_valid_targets (category (data s))))
    by (apply elem_of_elements, Hc).
  pose proof (NoDup_elements (ConnectionValidator.get_valid_targets (category (data s)))) as Hcats.
  destruct (list_elem_of_split _ _ Hc') as (a & b & E). rewrite E in Hcats |- *.
  apply NoDup_app in Hcats as (_ & Ha & Hb). apply NoDup_cons in Hb as [Hb _].
  rewrite omap_app. cbn [omap list_omap]. rewrite Ht. cbn [fmap option_fmap option_map].
  rewrite filter_app, filter_cons_True, !Hother; [reflexivity| | |].
  - exact Hb.
  - intros Hin. apply (Ha c Hin). left.
  - split; [apply expected_link_ends|].
    rewrite (proj2 (expected_link_ends s t)).
    apply elem_of_ids_of_category. exists t. repeat split; assumption.
Qed.

Lemma links_of_all_from_into (nodes : list Node) (s t : Node) (c : string) :
  NoDup (map node_id nodes) →
  s ∈ nodes →
  c ∈ ConnectionValidator.get_valid_targets (category (data s)) →
  Spec.first_in_category c nodes = Some t →
  filter (Spec.from_into nodes s c) (nodes ≫= Spec.links_from nodes)
  = [Spec.expected_link s t].
Proof.
  intros Hnd Hs Hc Ht.
  assert (Hother : ∀ srcs, (∀ s', s' ∈ srcs → s' ∈ nodes ∧ s' ≠ s) →
            filter (Spec.from_into nodes s c) (srcs ≫= Spec.links_from nodes) = []).
  { intros srcs Hsrcs. apply filter_none. intros l Hl [Hfrom _].
    apply list_elem_of_bind in Hl as (s' & Hl & Hs').
    destruct (Hsrcs s' Hs') as [Hin Hne]. apply Hne.
    unfold Spec.links_from in Hl. apply list_elem_of_omap in Hl as (c' & _ & Hl).
    destruct (Spec.first_in_category c' nodes) as [t'|]; [|discriminate Hl].
    injection Hl as <-. rewrite (proj1 (expected_link_ends s' t')) in Hfrom.
    apply (node_id_inj nodes); assumption. }
  pose proof (NoDup_fmap_1 node_id nodes Hnd) as Hnodes.
  destruct (list_elem_of_split _ _ Hs) as (l1 & l2 & E).
  assert (Hl1 : ∀ s', s' ∈ l1 → s' ∈ nodes ∧ s' ≠ s).
  { intros s' Hs'. split; [rewrite E; apply elem_of_app; left; exact Hs'|].
    intros ->. rewrite E in Hnodes. apply NoDup_app in Hnodes as (_ & H & _).
    apply (H s Hs'). left. }
  assert (Hl2 : ∀ s', s' ∈ l2 → s' ∈ nodes ∧ s' ≠ s).
  { intros s' Hs'. split; [rewrite E; apply elem_of_app; right; right; exact Hs'|].
    intros ->. rewrite E in Hnodes. apply NoDup_app in Hnodes as (_ & _ & H).
    apply NoDup_cons in H as [H _]. exact (H Hs'). }
  assert (Hgen : ∀ srcs, srcs = l1 ++ s :: l2 →
            filter (Spec.from_into nodes s c) (srcs ≫= Spec.links_from nodes)
            = [Spec.expected_link s t]).
  { intros srcs ->. rewrite bind_app, bind_cons, !filter_app.
    rewrite (Hother l1 Hl1), (Hother l2 Hl2), app_nil_r. simpl.
    apply links_from_into; assumption. }
  apply Hgen, E.
Qed.

Lemma omap_ext_lemma {A B} (f g : A → option B) (l : list A) :
  (∀ a, f a = g a) → omap f l = omap g l.
Proof.
  intros E. induction l as [|a l IH]; [reflexivity|]. csimpl. rewrite E, IH. reflexivity.
Qed.

Lemma first_in_category_app (c : string) (nodes : list Node) (n' : Node) :
  is_Some (Spec.first_in_category (category (data n')) nodes) →
  Spec.first_in_category c (nodes ++ [n']) = Spec.first_in_category c nodes.
Proof.
  intros Hsome. unfold Spec.first_in_category in *.
  induction nodes as [|n l IH]; simpl in *.
  - destruct Hsome as [? H]. discriminate H.
  - destruct (bool_decide (category (data n) = c)) eqn:Hn; [reflexivity|].
    destruct (bool_decide (category (data n) = category (data n'))) eqn:Hn'.
    + apply bool_decide_eq_true_1 in Hn'. apply bool_decide_eq_false_1 in Hn.
      clear IH Hsome. induction l as [|m l IHl]; simpl.
      * rewrite bool_decide_false by congruence. reflexivity.
      * destruct (bool_decide (category (data m) = c)); [reflexivity|exact IHl].
    + apply IH, Hsome.
Qed.

(** C3: edge generation is first-match.  Without their identifiers the
    edges are, for each source node and each category among the valid
    targets of its category that has a node, the link to the first
    node of that category in creation order, with handles right/left
    when source.x < target.x and bottom/top otherwise.  When node
    identifiers are distinct, exactly one edge leads from a source
    node into such a category, and it is that link.  Appending a node
    of a category that already has a node adds no edge from the
    earlier nodes: the only new edges start at the appended node. *)
Theorem C3_edges_first_match (nodes : list Node) (k : nat) :
  let edges := (generate_edges token nodes k).1 in
  map Spec.edge_link edges = nodes ≫= Spec.links_from nodes
  ∧ (NoDup (map node_id nodes) →
     ∀ s c t,
       s ∈ nodes →
       c ∈ ConnectionValidator.get_valid_targets (category (data s)) →
       Spec.first_in_category c nodes = Some t →
       ∃ e, filter (λ e, source e = node_id s
                         ∧ target e ∈ Spec.ids_of_category c nodes) edges = [e]
            ∧ Spec.edge_link e = Spec.expected_link s t)
  ∧ (∀ n', is_Some (Spec.first_in_category (category (data n')) nodes) →
           map Spec.edge_link (generate_edges token (nodes ++ [n']) k).1
           = map Spec.edge_link edges ++ Spec.links_from (nodes ++ [n']) n').
Proof.
  intros edges. split; [apply generate_edges_links|]. split.
  - intros Hnd s c t Hs Hc Ht.
    pose proof (links_of_all_from_into nodes s t c Hnd Hs Hc Ht) as Hl.
    rewrite <- (generate_edges_links nodes k) in Hl.
    change (map Spec.edge_link (generate_edges token nodes k).1)
      with (Spec.edge_link <$> edges) in Hl.
    rewrite <- fmap_filter_comm in Hl.
    change (filter (λ e, source e = node_id s
                         ∧ target e ∈ Spec.ids_of_category c nodes) edges)
      with (filter (λ e, Spec.from_into nodes s c (Spec.edge_link e)) edges).
    destruct (filter _ edges) as [|e [|e' rest]]; [discriminate Hl| |discriminate Hl].
    exists e. split; [reflexivity|]. injection Hl as Hl. exact Hl.
  - intros n' Hn'. subst edges. rewrite !generate_edges_links, bind_app.
    f_equal.
    + assert (Hsame : ∀ srcs, srcs ≫= Spec.links_from (nodes ++ [n'])
                              = srcs ≫= Spec.links_from nodes).
      { intros srcs. induction srcs as [|s srcs IH]; [reflexivity|].
        rewrite !bind_cons, IH. f_equal.
        unfold Spec.links_from. apply omap_ext_lemma. intros c.
        rewrite first_in_category_app by exact Hn'. reflexivity. }
      apply Hsame.
    + csimpl. apply app_nil_r.
Qed.

Lemma backend_targets_backend :
  "backend" ∈ ConnectionValidator.get_valid_targets "backend".
Proof. apply (bool_decide_unpack _). vm_compute. exact I. Qed.

(** C10: when the node list has a backend node, [generate_edges] draws
    an edge from the first backend node in creation order to itself,
    with sourceHandle bottom and targetHandle top. *)
Theorem C10_backend_self_loop (nodes : list Node) (k : nat) :
  (∃ n, n ∈ nodes ∧ category (data n) = "backend") →
  ∃ b e, Spec.first_in_category "backend" nodes = Some b
         ∧ e ∈ (generate_edges token nodes k).1
         ∧ source e = node_id b ∧ target e = node_id b
         ∧ sourceHandle e = Some bottom ∧ targetHandle e = Some top.
Proof.
  intros (n & Hn & Hcn).
  destruct (Spec.first_in_category "backend" nodes) as [b|] eqn:Hb.
  2:{ exfalso. unfold Spec.first_in_category in Hb.
      apply list_elem_of_In in Hn.
      pose proof (find_none _ _ Hb n Hn) as Hfalse. cbn beta in Hfalse.
      rewrite bool_decide_true in Hfalse by exact Hcn. discriminate Hfalse. }
  destruct (first_in_category_Some _ _ _ Hb) as [Hin Hcat].
  destruct (link_drawn nodes k b b "backend") as (e & He & Hl).
  - exact Hin.
  - rewrite Hcat. exact backend_targets_backend.
  - exact Hb.
  - exists b, e. split; [reflexivity|]. split; [exact He|].
    unfold Spec.expected_link in Hl. rewrite ltb_irrefl in Hl.
    unfold Spec.edge_link in Hl. injection Hl as -> -> -> ->. repeat split.
Qed.

End EdgeFacts.

(** ** Graph synthesis *)

Section GenerateFacts.
Import Catalog Models ArchitectureService.
Variable token : nat → string.

Lemma known_layer_of (i : string) : is_Some (Spec.layer_of i) ↔ Spec.known i = true.
Proof.
  unfold Spec.layer_of, Spec.known. rewrite bool_decide_eq_true.
  destruct (get_component_by_id i); split; intros [? H]; try discriminate H; eexists; reflexivity.
Qed.

Lemma layer_step_lookup (m : gmap Z (list string)) (i : string) (l : Z) :
  layer_step m i !! l
  = if decide (Spec.layer_of i = Some l) then Some (default [] (m !! l) ++ [i])
    else m !! l.
Proof.
  unfold layer_step, Spec.layer_of.
  destruct (get_component_by_id i) as [c|]; cbn [fmap option_fmap option_map].
  - set (lc := Py.dict_get CATEGORY_LAYERS (Catalog.category c) 3%Z).
    destruct (decide (Some lc = Some l)) as [E|Hne].
    + injection E as ->. destruct (m !! l) as [x|] eqn:Hm.
      * rewrite lookup_alter_eq, Hm. reflexivity.
      * rewrite lookup_alter_eq, lookup_insert_eq. reflexivity.
    + assert (lc ≠ l) by congruence. destruct (m !! lc).
      * rewrite lookup_alter_ne by assumption. reflexivity.
      * rewrite lookup_alter_ne, lookup_insert_ne by assumption. reflexivity.
  - rewrite decide_False by discriminate. reflexivity.
Qed.

(** After the layering loop a layer maps to its identifiers in input
    order; a layer without identifiers has no key. *)
Lemma layer_fold_lookup (ids : list string) (m : gmap Z (list string)) (l : Z) :
  fold_left layer_step ids m !! l
  = match m !! l, filter (λ i, Spec.layer_of i = Some l) ids with
    | Some x, f => Some (x ++ f)
    | None, [] => None
    | None, f => Some f
    end.
Proof.
  revert m. induction ids as [|i ids IH]; intros m; cbn [fold_left].
  - rewrite filter_nil. destruct (m !! l); [rewrite app_nil_r|]; reflexivity.
  - rewrite IH, layer_step_lookup.
    destruct (decide (Spec.layer_of i = Some l)) as [E|Hne].
    + rewrite filter_cons_True by exact E.
      destruct (m !! l) as [x|]; simpl; [rewrite <- app_assoc|]; reflexivity.
    + rewrite filter_cons_False by exact Hne. reflexivity.
Qed.

Lemma layers_lookup (ids : list string) (l : Z) :
  default [] (fold_left layer_step ids ∅ !! l) = filter (λ i, Spec.layer_of i = Some l) ids.
Proof.
  rewrite layer_fold_lookup, lookup_empty.
  destruct (filter _ ids); reflexivity.
Qed.

Lemma create_node_known (i : string) (pos : NodePosition) (k : nat) :
  Spec.known i = true →
  ∃ n, create_node_from_component token i pos k = (Some n, S k)
       ∧ Spec.node_placement n = (i, pos).
Proof.
  unfold Spec.known, create_node_from_component. rewrite bool_decide_eq_true.
  intros [c Hc]. rewrite Hc. eexists. split; reflexivity.
Qed.

(** The loop over one layer creates one node per identifier, at
    successive indexes. *)
Lemma layer_loop (layer : Z) (comps : list string) :
  Forall (λ i, Spec.known i = true) comps →
  ∀ (f : nat → nat) ns k,
  ∃ new,
    fold_left (node_step token layer) (imap (λ i c, (f i, c)) comps) (ns, k)
    = (ns ++ new, k + length new)
    ∧ map Spec.node_placement new
      = imap (λ i c, (c, calculate_node_position layer (f i))) comps.
Proof.
  induction 1 as [|c comps Hc _ IH]; intros f ns k; cbn [imap fold_left].
  - loop_done.
  - unfold node_step at 2.
    destruct (create_node_known c (calculate_node_position layer (f 0)) k Hc)
      as (n & Hn & Hp).
    rewrite Hn.
    destruct (IH (f ∘ S) (ns ++ [n]) (S k)) as (new & Hf & Hm).
    exists (n :: new). split.
    + etrans; [exact Hf|]. rewrite <- app_assoc. simpl. rewrite Nat.add_succ_r.
      reflexivity.
    + cbn [map]. rewrite Hp. f_equal. exact Hm.
Qed.

Lemma layer_ids_known (ids : list string) (l : Z) :
  Forall (λ i, Spec.known i = true) (filter (λ i, Spec.layer_of i = Some l) ids).
Proof.
  apply Forall_forall. intros i Hi. apply list_elem_of_filter in Hi as [Hi _].
  apply known_layer_of. rewrite Hi. eexists. reflexivity.
Qed.

Lemma place_loop (ids : list string) (keys : list Z) (ns : list Node) (k : nat) :
  ∃ new,
    fold_left (place_layer token (fold_left layer_step ids ∅)) keys (ns, k)
    = (ns ++ new, k + length new)
    ∧ map Spec.node_placement new
      = keys ≫= (λ l, Spec.layer_placements l (filter (λ i, Spec.layer_of i = Some l) ids)).
Proof.
  revert ns k. induction keys as [|l keys IH]; intros ns k; cbn [fold_left].
  - loop_done.
  - unfold place_layer at 2. rewrite layers_lookup. unfold Py.enumerate.
    destruct (layer_loop l _ (layer_ids_known ids l) (λ i, i) ns k) as (new1 & Hf1 & Hm1).
    rewrite Hf1.
    destruct (IH (ns ++ new1) (k + length new1)) as (new2 & Hf2 & Hm2).
    exists (new1 ++ new2). rewrite Hf2, <- app_assoc, length_app, Nat.add_assoc.
    split; [reflexivity|].
    rewrite map_app, Hm1, Hm2, bind_cons. reflexivity.
Qed.

(** The nodes of [generate_architecture_from_components], without
    their identifiers: layer by layer in increasing order, the
    identifiers of the layer in input order, at successive indexes. *)
Lemma generate_placements (ids : list string) (scope : Scope) (k : nat) :
  map Spec.node_placement (nodes (generate_architecture_from_components token ids scope k))
  = sorted_keys (fold_left layer_step ids ∅)
      ≫= (λ l, Spec.layer_placements l (filter (λ i, Spec.layer_of i = Some l) ids)).
Proof.
  unfold generate_architecture_from_components.
  destruct (place_loop ids (sorted_keys (fold_left layer_step ids ∅)) [] k)
    as (new & Hf & Hm).
  rewrite Hf. destruct (generate_edges _ _ _). exact Hm.
Qed.

Lemma sorted_keys_elem (m : gmap Z (list string)) (l : Z) :
  l ∈ sorted_keys m ↔ is_Some (m !! l).
Proof.
  unfold sorted_keys. rewrite merge_sort_Permutation, list_elem_of_fmap. split.
  - intros ([l' x] & -> & H). apply elem_of_map_to_list in H. exists x. exact H.
  - intros [x H]. exists (l, x). split; [reflexivity|]. apply elem_of_map_to_list, H.
Qed.

Lemma sorted_keys_NoDup (m : gmap Z (list string)) : NoDup (sorted_keys m).
Proof.
  unfold sorted_keys. rewrite merge_sort_Permutation. apply NoDup_fst_map_to_list.
Qed.

Lemma bind_ext_in {A B} (f g : A → list B) (l : list A) :
  (∀ a, a ∈ l → f a = g a) → l ≫= f = l ≫= g.
Proof.
  induction l as [|a l IH]; intros E; [reflexivity|].
  rewrite !bind_cons, IH, (E a); [reflexivity|left|].
  intros b Hb. apply E. right. exact Hb.
Qed.

(** Grouping a list by a partial key and concatenating the groups of
    distinct keys that cover the list rearranges the keyed elements. *)
Lemma bind_filter_partition {A K} `{EqDecision K} (f : A → option K)
    (keys : list K) (l : list A) :
  NoDup keys →
  (∀ a k, a ∈ l → f a = Some k → k ∈ keys) →
  keys ≫= (λ k, filter (λ a, f a = Some k) l) ≡ₚ filter (λ a, is_Some (f a)) l.
Proof.
  intros Hnd. induction l as [|a l IH]; intros Hcov.
  - clear. induction keys as [|k keys IH]; [reflexivity|]. rewrite bind_cons. exact IH.
  - assert (IH' : keys ≫= (λ k, filter (λ a, f a = Some k) l)
                  ≡ₚ filter (λ a, is_Some (f a)) l).
    { apply IH. intros b k Hb. apply Hcov. right. exact Hb. }
    destruct (f a) as [k0|] eqn:Hfa.
    + rewrite (filter_cons_True _ a l) by (rewrite Hfa; eexists; reflexivity).
      rewrite <- IH'.
      assert (Hk0 : k0 ∈ keys) by (apply (Hcov a); [left|exact Hfa]).
      destruct (list_elem_of_split _ _ Hk0) as (k1 & k2 & ->).
      apply NoDup_app in Hnd as (_ & H1 & H2). apply NoDup_cons in H2 as [H2 _].
      rewrite !bind_app, !bind_cons.
      rewrite (filter_cons_True _ a l) by exact Hfa.
      rewrite (bind_ext_in (λ k, filter (λ a, f a = Some k) (a :: l))
                           (λ k, filter (λ a, f a = Some k) l) k1).
      2:{ intros k Hk. apply filter_cons_False. rewrite Hfa. intros E.
          injection E as ->. apply (H1 k Hk). left. }
      rewrite (bind_ext_in (λ k, filter (λ a, f a = Some k) (a :: l))
                           (λ k, filter (λ a, f a = Some k) l) k2).
      2:{ intros k Hk. apply filter_cons_False. rewrite Hfa. intros E.
          injection E as ->. exact (H2 Hk). }
      symmetry. apply Permutation_middle.
    + rewrite (filter_cons_False _ a l) by (rewrite Hfa; intros [? E]; discriminate E).
      rewrite <- IH'.
      rewrite (bind_ext_in (λ k, filter (λ a, f a = Some k) (a :: l))
                           (λ k, filter (λ a, f a = Some k) l) keys); [reflexivity|].
      intros k _. apply filter_cons_False. rewrite Hfa. discriminate.
Qed.

Lemma fst_layer_placements (l : Z) (comps : list string) :
  map fst (Spec.layer_placements l comps) = comps.
Proof.
  unfold Spec.layer_placements. generalize (calculate_node_position l). intros g.
  revert g. induction comps as [|c comps IH]; intros g; [reflexivity|].
  cbn [imap map fst]. f_equal. apply (IH (g ∘ S)).
Qed.

(** Every resolvable occurrence of an identifier yields its own node. *)
Lemma generate_components (ids : list string) (scope : Scope) (k : nat) :
  map (λ n, componentId (data n))
      (nodes (generate_architecture_from_components token ids scope k))
  ≡ₚ filter (λ i, Spec.known i = true) ids.
Proof.
  transitivity (map fst (map Spec.node_placement
                  (nodes (generate_architecture_from_components token ids scope k)))).
  { rewrite map_map. reflexivity. }
  rewrite generate_placements.
  transitivity (sorted_keys (fold_left layer_step ids ∅)
                  ≫= (λ l, filter (λ i, Spec.layer_of i = Some l) ids)).
  { generalize (sorted_keys (fold_left layer_step ids ∅)). intros keys.
    induction keys as [|l keys IH]; [reflexivity|].
    rewrite !bind_cons, map_app, fst_layer_placements, IH. reflexivity. }
  rewrite bind_filter_partition.
  - induction ids as [|i ids IH]; [reflexivity|].
    destruct (Spec.known i) eqn:Hk.
    + rewrite !filter_cons_True; [rewrite IH; reflexivity|exact Hk|].
      apply known_layer_of, Hk.
    + rewrite !filter_cons_False; [exact IH|congruence|].
      rewrite known_layer_of. congruence.
  - apply sorted_keys_NoDup.
  - intros i l Hi Hl. apply sorted_keys_elem.
    rewrite layer_fold_lookup, lookup_empty.
    destruct (filter (λ i, Spec.layer_of i = Some l) ids) as [|x f] eqn:Hf.
    + exfalso. apply (filter_nil_not_elem_of _ _ i Hf Hl Hi).
    + eexists. reflexivity.
Qed.

(** C1: for [nextjs; fastapi; postgresql] and the scope users=1000,
    trafficLevel=3, dataVolumeGB=100, regions=1, availability=99.9,
    exactly three nodes are produced, in layers 0, 2 and 3, at
    (100,100), (700,100) and (1000,100); there is an edge from the frontend node to the backend
    node and one from the backend node to the database node; and the
    breakdown entry of postgresql has scaledCost 62.3, which is
    25 * 1.0 * 2.0 * 1.0 * 1.2 + 100 * 0.023. *)
Theorem C1_worked_example (k : nat) :
  ∃ fe be db cost pg,
    let a := generate_architecture_from_components token
               ["nextjs"; "fastapi"; "postgresql"] Sample.sample_scope k in
    nodes a = [fe; be; db]
    ∧ map Spec.layer_of ["nextjs"; "fastapi"; "postgresql"]
      = [Some 0%Z; Some 2%Z; Some 3%Z]
    ∧ map Spec.node_placement [fe; be; db]
      = [ ("nextjs", {| x := 100%Q; y := 100%Q |});
          ("fastapi", {| x := 700%Q; y := 100%Q |});
          ("postgresql", {| x := 1000%Q; y := 100%Q |}) ]
    ∧ map (λ n, category (data n)) [fe; be; db] = ["frontend"; "backend"; "database"]
    ∧ (∃ e, e ∈ edges a ∧ source e = node_id fe ∧ target e = node_id be)
    ∧ (∃ e, e ∈ edges a ∧ source e = node_id be ∧ target e = node_id db)
    ∧ costEstimate a = Some cost
    ∧ pg ∈ breakdown cost
    ∧ cb_componentId pg = "postgresql"
    ∧ scaledCost pg = 62.3%Q
    ∧ (25 * 1.0 * 2.0 * 1.0 * 1.2 + 100 * 0.023 == 62.3)%Q.
Proof.
  remember (generate_architecture_from_components token
              ["nextjs"; "fastapi"; "postgresql"] Sample.sample_scope k) as a eqn:Ha.
  vm_compute in Ha.
  destruct a as [ns es sc ce ts]. injection Ha as -> -> _ -> _.
  eexists _, _, _, _, _. cbn zeta. cbn [nodes edges costEstimate].
  split; [reflexivity|]. split; [reflexivity|]. split; [reflexivity|].
  split; [reflexivity|].
  split; [eexists; split; [apply list_elem_of_here|split; reflexivity]|].
  split; [eexists; split;
          [apply list_elem_of_further, list_elem_of_further, list_elem_of_here
          |split; reflexivity]|].
  split; [reflexivity|]. cbn [breakdown].
  split; [apply list_elem_of_further, list_elem_of_further, list_elem_of_here|].
  split; [reflexivity|]. split; reflexivity.
Qed.

Lemma layer_step_unknown (m : gmap Z (list string)) (bad : string) :
  Spec.known bad = false → layer_step m bad = m.
Proof.
  unfold Spec.known, layer_step. intros H. apply bool_decide_eq_false_1 in H.
  destruct (get_component_by_id bad); [|reflexivity].
  exfalso. apply H. eexists. reflexivity.
Qed.

Lemma cost_step_unknown scope st (bad : string) :
  Spec.known bad = false → CostCalculator.cost_step scope st bad = st.
Proof.
  unfold Spec.known, CostCalculator.cost_step. intros H.
  apply bool_decide_eq_false_1 in H. destruct st as [bd t].
  destruct (get_component_by_id bad); [|reflexivity].
  exfalso. apply H. eexists. reflexivity.
Qed.

(** C4: unresolvable identifiers are skipped.  Every node and every
    breakdown entry belongs to a component of the catalog; an
    unresolvable identifier anywhere in the input changes neither the
    architecture nor the cost estimate; and for the empty list the
    nodes and edges are empty and the cost total is 0.  (Both
    functions are total: no input raises.) *)
Theorem C4_unknown_ids_skipped (ids : list string) (scope : Scope) (k : nat) :
  let a := generate_architecture_from_components token ids scope k in
  let cost := CostCalculator.calculate_architecture_cost ids scope in
  Forall (λ n, Spec.known (componentId (data n)) = true) (nodes a)
  ∧ Forall (λ e, Spec.known (cb_componentId e) = true) (breakdown cost)
  ∧ costEstimate a = Some cost
  ∧ (∀ l1 bad l2,
       Spec.known bad = false →
       generate_architecture_from_components token (l1 ++ bad :: l2) scope k
       = generate_architecture_from_components token (l1 ++ l2) scope k
       ∧ CostCalculator.calculate_architecture_cost (l1 ++ bad :: l2) scope
         = CostCalculator.calculate_architecture_cost (l1 ++ l2) scope)
  ∧ nodes (generate_architecture_from_components token [] scope k) = []
  ∧ edges (generate_architecture_from_components token [] scope k) = []
  ∧ total <$> costEstimate (generate_architecture_from_components token [] scope k)
    = Some 0%Q.
Proof.
  intros a cost. split; [|split; [|split; [|split]]].
  - apply Forall_forall. intros n Hn.
    assert (H : componentId (data n) ∈ filter (λ i, Spec.known i = true) ids).
    { rewrite <- (generate_components ids scope k).
      apply (list_elem_of_fmap_2 (λ n, componentId (data n))), Hn. }
    apply list_elem_of_filter in H as [H _]. exact H.
  - subst cost. unfold CostCalculator.calculate_architecture_cost.
    destruct (cost_loop scope ids [] 0.0%Q) as (new & Hfold & Hall & _).
    rewrite Hfold. cbn [app breakdown].
    eapply Forall_impl; [exact Hall|]. intros e [He _]. exact He.
  - subst a cost. unfold generate_architecture_from_components.
    destruct (fold_left (place_layer token _) _ _) as [ns k1].
    destruct (generate_edges token ns k1) as [es k2].
    destruct (CostCalculator.calculate_architecture_cost ids scope). reflexivity.
  - intros l1 bad l2 Hbad.
    assert (Hc : CostCalculator.calculate_architecture_cost (l1 ++ bad :: l2) scope
                 = CostCalculator.calculate_architecture_cost (l1 ++ l2) scope).
    { unfold CostCalculator.calculate_architecture_cost.
      rewrite !fold_left_app. cbn [fold_left].
      rewrite cost_step_unknown by exact Hbad. reflexivity. }
    split; [|exact Hc].
    unfold generate_architecture_from_components.
    rewrite Hc, !fold_left_app. cbn [fold_left].
    rewrite layer_step_unknown by exact Hbad. reflexivity.
  - repeat split.
Qed.

Lemma NoDup_only {A} (l : list A) (a : A) :
  NoDup l → (∀ x, x ∈ l ↔ x = a) → l = [a].
Proof.
intros Hnd H. destruct l as [|x l].
- exfalso. apply (not_elem_of_nil a), H. reflexivity.
- assert (x = a) as -> by (apply H; left).
  destruct l as [|y l]; [reflexivity|].
  assert (y = a) as -> by (apply H; right; left).
  apply NoDup_cons in Hnd as [Hnot _]. exfalso. apply Hnot. left.
Qed.

(** Copies of one identifier are placed in its layer, one below the
    other. *)
Lemma generate_copies (i : string) (l : Z) (n : nat) (scope : Scope) (k : nat) :
  Spec.layer_of i = Some l →
  map Spec.node_placement
      (nodes (generate_architecture_from_components token (replicate n i) scope k))
  = Spec.layer_placements l (replicate n i).
Proof.
intros Hl. rewrite generate_placements.
assert (Hfilter : ∀ l', filter (λ j, Spec.layer_of j = Some l') (replicate n i)
                        = if decide (l' = l) then replicate n i else []).
{ intros l'. induction n as [|n IH]; [destruct (decide (l' = l)); reflexivity|].
  cbn [replicate]. destruct (decide (l' = l)) as [->|Hne].
  - rewrite filter_cons_True by exact Hl. rewrite IH. reflexivity.
  - rewrite filter_cons_False by congruence. exact IH. }
destruct n as [|n].
- reflexivity.
- rewrite (NoDup_only (sorted_keys (fold_left layer_step (replicate (S n) i) ∅)) l).
  + rewrite bind_cons. csimpl. rewrite app_nil_r, Hfilter, decide_True by reflexivity.
    reflexivity.
  + apply sorted_keys_NoDup.
  + intros l'. rewrite sorted_keys_elem, layer_fold_lookup, lookup_empty, Hfilter.
    destruct (decide (l' = l)) as [->|Hne]; cbn [replicate].
    * split; [reflexivity|]. intros _. eexists. reflexivity.
    * split; [intros [? H]; discriminate H|]. intros E. contradiction.
Qed.

Lemma fmap_bind_comm {A B C} (f : B → C) (g : A → list B) (l : list A) :
  f <$> (l ≫= g) = l ≫= (λ a, f <$> g a).
Proof.
  induction l as [|a l IH]; [reflexivity|].
  rewrite !bind_cons, fmap_app, IH. reflexivity.
Qed.

Lemma generate_positions (ids : list string) (scope : Scope) (k : nat) :
  map position (nodes (generate_architecture_from_components token ids scope k))
  = sorted_keys (fold_left layer_step ids ∅)
      ≫= (λ l, imap (λ i _, calculate_node_position l i)
                    (filter (λ i, Spec.layer_of i = Some l) ids)).
Proof.
  transitivity (map snd (map Spec.node_placement
                  (nodes (generate_architecture_from_components token ids scope k)))).
  { rewrite map_map. reflexivity. }
  rewrite generate_placements.
  change (map snd ?l) with (snd <$> l). rewrite fmap_bind_comm.
  apply bind_ext_in. intros l _. unfold Spec.layer_placements.
  rewrite fmap_imap. reflexivity.
Qed.

(** A layer is among the keys exactly when an input identifier has it. *)
Lemma sorted_keys_layers (ids : list string) (l : Z) :
  l ∈ sorted_keys (fold_left layer_step ids ∅)
  ↔ filter (λ i, Spec.layer_of i = Some l) ids ≠ [].
Proof.
  rewrite sorted_keys_elem, layer_fold_lookup, lookup_empty.
  destruct (filter _ ids) as [|i f].
  - split; [intros [? H]; discriminate H|]. intros H. contradiction.
  - split; [discriminate|]. intros _. eexists. reflexivity.
Qed.

(** The layers, in increasing order, do not depend on the order of the
    input. *)
Lemma sorted_keys_perm (ids ids' : list string) :
  ids ≡ₚ ids' →
  sorted_keys (fold_left layer_step ids ∅) = sorted_keys (fold_left layer_step ids' ∅).
Proof.
  intros Hp. apply (StronglySorted_unique Z.le).
  - unfold sorted_keys. apply StronglySorted_merge_sort; apply _.
  - unfold sorted_keys. apply StronglySorted_merge_sort; apply _.
  - apply NoDup_Permutation; [apply sorted_keys_NoDup|apply sorted_keys_NoDup|].
    intros l. rewrite !sorted_keys_layers.
    assert (Hf : filter (λ i, Spec.layer_of i = Some l) ids
                 ≡ₚ filter (λ i, Spec.layer_of i = Some l) ids') by (rewrite Hp; reflexivity).
    split; intros Hne E; apply Hne.
    + rewrite E in Hf. apply Permutation_nil_r in Hf. exact Hf.
    + rewrite E in Hf. symmetry in Hf. apply Permutation_nil_r in Hf. exact Hf.
Qed.

Lemma imap_length_only {A B} (g : nat → B) (l l' : list A) :
  length l = length l' → imap (λ i _, g i) l = imap (λ i _, g i) l'.
Proof.
  revert g l'. induction l as [|a l IH]; intros g [|a' l'] E; try discriminate E.
  - reflexivity.
  - cbn [imap]. f_equal. apply (IH (g ∘ S)). injection E as E. exact E.
Qed.

(** The list of positions does not depend on the order of the input. *)
Lemma positions_perm (ids ids' : list string) (scope : Scope) (k : nat) :
  ids ≡ₚ ids' →
  map position (nodes (generate_architecture_from_components token ids' scope k))
  = map position (nodes (generate_architecture_from_components token ids scope k)).
Proof.
  intros Hp. rewrite !generate_positions, (sorted_keys_perm ids ids' Hp).
  apply bind_ext_in. intros l _. apply imap_length_only.
  apply Permutation_length. rewrite Hp. reflexivity.
Qed.

Lemma filter_all {A} (P : A → Prop) `{∀ x, Decision (P x)} (l : list A) :
  Forall P l → filter P l = l.
Proof.
  induction 1 as [|a l Ha _ IH]; [reflexivity|].
  rewrite filter_cons_True by exact Ha. rewrite IH. reflexivity.
Qed.

Lemma filter_nothing {A} (P : A → Prop) `{∀ x, Decision (P x)} (l : list A) :
  Forall (λ a, ¬ P a) l → filter P l = [].
Proof.
  induction 1 as [|a l Ha _ IH]; [reflexivity|].
  rewrite filter_cons_False by exact Ha. exact IH.
Qed.

Lemma layer_placements_layer (l : Z) (ids : list string) :
  Forall (λ p : Spec.placement, Spec.layer_of p.1 = Some l)
         (Spec.layer_placements l (filter (λ i, Spec.layer_of i = Some l) ids)).
Proof.
  apply Forall_forall. intros p Hp.
  assert (Hfst : p.1 ∈ filter (λ i, Spec.layer_of i = Some l) ids).
  { rewrite <- (fst_layer_placements l (filter _ ids)).
    apply (list_elem_of_fmap_2 fst), Hp. }
  apply list_elem_of_filter in Hfst as [Hl _]. exact Hl.
Qed.

(** Restricted to one layer, the nodes are the resolvable input
    identifiers of that layer in input order, at the indexes 0, 1, 2,
    ... of the layer. *)
Lemma layer_restriction (ids : list string) (scope : Scope) (k : nat) (l : Z) :
  filter (λ p : Spec.placement, Spec.layer_of p.1 = Some l)
         (map Spec.node_placement
              (nodes (generate_architecture_from_components token ids scope k)))
  = Spec.layer_placements l (filter (λ i, Spec.layer_of i = Some l) ids).
Proof.
  rewrite generate_placements.
  pose proof (sorted_keys_NoDup (fold_left layer_step ids ∅)) as Hnd.
  pose proof (sorted_keys_layers ids l) as Hin.
  revert Hnd Hin. generalize (sorted_keys (fold_left layer_step ids ∅)). intros keys.
  set (F := λ l' : Z, Spec.layer_placements l'
                        (filter (λ i, Spec.layer_of i = Some l') ids)).
  intros Hnd Hin.
  assert (Hgoal : filter (λ p : Spec.placement, Spec.layer_of p.1 = Some l) (keys ≫= F)
                  = if decide (l ∈ keys) then F l else []).
  { clear Hin. induction keys as [|l' keys IH]; [reflexivity|].
    apply NoDup_cons in Hnd as [Hl' Hnd].
    rewrite bind_cons, filter_app, (IH Hnd).
    destruct (decide (l' = l)) as [->|Hne].
    - rewrite (filter_all _ (F l)) by apply layer_placements_layer.
      rewrite (decide_False (P := l ∈ keys)) by exact Hl'.
      rewrite decide_True by left.
      apply app_nil_r.
    - rewrite (filter_nothing _ (F l')).
      2:{ eapply Forall_impl; [apply layer_placements_layer|].
          intros p Hp E. rewrite Hp in E. injection E as E. contradiction. }
      cbn [app]. destruct (decide (l ∈ keys)) as [Hk|Hk].
      + rewrite decide_True by (right; exact Hk). reflexivity.
      + rewrite decide_False; [reflexivity|].
        intros Hc. apply elem_of_cons in Hc as [->|Hc]; contradiction. }
  rewrite Hgoal. destruct (decide (l ∈ keys)) as [Hk|Hk]; [reflexivity|].
  unfold F. destruct (filter (λ i, Spec.layer_of i = Some l) ids) as [|i f] eqn:E;
    [reflexivity|].
  exfalso. apply Hk, Hin. discriminate.
Qed.

Lemma filter_fmap_length {A B} `{EqDecision B} (f : A → B) (b : B) (l : list A) :
  length (filter (λ y, y = b) (map f l)) = length (filter (λ a, f a = b) l).
Proof.
  induction l as [|a l IH]; [reflexivity|]. cbn [map].
  destruct (decide (f a = b)) as [E|E].
  - rewrite !filter_cons_True by exact E. cbn [length]. rewrite IH. reflexivity.
  - rewrite !filter_cons_False by exact E. exact IH.
Qed.

(** An identifier passed [n] times yields [n] nodes. *)
Lemma generate_count (ids : list string) (scope : Scope) (k : nat) (i : string) :
  Spec.known i = true →
  length (filter (λ n, componentId (data n) = i)
                 (nodes (generate_architecture_from_components token ids scope k)))
  = length (filter (λ j, j = i) ids).
Proof.
  intros Hi. rewrite <- (filter_fmap_length (λ n, componentId (data n)) i).
  rewrite (generate_components ids scope k).
  induction ids as [|j ids IH]; [reflexivity|].
  destruct (decide (j = i)) as [->|Hne].
  - rewrite (filter_cons_True (λ i, Spec.known i = true)) by exact Hi.
    rewrite !filter_cons_True by reflexivity. cbn [length]. rewrite IH. reflexivity.
  - rewrite (filter_cons_False (λ j, j = i)) by exact Hne.
    destruct (Spec.known j) eqn:Hj.
    + rewrite (filter_cons_True (λ i, Spec.known i = true)) by exact Hj.
      rewrite filter_cons_False by exact Hne. exact IH.
    + rewrite (filter_cons_False (λ i, Spec.known i = true)) by (rewrite Hj; discriminate).
      exact IH.
Qed.

(** Identifiers of one layer, passed alone, fill that layer in input
    order. *)
Lemma generate_one_layer (ids : list string) (l : Z) (scope : Scope) (k : nat) :
  Forall (λ i, Spec.layer_of i = Some l) ids →
  map Spec.node_placement (nodes (generate_architecture_from_components token ids scope k))
  = Spec.layer_placements l ids.
Proof.
  intros Hall. rewrite <- (filter_all _ ids Hall) at 2.
  rewrite <- layer_restriction with (scope := scope) (k := k).
  symmetry. apply filter_all.
  apply Forall_forall. intros p Hp.
  assert (Hfst : p.1 ∈ filter (λ i, Spec.known i = true) ids).
  { rewrite <- (generate_components ids scope k).
    apply list_elem_of_fmap in Hp as (n & -> & Hn).
    apply (list_elem_of_fmap_2 (λ n, componentId (data n))), Hn. }
  apply list_elem_of_filter in Hfst as [_ Hin].
  rewrite Forall_forall in Hall. apply Hall, Hin.
Qed.

(** C7 (as amended): duplicates are kept.  Every resolvable occurrence
    of an identifier yields its own node, so the components of the
    nodes are a rearrangement of the resolvable input identifiers and
    an identifier passed [n] times yields [n] nodes.  Within a layer
    the nodes are the layer's resolvable input identifiers in input
    order, at the indexes 0, 1, 2, ... of the layer; [n] copies passed
    alone sit at the indexes 0 .. n-1.  Reordering the input keeps the
    multiset of node components and the list of node positions, but
    not which component sits at which position: two different
    identifiers of one layer, passed alone, exchange their positions
    when they are exchanged in the input. *)
Theorem C7_duplicates_kept (ids : list string) (scope : Scope) (k : nat) :
  map (λ n, componentId (data n))
      (nodes (generate_architecture_from_components token ids scope k))
  ≡ₚ filter (λ i, Spec.known i = true) ids
  ∧ length (nodes (generate_architecture_from_components token ids scope k))
    = length (filter (λ i, Spec.known i = true) ids)
  ∧ (∀ i, Spec.known i = true →
          length (filter (λ n, componentId (data n) = i)
                         (nodes (generate_architecture_from_components token ids scope k)))
          = length (filter (λ j, j = i) ids))
  ∧ (∀ l, filter (λ p : Spec.placement, Spec.layer_of p.1 = Some l)
                 (map Spec.node_placement
                      (nodes (generate_architecture_from_components token ids scope k)))
          = imap (λ idx c, (c, calculate_node_position l idx))
                 (filter (λ i, Spec.layer_of i = Some l) ids))
  ∧ (∀ i l n, Spec.layer_of i = Some l →
              map Spec.node_placement
                  (nodes (generate_architecture_from_components token
                            (replicate n i) scope k))
              = imap (λ idx c, (c, calculate_node_position l idx)) (replicate n i)
              ∧ length (nodes (generate_architecture_from_components token
                                 (replicate n i) scope k)) = n)
  ∧ (∀ ids', ids ≡ₚ ids' →
             map (λ n, componentId (data n))
                 (nodes (generate_architecture_from_components token ids' scope k))
             ≡ₚ map (λ n, componentId (data n))
                    (nodes (generate_architecture_from_components token ids scope k))
             ∧ map position
                   (nodes (generate_architecture_from_components token ids' scope k))
               = map position
                     (nodes (generate_architecture_from_components token ids scope k)))
  ∧ (∀ i j l, i ≠ j → Spec.layer_of i = Some l → Spec.layer_of j = Some l →
              map Spec.node_placement
                  (nodes (generate_architecture_from_components token [i; j] scope k))
              = [ (i, calculate_node_position l 0); (j, calculate_node_position l 1) ]
              ∧ map Spec.node_placement
                    (nodes (generate_architecture_from_components token [j; i] scope k))
                = [ (j, calculate_node_position l 0); (i, calculate_node_position l 1) ]
              ∧ map Spec.node_placement
                    (nodes (generate_architecture_from_components token [i; j] scope k))
                ≠ map Spec.node_placement
                      (nodes (generate_architecture_from_components token [j; i] scope k))).
Proof.
split; [apply generate_components|]. split.
{ rewrite <- (generate_components ids scope k), length_map. reflexivity. }
split; [intros i Hi; apply generate_count, Hi|].
split; [intros l; apply layer_restriction|].
split.
- intros i l n Hl. pose proof (generate_copies i l n scope k Hl) as Hc.
  split; [exact Hc|].
  apply (f_equal length) in Hc.
  rewrite length_map in Hc. rewrite Hc. unfold Spec.layer_placements.
  rewrite length_imap, length_replicate. reflexivity.
- split.
  + intros ids' Hp. split; [|apply positions_perm, Hp].
    rewrite !generate_components, Hp. reflexivity.
  + intros i j l Hne Hi Hj.
    assert (H1 : map Spec.node_placement
                   (nodes (generate_architecture_from_components token [i; j] scope k))
                 = [ (i, calculate_node_position l 0); (j, calculate_node_position l 1) ]).
    { rewrite (generate_one_layer [i; j] l); [reflexivity|]. repeat constructor; assumption. }
    assert (H2 : map Spec.node_placement
                   (nodes (generate_architecture_from_components token [j; i] scope k))
                 = [ (j, calculate_node_position l 0); (i, calculate_node_position l 1) ]).
    { rewrite (generate_one_layer [j; i] l); [reflexivity|]. repeat constructor; assumption. }
    split; [exact H1|]. split; [exact H2|].
    rewrite H1, H2. intros E. injection E as E _. contradiction.
Qed.

End GenerateFacts.

(** ** The scope type *)

Section ScopeFacts.
Import Models.

(** C8 (as amended): every field of [Scope] has a default (users 1000,
    trafficLevel 3, dataVolumeGB 100.0, regions 1, availability 99.9),
    used when the caller omits the field; a supplied value is kept.
    The only requirement is that a supplied trafficLevel lies in
    1..5: the constructor accepts exactly the arguments that meet it,
    and rejects a supplied trafficLevel outside 1..5 whatever the
    other fields are. *)
Theorem C8_scope_defaults (a : ScopeArgs) :
  (is_Some (Scope_new a) ↔ ∀ t, arg_trafficLevel a = Some t → (1 <= t <= 5)%Z)
  ∧ (∀ t, arg_trafficLevel a = Some t → ¬ (1 <= t <= 5)%Z → Scope_new a = None)
  ∧ ((∀ t, arg_trafficLevel a = Some t → (1 <= t <= 5)%Z) →
     ∃ s, Scope_new a = Some s
          ∧ users s = default 1000%Z (arg_users a)
          ∧ trafficLevel s = default 3%Z (arg_trafficLevel a)
          ∧ dataVolumeGB s = default 100%Q (arg_dataVolumeGB a)
          ∧ regions s = default 1%Z (arg_regions a)
          ∧ availability s = default 99.9%Q (arg_availability a)).
Proof.
  assert (Hacc : (∀ t, arg_trafficLevel a = Some t → (1 <= t <= 5)%Z) →
                 ∃ s, Scope_new a = Some s
                      ∧ users s = default 1000%Z (arg_users a)
                      ∧ trafficLevel s = default 3%Z (arg_trafficLevel a)
                      ∧ dataVolumeGB s = default 100%Q (arg_dataVolumeGB a)
                      ∧ regions s = default 1%Z (arg_regions a)
                      ∧ availability s = default 99.9%Q (arg_availability a)).
  { intros Ht. unfold Scope_new.
    assert (Hr : (1 <= default 3 (arg_trafficLevel a) <= 5)%Z).
    { destruct (arg_trafficLevel a) as [t|]; [apply Ht; reflexivity|simpl; lia]. }
    destruct Hr as [H1 H5].
    apply Z.leb_le in H1, H5. rewrite H1, H5. cbn [andb].
    eexists. repeat split. }
  assert (Hrej : ∀ t, arg_trafficLevel a = Some t → ¬ (1 <= t <= 5)%Z → Scope_new a = None).
  { intros t Ht Hout. unfold Scope_new. rewrite Ht. cbn [default from_option id].
    destruct ((1 <=? t)%Z && (t <=? 5)%Z) eqn:E; [|reflexivity].
    apply andb_true_iff in E as [H1 H5]. apply Z.leb_le in H1, H5.
    exfalso. apply Hout. split; assumption. }
  split; [|split; [exact Hrej|exact Hacc]].
  split.
  - intros [s Hs] t Ht.
    destruct (decide (1 <= t <= 5)%Z) as [Hin|Hout]; [exact Hin|].
    rewrite (Hrej t Ht Hout) in Hs. discriminate Hs.
  - intros Ht. destruct (Hacc Ht) as (s & Hs & _). exists s. exact Hs.
Qed.

Lemma C8_scope_defaults_witness :
  (∃ s, Scope_new (mkScopeArgs (Some 50%Z) (Some 5%Z) None (Some 2%Z) None) = Some s
        ∧ users s = 50%Z
        ∧ trafficLevel s = 5%Z
        ∧ dataVolumeGB s = 100%Q
        ∧ regions s = 2%Z
        ∧ availability s = 99.9%Q)
  ∧ Scope_new (mkScopeArgs (Some 50%Z) (Some 6%Z) None (Some 2%Z) None) = None.
Proof.
  split.
  - apply (proj2 (proj2
             (C8_scope_defaults (mkScopeArgs (Some 50%Z) (Some 5%Z) None (Some 2%Z) None)))).
    intros t Ht. injection Ht as <-. lia.
  - apply (proj1 (proj2
             (C8_scope_defaults (mkScopeArgs (Some 50%Z) (Some 6%Z) None (Some 2%Z) None)))
             6%Z); [reflexivity|lia].
Defined.

(** The claim as written fails: a scope built from no arguments at all
    is accepted and carries the five defaults, so the type does not
    require the caller to supply every field. *)
Lemma C8_scope_requires_all_fields_counterexample :
  Scope_new (mkScopeArgs None None None None None)
  = Some (mkScope 1000 3 100%Q 1 99.9%Q)
  ∧ ¬ (∀ a, is_Some (Scope_new a) →
            is_Some (arg_users a) ∧ is_Some (arg_trafficLevel a)
            ∧ is_Some (arg_dataVolumeGB a) ∧ is_Some (arg_regions a)
            ∧ is_Some (arg_availability a)).
Proof.
  split; [reflexivity|].
  intros H. destruct (H (mkScopeArgs None None None None None)) as [[u Hu] _].
  - eexists. reflexivity.
  - discriminate Hu.
Qed.

End ScopeFacts.

(** ** The carbon model *)

Section CarbonFacts.
Import Models CarbonService.
Local Open Scope Q_scope.

Variable log10 : Z → Q.
Variable calculate_costs_total : list Node → Scope → Q.
Variable uuid4 : string.
Variable utcnow : Z.

Lemma max_lower (a b : Q) : b <= Py.max a b.
Proof.
  unfold Py.max. destruct (Qcompare_spec a b) as [E|L|G].
  - rewrite E. apply Qle_refl.
  - apply Qle_refl.
  - apply Qlt_le_weak, G.
Qed.

Lemma max_upper (a b : Q) : a <= Py.max a b.
Proof.
  unfold Py.max. destruct (Qcompare_spec a b) as [E|L|G].
  - apply Qle_refl.
  - apply Qlt_le_weak, L.
  - apply Qle_refl.
Qed.

Lemma power_draw_lower (c : string) : 5 <= Py.dict_get COMPONENT_POWER_DRAW c 30.0.
Proof.
  unfold Py.dict_get, COMPONENT_POWER_DRAW. cbn [List.find fst snd].
  repeat (case_bool_decide; [cbn [snd]; unfold Qle; simpl; lia|]).
  cbn [snd]. unfold Qle; simpl; lia.
Qed.

Lemma Qmult_lower (a b x y : Q) : 0 <= a → 0 <= b → a <= x → b <= y → a * b <= x * y.
Proof.
  intros Ha Hb Hx Hy. apply Qle_trans with (x * b).
  - apply Qmult_le_compat_r; assumption.
  - rewrite (Qmult_comm x b), (Qmult_comm x y).
    apply Qmult_le_compat_r; [assumption|]. apply Qle_trans with a; assumption.
Qed.

Lemma div_1000 (q : Q) : q / 1000.0 == q * (1 # 1000).
Proof. field. Qed.

(** Every node draws energy: at least 5 W * 0.5 * 0.5, for 730 h. *)
Lemma node_energy_lower (tm um : Q) (n : Node) :
  1 # 3 <= tm → 9 # 10 <= Spec.node_energy tm um n.
Proof.
  intros Htm. unfold Spec.node_energy.
  pose proof (power_draw_lower (category (data n))) as Hp.
  pose proof (max_lower tm 0.5) as Ha. pose proof (max_lower um 0.5) as Hb.
  pose proof (max_upper tm 0.5) as Ha'.
  set (p := Py.dict_get COMPONENT_POWER_DRAW (category (data n)) 30.0) in *.
  set (a := Py.max tm 0.5) in *. set (b := Py.max um 0.5) in *.
  assert (Hpa : 5 * 0.5 <= p * a) by (apply Qmult_lower; lra).
  assert (Hpab : 5 * 0.5 * 0.5 <= p * a * b) by (apply Qmult_lower; lra).
  rewrite div_1000.
  case_bool_decide as Hml.
  - assert (H300 : 300 <= p) by (subst p; rewrite Hml; unfold Qle; simpl; lia).
    assert (Hpa300 : 300 * 0.5 <= p * a) by (apply Qmult_lower; lra).
    assert (Hpab300 : 300 * 0.5 * 0.5 <= p * a * b) by (apply Qmult_lower; lra).
    assert (Hpabt300 : 300 * 0.5 * 0.5 * (1 # 3) <= p * a * b * tm)
      by (apply Qmult_lower; lra).
    lra.
  - lra.
Qed.

Lemma carbon_loop (ci tm um : Q) (ns : list Node) bd te tc :
  ∃ bd' tc',
    fold_left (carbon_step ci tm um) ns (bd, te, tc)
    = (bd', fold_left (Spec.energy_step tm um) ns te, tc')
    ∧ (tc == te * ci * (1 # 1000) →
       tc' == fold_left (Spec.energy_step tm um) ns te * ci * (1 # 1000)).
Proof.
  revert bd te tc. induction ns as [|n ns IH]; intros bd te tc; cbn [fold_left].
  - exists bd, tc. split; [reflexivity|]. intros H. exact H.
  - unfold carbon_step at 2.
    match goal with
    | |- context [fold_left _ ns (?b, ?e, ?c)] =>
        destruct (IH b e c) as (bd' & tc' & Hf & Ht)
    end.
    exists bd', tc'. split; [exact Hf|].
    intros Htc. apply Ht. unfold Spec.energy_step, Spec.node_energy.
    rewrite Htc, !div_1000. ring.
Qed.

Lemma energy_fold_ge (tm um : Q) (ns : list Node) (te : Q) :
  1 # 3 <= tm → te <= fold_left (Spec.energy_step tm um) ns te.
Proof.
  intros Htm. revert te. induction ns as [|n ns IH]; intros te; cbn [fold_left].
  - apply Qle_refl.
  - eapply Qle_trans; [|apply IH]. unfold Spec.energy_step.
    pose proof (node_energy_lower tm um n Htm). lra.
Qed.

Lemma total_energy_lower (tm um : Q) (ns : list Node) :
  1 # 3 <= tm → ns ≠ [] → 9 # 10 <= fold_left (Spec.energy_step tm um) ns 0.0.
Proof.
  intros Htm Hne. destruct ns as [|n ns]; [contradiction|]. cbn [fold_left].
  eapply Qle_trans; [|apply energy_fold_ge; exact Htm]. unfold Spec.energy_step.
  pose proof (node_energy_lower tm um n Htm). lra.
Qed.

Lemma traffic_mul_lower (t : Z) : (1 <= t)%Z → 1 # 3 <= inject_Z t / 3.0.
Proof.
  intros Ht. rewrite Zle_Qle in Ht.
  assert (E : inject_Z t / 3.0 == inject_Z t * (1 # 3)) by field.
  rewrite E. change (inject_Z 1) with 1 in Ht. lra.
Qed.

(** A report exists whenever [math.log10] accepts [users + 1]; its
    carbon figure is the rounded product of the total energy and the
    region's intensity. *)
Lemma report_shape (a : ArchitectureJson) (region : string) (uid : option string) :
  (0 <= users (scope a))%Z →
  ∃ r tc,
    generate_report log10 calculate_costs_total uuid4 utcnow a region uid = Some r
    ∧ carbon_kg (metrics r) = Py.round tc 4
    ∧ carbon_intensity (metrics r) = Spec.intensity region
    ∧ tc == fold_left (Spec.energy_step (inject_Z (trafficLevel (scope a)) / 3.0)
                                         (log10 (users (scope a) + 1) / 2.0))
                      (nodes a) 0.0
            * Spec.intensity region * (1 # 1000).
Proof.
  intros Hu. unfold generate_report.
  change (Py.dict_item REGION_CARBON_INTENSITY "default") with (Some 400.0).
  cbn iota beta.
  assert (Hpos : (users (scope a) + 1 <=? 0)%Z = false) by (apply Z.leb_gt; lia).
  rewrite Hpos.
  destruct (carbon_loop (Py.dict_get REGION_CARBON_INTENSITY region 400.0)
              (inject_Z (trafficLevel (scope a)) / 3.0)
              (log10 (users (scope a) + 1) / 2.0) (nodes a) [] 0.0 0.0)
    as (bd' & tc' & Hf & Ht).
  rewrite Hf. eexists _, tc'. split; [reflexivity|].
  split; [reflexivity|]. split; [reflexivity|].
  apply Ht. ring.
Qed.

(** For negative [users] there is no report: [math.log10] raises. *)
Lemma report_domain (a : ArchitectureJson) (region : string) (uid : option string) :
  (users (scope a) < 0)%Z →
  generate_report log10 calculate_costs_total uuid4 utcnow a region uid = None.
Proof.
  intros Hu. unfold generate_report.
  change (Py.dict_item REGION_CARBON_INTENSITY "default") with (Some 400.0).
  cbn iota beta.
  assert (Hneg : (users (scope a) + 1 <=? 0)%Z = true) by (apply Z.leb_le; lia).
  rewrite Hneg. reflexivity.
Qed.

(** C9: for a non-empty node list and a scope with non-negative users
    and trafficLevel at least 1, the reports for "eu-north-1"
    (intensity 8.0) and "ap-south-1" (intensity 708.0) both exist and
    the first has a strictly lower carbon_kg; and between any two
    regions carbon_kg is monotone in the carbon intensity. *)
Theorem C9_carbon_monotone_in_intensity (a : ArchitectureJson) (uid : option string) :
  nodes a ≠ [] →
  (0 <= users (scope a))%Z →
  (1 <= trafficLevel (scope a))%Z →
  (∃ r_eu r_ap,
      generate_report log10 calculate_costs_total uuid4 utcnow a "eu-north-1" uid = Some r_eu
      ∧ generate_report log10 calculate_costs_total uuid4 utcnow a "ap-south-1" uid = Some r_ap
      ∧ carbon_intensity (metrics r_eu) = 8.0
      ∧ carbon_intensity (metrics r_ap) = 708.0
      ∧ carbon_kg (metrics r_eu) < carbon_kg (metrics r_ap))
  ∧ (∀ region1 region2,
       ∃ r1 r2,
         generate_report log10 calculate_costs_total uuid4 utcnow a region1 uid = Some r1
         ∧ generate_report log10 calculate_costs_total uuid4 utcnow a region2 uid = Some r2
         ∧ (carbon_intensity (metrics r1) <= carbon_intensity (metrics r2) →
            carbon_kg (metrics r1) <= carbon_kg (metrics r2))).
Proof.
  intros Hne Hu Ht.
  pose proof (total_energy_lower _ (log10 (users (scope a) + 1) / 2.0) (nodes a)
                (traffic_mul_lower _ Ht) Hne) as HE.
  set (E := fold_left _ (nodes a) 0.0) in HE.
  split.
  - destruct (report_shape a "eu-north-1" uid Hu) as (r1 & tc1 & Hr1 & Hc1 & Hi1 & Ht1).
    destruct (report_shape a "ap-south-1" uid Hu) as (r2 & tc2 & Hr2 & Hc2 & Hi2 & Ht2).
    exists r1, r2. split; [exact Hr1|]. split; [exact Hr2|].
    split; [exact Hi1|]. split; [exact Hi2|].
    rewrite Hc1, Hc2. apply round_gap.
    change (inject_Z (Z.pos (Py.pow10 4))) with 10000.
    fold E in Ht1, Ht2. rewrite Ht1, Ht2.
    change (Spec.intensity "eu-north-1") with 8.0.
    change (Spec.intensity "ap-south-1") with 708.0.
    lra.
  - intros region1 region2.
    destruct (report_shape a region1 uid Hu) as (r1 & tc1 & Hr1 & Hc1 & Hi1 & Ht1).
    destruct (report_shape a region2 uid Hu) as (r2 & tc2 & Hr2 & Hc2 & Hi2 & Ht2).
    exists r1, r2. split; [exact Hr1|]. split; [exact Hr2|].
    rewrite Hi1, Hi2, Hc1, Hc2. intros Hle. apply round_mono.
    fold E in Ht1, Ht2. rewrite Ht1, Ht2.
    apply Qmult_le_compat_r; [|unfold Qle; simpl; lia].
    rewrite !(Qmult_comm E). apply Qmult_le_compat_r; [exact Hle|]. lra.
Qed.

End CarbonFacts.

(** ** The theorems at concrete inputs *)

Section Examples.
Import Models ArchitectureService.

Lemma C3_edges_first_match_witness :
  NoDup (map node_id Sample.sample_nodes)
  ∧ ∃ e, filter (λ e, source e = "web"
                      ∧ target e ∈ Spec.ids_of_category "backend" Sample.sample_nodes)
                (generate_edges Sample.sample_token Sample.sample_nodes 0).1 = [e]
         ∧ Spec.edge_link e = ("web", "api-1", Some right, Some left).
Proof.
  assert (Hnd : NoDup (map node_id Sample.sample_nodes))
    by (apply (bool_decide_unpack _); vm_compute; exact I).
  split; [exact Hnd|].
  apply (proj1 (proj2 (C3_edges_first_match Sample.sample_token Sample.sample_nodes 0)) Hnd
           (Sample.sample_node "web" "frontend" 100) "backend"
           (Sample.sample_node "api-1" "backend" 700)).
  - left.
  - apply (bool_decide_unpack _). vm_compute. exact I.
  - reflexivity.
Defined.

Lemma C10_backend_self_loop_witness :
  ∃ b e, Spec.first_in_category "backend" Sample.sample_nodes = Some b
         ∧ e ∈ (generate_edges Sample.sample_token Sample.sample_nodes 0).1
         ∧ source e = node_id b ∧ target e = node_id b
         ∧ sourceHandle e = Some bottom ∧ targetHandle e = Some top.
Proof.
  apply (C10_backend_self_loop Sample.sample_token Sample.sample_nodes 0).
  exists (Sample.sample_node "api-2" "backend" 700). split; [|reflexivity].
  right. right. left.
Defined.

Lemma C4_unknown_ids_skipped_witness :
  Spec.known "no-such-component" = false
  ∧ generate_architecture_from_components Sample.sample_token
      (["nextjs"] ++ "no-such-component" :: ["postgresql"]) Sample.sample_scope 0
    = generate_architecture_from_components Sample.sample_token
        (["nextjs"] ++ ["postgresql"]) Sample.sample_scope 0.
Proof.
  split; [reflexivity|].
  apply (proj1 (proj2 (proj2 (proj2
           (C4_unknown_ids_skipped Sample.sample_token [] Sample.sample_scope 0))))
         ["nextjs"] "no-such-component" ["postgresql"]).
  reflexivity.
Defined.

Lemma C7_duplicates_kept_witness :
  (Spec.known "nextjs" = true
   ∧ length (filter (λ n, componentId (data n) = "nextjs")
               (nodes (generate_architecture_from_components Sample.sample_token
                         ["nextjs"; "react"; "nextjs"] Sample.sample_scope 0))) = 2
   ∧ filter (λ p : Spec.placement, Spec.layer_of p.1 = Some 0%Z)
            (map Spec.node_placement
               (nodes (generate_architecture_from_components Sample.sample_token
                         ["nextjs"; "react"; "nextjs"] Sample.sample_scope 0)))
     = [ ("nextjs", {| x := 100%Q; y := 100%Q |});
         ("react", {| x := 100%Q; y := 250%Q |});
         ("nextjs", {| x := 100%Q; y := 400%Q |}) ])
  ∧ (Spec.layer_of "nextjs" = Some 0%Z
     ∧ map Spec.node_placement
           (nodes (generate_architecture_from_components Sample.sample_token
                     (replicate 3 "nextjs") Sample.sample_scope 0))
       = [ ("nextjs", {| x := 100%Q; y := 100%Q |});
           ("nextjs", {| x := 100%Q; y := 250%Q |});
           ("nextjs", {| x := 100%Q; y := 400%Q |}) ])
  ∧ (["nextjs"; "fastapi"; "nextjs"] ≡ₚ ["fastapi"; "nextjs"; "nextjs"]
     ∧ map (λ n, componentId (data n))
           (nodes (generate_architecture_from_components Sample.sample_token
                     ["fastapi"; "nextjs"; "nextjs"] Sample.sample_scope 0))
       ≡ₚ map (λ n, componentId (data n))
              (nodes (generate_architecture_from_components Sample.sample_token
                        ["nextjs"; "fastapi"; "nextjs"] Sample.sample_scope 0))
     ∧ map position
           (nodes (generate_architecture_from_components Sample.sample_token
                     ["fastapi"; "nextjs"; "nextjs"] Sample.sample_scope 0))
       = map position
             (nodes (generate_architecture_from_components Sample.sample_token
                       ["nextjs"; "fastapi"; "nextjs"] Sample.sample_scope 0)))
  ∧ ("nextjs" ≠ "react"
     ∧ Spec.layer_of "react" = Some 0%Z
     ∧ map Spec.node_placement
           (nodes (generate_architecture_from_components Sample.sample_token
                     ["nextjs"; "react"] Sample.sample_scope 0))
       = [ ("nextjs", {| x := 100%Q; y := 100%Q |});
           ("react", {| x := 100%Q; y := 250%Q |}) ]
     ∧ map Spec.node_placement
           (nodes (generate_architecture_from_components Sample.sample_token
                     ["react"; "nextjs"] Sample.sample_scope 0))
       = [ ("react", {| x := 100%Q; y := 100%Q |});
           ("nextjs", {| x := 100%Q; y := 250%Q |}) ]).
Proof.
  pose proof (C7_duplicates_kept Sample.sample_token ["nextjs"; "react"; "nextjs"]
                Sample.sample_scope 0) as (_ & _ & Hcount & Hlayer & Hcopies & _ & Hswap).
  split; [|split; [|split]].
  - split; [reflexivity|]. split; [apply (Hcount "nextjs"); reflexivity|].
    apply (Hlayer 0%Z).
  - split; [reflexivity|]. apply (proj1 (Hcopies "nextjs" 0%Z 3%nat eq_refl)).
  - assert (Hp : ["nextjs"; "fastapi"; "nextjs"] ≡ₚ ["fastapi"; "nextjs"; "nextjs"])
      by apply perm_swap.
    split; [exact Hp|].
    apply (proj2 (proj2 (proj2 (proj2 (proj2
             (C7_duplicates_kept Sample.sample_token ["nextjs"; "fastapi"; "nextjs"]
                Sample.sample_scope 0)))))).
    exact Hp.
  - assert (Hne : "nextjs" ≠ "react") by discriminate.
    split; [exact Hne|]. split; [reflexivity|].
    destruct (Hswap "nextjs" "react" 0%Z Hne eq_refl eq_refl) as (H1 & H2 & _).
    split; [exact H1|exact H2].
Defined.

(** The claim as written fails: passing [nextjs] twice yields two
    nodes, the second one below the first, where passing it once
    yields one. *)
Lemma C7_duplicates_collapse_counterexample :
  map Spec.node_placement
      (nodes (generate_architecture_from_components Sample.sample_token
                ["nextjs"] Sample.sample_scope 0))
  = [ ("nextjs", {| x := 100%Q; y := 100%Q |}) ]
  ∧ map Spec.node_placement
        (nodes (generate_architecture_from_components Sample.sample_token
                  ["nextjs"; "nextjs"] Sample.sample_scope 0))
    = [ ("nextjs", {| x := 100%Q; y := 100%Q |});
        ("nextjs", {| x := 100%Q; y := 250%Q |}) ]
  ∧ ¬ Spec.same_node_set
        (nodes (generate_architecture_from_components Sample.sample_token
                  ["nextjs"; "nextjs"] Sample.sample_scope 0))
        (nodes (generate_architecture_from_components Sample.sample_token
                  ["nextjs"] Sample.sample_scope 0)).
Proof.
  assert (H1 : map Spec.node_placement
                 (nodes (generate_architecture_from_components Sample.sample_token
                           ["nextjs"] Sample.sample_scope 0))
               = [ ("nextjs", {| x := 100%Q; y := 100%Q |}) ])
    by (vm_compute; reflexivity).
  assert (H2 : map Spec.node_placement
                 (nodes (generate_architecture_from_components Sample.sample_token
                           ["nextjs"; "nextjs"] Sample.sample_scope 0))
               = [ ("nextjs", {| x := 100%Q; y := 100%Q |});
                   ("nextjs", {| x := 100%Q; y := 250%Q |}) ])
    by (vm_compute; reflexivity).
  split; [exact H1|]. split; [exact H2|].
  unfold Spec.same_node_set. rewrite H1, H2. intros H.
  destruct (H ("nextjs", {| x := 100%Q; y := 250%Q |})) as [Hin _].
  assert (Hmem : ("nextjs", {| x := 100%Q; y := 250%Q |})
                 ∈ [ ("nextjs", {| x := 100%Q; y := 100%Q |}) ])
    by (apply Hin; right; left).
  apply list_elem_of_singleton in Hmem. discriminate Hmem.
Qed.

Lemma C9_carbon_monotone_in_intensity_witness :
  ∃ r_eu r_ap,
    CarbonService.generate_report Sample.sample_log10 Sample.sample_costs "report" 0
      Sample.sample_architecture "eu-north-1" None = Some r_eu
    ∧ CarbonService.generate_report Sample.sample_log10 Sample.sample_costs "report" 0
        Sample.sample_architecture "ap-south-1" None = Some r_ap
    ∧ CarbonService.carbon_intensity (CarbonService.metrics r_eu) = 8.0%Q
    ∧ CarbonService.carbon_intensity (CarbonService.metrics r_ap) = 708.0%Q
    ∧ (CarbonService.carbon_kg (CarbonService.metrics r_eu)
       < CarbonService.carbon_kg (CarbonService.metrics r_ap))%Q.
Proof.
  apply (C9_carbon_monotone_in_intensity Sample.sample_log10 Sample.sample_costs "report" 0
           Sample.sample_architecture None).
  - discriminate.
  - simpl. lia.
  - simpl. lia.
Defined.

End Examples.

(** * Further properties *)

Section MultiplierFacts.
Import Catalog Models CostCalculator.
Local Open Scope Q_scope.

Lemma leb_le (a b : Q) : Py.leb a b = true ↔ a <= b.
Proof.
  unfold Py.leb. destruct (Qcompare_spec a b) as [E|L|G].
  - split; [intros _; rewrite E; apply Qle_refl|reflexivity].
  - split; [intros _; apply Qlt_le_weak, L|reflexivity].
  - split; [discriminate|]. intros H. exfalso. lra.
Qed.

Lemma ltb_lt (a b : Q) : Py.ltb a b = true ↔ a < b.
Proof.
  unfold Py.ltb. destruct (Qcompare_spec a b) as [E|L|G].
  - split; [discriminate|]. intros H. exfalso. lra.
  - split; [intros _; exact L|reflexivity].
  - split; [discriminate|]. intros H. exfalso. lra.
Qed.

Lemma region_multiplier_cases (r : Z) :
  get_region_multiplier r
  = if (4 <=? r)%Z then 1.8
    else if (r =? 3)%Z then 1.5 else if (r =? 2)%Z then 1.3 else 1.0.
Proof.
  unfold get_region_multiplier, Py.dict_get, REGION_MULTIPLIERS. cbn [List.find fst snd].
  destruct (Z.leb_spec 4 r); [reflexivity|].
  repeat case_bool_decide; subst; try reflexivity; try lia;
    repeat match goal with |- context [(?a =? ?b)%Z] => destruct (Z.eqb_spec a b) end;
    try reflexivity; lia.
Qed.

(** X1: the region multiplier grows with the number of regions and stays
    between 1.0 and 1.8. *)
Theorem region_multiplier_monotone (r1 r2 : Z) :
  (r1 <= r2)%Z →
  get_region_multiplier r1 <= get_region_multiplier r2
  ∧ 1.0 <= get_region_multiplier r1 <= 1.8
  ∧ ((r1 <= 1)%Z → get_region_multiplier r1 = 1.0)
  ∧ ((4 <= r2)%Z → get_region_multiplier r2 = 1.8).
Proof.
  intros L. rewrite !region_multiplier_cases.
  repeat match goal with
         | |- context [(?a <=? ?b)%Z] => destruct (Z.leb_spec a b)
         | |- context [(?a =? ?b)%Z] => destruct (Z.eqb_spec a b)
         end; try lia;
    (split; [unfold Qle; simpl; lia|]);
    (split; [split; unfold Qle; simpl; lia|]);
    split; intros; try reflexivity; lia.
Qed.

Lemma availability_multiplier_cases (a : Q) :
  get_availability_multiplier a
  = if Py.leb a 99.0 then 1.0 else if Py.leb a 99.9 then 1.2
    else if Py.leb a 99.95 then 1.4 else if Py.leb a 99.99 then 1.7
    else 2.5.
Proof.
  unfold get_availability_multiplier. cbn.
  repeat (destruct (Py.leb a _); [reflexivity|]). reflexivity.
Qed.

Ltac leb_cases :=
  repeat match goal with
         | |- context [Py.leb ?a ?b] =>
             let H := fresh "Hleb" in
             destruct (Py.leb a b) eqn:H;
             [apply leb_le in H
             |apply not_true_iff_false in H; rewrite leb_le in H; apply Qnot_le_lt in H]
         end.

(** X2: the availability multiplier grows with the requested
    availability and stays between 1.0 and 2.5; above 99.999 it is 2.5. *)
Theorem availability_multiplier_monotone (a1 a2 : Q) :
  a1 <= a2 →
  get_availability_multiplier a1 <= get_availability_multiplier a2
  ∧ 1.0 <= get_availability_multiplier a1 <= 2.5
  ∧ (99.999 < a2 → get_availability_multiplier a2 = 2.5).
Proof.
  intros L. rewrite !availability_multiplier_cases.
  leb_cases; try (exfalso; lra);
    (split; [lra|]); (split; [lra|]); intros; try reflexivity; exfalso; lra.
Qed.

Lemma traffic_multiplier_cases (t : Z) :
  get_traffic_multiplier t
  = if (t =? 1)%Z then 1.0 else if (t =? 2)%Z then 1.5 else if (t =? 3)%Z then 2.0
    else if (t =? 4)%Z then 3.0 else if (t =? 5)%Z then 5.0 else 2.0.
Proof.
  unfold get_traffic_multiplier, Py.dict_get, TRAFFIC_MULTIPLIERS. cbn [List.find fst snd].
  repeat case_bool_decide; subst; try reflexivity;
    repeat match goal with |- context [(?a =? ?b)%Z] => destruct (Z.eqb_spec a b) end;
    try reflexivity; lia.
Qed.


Lemma user_multiplier_mono (u1 u2 : Z) :
  (u1 <= u2)%Z → get_user_multiplier u1 <= get_user_multiplier u2.
Proof.
  intros L.
  change (Spec.userMultiplier_step u1 <= Spec.userMultiplier_step u2).
  unfold Spec.userMultiplier_step.
  repeat match goal with
         | |- context [(?a <=? ?b)%Z] => destruct (Z.leb_spec a b)
         end; try lia; unfold Qle; simpl; lia.
Qed.

Lemma user_multiplier_lower (u : Z) : 1 <= get_user_multiplier u.
Proof.
  change (1 <= Spec.userMultiplier_step u). unfold Spec.userMultiplier_step.
  repeat match goal with
         | |- context [(?a <=? ?b)%Z] => destruct (Z.leb_spec a b)
         end; unfold Qle; simpl; lia.
Qed.

Lemma traffic_multiplier_lower (t : Z) : 1 <= get_traffic_multiplier t.
Proof.
  rewrite traffic_multiplier_cases.
  repeat match goal with
         | |- context [(?a =? ?b)%Z] => destruct (Z.eqb_spec a b)
         end; unfold Qle; simpl; lia.
Qed.

Lemma traffic_multiplier_mono (s1 s2 : Scope) :
  (trafficLevel s1 = trafficLevel s2
   ∨ (1 <= trafficLevel s1 <= trafficLevel s2 ∧ trafficLevel s2 <= 5)%Z) →
  get_traffic_multiplier (trafficLevel s1) <= get_traffic_multiplier (trafficLevel s2).
Proof.
  intros [E|[H1 H2]]; [rewrite E; apply Qle_refl|].
  rewrite !traffic_multiplier_cases.
  repeat match goal with
         | |- context [(?a =? ?b)%Z] => destruct (Z.eqb_spec a b)
         end; try lia; unfold Qle; simpl; lia.
Qed.

Lemma region_multiplier_mono (r1 r2 : Z) :
  (r1 <= r2)%Z → 1 <= get_region_multiplier r1 <= get_region_multiplier r2.
Proof.
  intros L. rewrite !region_multiplier_cases.
  repeat match goal with
         | |- context [(?a <=? ?b)%Z] => destruct (Z.leb_spec a b)
         | |- context [(?a =? ?b)%Z] => destruct (Z.eqb_spec a b)
         end; try lia; split; unfold Qle; simpl; lia.
Qed.

Lemma availability_multiplier_mono (a1 a2 : Q) :
  a1 <= a2 → 1 <= get_availability_multiplier a1 <= get_availability_multiplier a2.
Proof.
  intros L. rewrite !availability_multiplier_cases.
  leb_cases; try (exfalso; lra); split; lra.
Qed.

Lemma catalog_base_nonneg (i : string) (c : Component) :
  get_component_by_id i = Some c → (0 <= base_cost c)%Z.
Proof.
  intros H. apply find_some in H as [Hin _].
  assert (Hall : Forall (λ c, (0 <= base_cost c)%Z) COMPONENTS)
    by (apply (bool_decide_unpack _); vm_compute; exact I).
  rewrite Forall_forall in Hall. apply Hall, list_elem_of_In, Hin.
Qed.

Lemma round_of_Z (z : Z) (n : nat) : Py.round (inject_Z z) n == inject_Z z.
Proof.
  unfold Py.round. rewrite Qred_correct.
  rewrite (round_half_even_Z _ (z * Z.pos (Py.pow10 n))).
  - unfold Qeq, inject_Z; simpl. lia.
  - rewrite inject_Z_mult. reflexivity.
Qed.

Lemma mult2_mono (x1 x2 m1 m2 : Q) :
  0 <= x1 → x1 <= x2 → 1 <= m1 → m1 <= m2 → 0 <= x1 * m1 ∧ x1 * m1 <= x2 * m2.
Proof.
  intros H0 Hx H1 Hm. split.
  - apply Qmult_le_0_compat; lra.
  - apply Qmult_lower; lra.
Qed.

Lemma mult_ge (x m : Q) : 0 <= x → 1 <= m → x <= x * m.
Proof.
  intros H0 H1. rewrite <- (Qmult_1_r x) at 1.
  rewrite !(Qmult_comm x). apply Qmult_le_compat_r; assumption.
Qed.

End MultiplierFacts.

Section CostMoreFacts.
Import Catalog Models CostCalculator.
Local Open Scope Q_scope.

Lemma scaled_cost_bounds (i : string) (c : Component) (s1 s2 : Scope) :
  get_component_by_id i = Some c →
  Derived.scope_le s1 s2 →
  (calculate_component_cost i s1).2 <= (calculate_component_cost i s2).2.
Proof.
  intros Hc (Hu & Ht & Hd & Hr & Ha). unfold calculate_component_cost. rewrite Hc.
  destruct (base_cost c =? 0)%Z eqn:Hb; [apply Qle_refl|]. cbn [snd].
  apply round_mono.
  assert (H0 : 0 <= inject_Z (base_cost c)).
  { change 0 with (inject_Z 0). rewrite <- Zle_Qle. exact (catalog_base_nonneg i c Hc). }
  pose proof (user_multiplier_lower (users s1)) as Hu1.
  pose proof (user_multiplier_mono _ _ Hu) as Hu2.
  pose proof (traffic_multiplier_lower (trafficLevel s1)) as Ht1.
  pose proof (traffic_multiplier_mono s1 s2 Ht) as Ht2.
  destruct (region_multiplier_mono _ _ Hr) as [Hr1 Hr2].
  destruct (availability_multiplier_mono _ _ Ha) as [Ha1 Ha2].
  set (b := inject_Z (base_cost c)) in *.
  destruct (mult2_mono b b _ _ H0 (Qle_refl b) Hu1 Hu2) as [Hbu0 Hbu].
  destruct (mult2_mono _ _ _ _ Hbu0 Hbu Ht1 Ht2) as [Hbut0 Hbut].
  destruct (mult2_mono _ _ _ _ Hbut0 Hbut Hr1 Hr2) as [Hbutr0 Hbutr].
  destruct (mult2_mono _ _ _ _ Hbutr0 Hbutr Ha1 Ha2) as [Hbutra0 Hbutra].
  destruct (mult2_mono b b _ _ H0 (Qle_refl b) Hr1 Hr2) as [Hbr0 Hbr].
  destruct (mult2_mono _ _ _ _ Hbr0 Hbr Ha1 Ha2) as [Hbra0 Hbra].
  unfold DATA_COST_PER_GB.
  repeat destruct (Py.str_in _ _); lra.
Qed.

Lemma scaled_cost_at_least_base (i : string) (c : Component) (s : Scope) :
  get_component_by_id i = Some c →
  0 <= dataVolumeGB s →
  (calculate_component_cost i s).1 <= (calculate_component_cost i s).2.
Proof.
  intros Hc Hd. unfold calculate_component_cost. rewrite Hc.
  destruct (base_cost c =? 0)%Z eqn:Hb; [apply Qle_refl|]. cbn [fst snd].
  rewrite <- (round_of_Z (base_cost c) 2) at 1. apply round_mono.
  assert (H0 : 0 <= inject_Z (base_cost c)).
  { change 0 with (inject_Z 0). rewrite <- Zle_Qle. exact (catalog_base_nonneg i c Hc). }
  pose proof (user_multiplier_lower (users s)) as Hu1.
  pose proof (traffic_multiplier_lower (trafficLevel s)) as Ht1.
  destruct (region_multiplier_mono _ _ (Z.le_refl (regions s))) as [Hr1 _].
  destruct (availability_multiplier_mono _ _ (Qle_refl (availability s))) as [Ha1 _].
  set (b := inject_Z (base_cost c)) in *.
  pose proof (mult_ge b _ H0 Hu1) as Hbu.
  assert (Hbu0 : 0 <= b * get_user_multiplier (users s)) by lra.
  pose proof (mult_ge _ _ Hbu0 Ht1) as Hbut.
  assert (Hbut0 : 0 <= b * get_user_multiplier (users s)
                       * get_traffic_multiplier (trafficLevel s)) by lra.
  pose proof (mult_ge _ _ Hbut0 Hr1) as Hbutr.
  assert (Hbutr0 : 0 <= b * get_user_multiplier (users s)
                        * get_traffic_multiplier (trafficLevel s)
                        * get_region_multiplier (regions s)) by lra.
  pose proof (mult_ge _ _ Hbutr0 Ha1) as Hbutra.
  pose proof (mult_ge b _ H0 Hr1) as Hbr.
  assert (Hbr0 : 0 <= b * get_region_multiplier (regions s)) by lra.
  pose proof (mult_ge _ _ Hbr0 Ha1) as Hbra.
  unfold DATA_COST_PER_GB.
  repeat destruct (Py.str_in _ _); lra.
Qed.

(** X4: scaling never lowers a cost.  For a scope with non-negative data
    volume the scaled cost of a component is at least its base cost,
    which is the catalog's and is not negative. *)
Theorem scaling_never_lowers_cost (i : string) (s : Scope) :
  0 <= dataVolumeGB s →
  0 <= (calculate_component_cost i s).1
  ∧ (calculate_component_cost i s).1 <= (calculate_component_cost i s).2
  ∧ (∀ c, get_component_by_id i = Some c →
          (calculate_component_cost i s).1 == inject_Z (base_cost c)).
Proof.
  intros Hd.
  assert (Hbase : ∀ c, get_component_by_id i = Some c →
                       (calculate_component_cost i s).1 == inject_Z (base_cost c)).
  { intros c Hc. unfold calculate_component_cost. rewrite Hc.
    destruct (Z.eqb_spec (base_cost c) 0) as [->|_]; reflexivity. }
  destruct (get_component_by_id i) as [c|] eqn:Hc.
  - split; [|split; [exact (scaled_cost_at_least_base i c s Hc Hd)|exact Hbase]].
    rewrite (Hbase c eq_refl). change 0 with (inject_Z 0). rewrite <- Zle_Qle.
    exact (catalog_base_nonneg i c Hc).
  - unfold calculate_component_cost. rewrite Hc. cbn [fst snd].
    split; [unfold Qle; simpl; lia|]. split; [apply Qle_refl|]. intros c H. discriminate H.
Qed.

Lemma cost_fold_mono (ids : list string) (s1 s2 : Scope) bd1 bd2 (t1 t2 : Q) :
  Derived.scope_le s1 s2 →
  t1 <= t2 →
  (fold_left (cost_step s1) ids (bd1, t1)).2 <= (fold_left (cost_step s2) ids (bd2, t2)).2.
Proof.
  intros Hle. revert bd1 bd2 t1 t2.
  induction ids as [|i ids IH]; intros bd1 bd2 t1 t2 Ht; cbn [fold_left]; [exact Ht|].
  unfold cost_step at 2 4.
  destruct (get_component_by_id i) as [c|] eqn:Hc; [|apply IH, Ht].
  pose proof (scaled_cost_bounds i c s1 s2 Hc Hle) as Hs.
  destruct (calculate_component_cost i s1) as [b1 c1].
  destruct (calculate_component_cost i s2) as [b2 c2].
  apply IH. cbn [snd] in Hs. lra.
Qed.

(** X5: costs grow with the scope.  When a scope asks for at least as
    much as another (more users, data, regions, availability, and the
    same traffic level or a higher one among 1..5), no component's
    scaled cost and no architecture's total goes down; base costs do
    not depend on the scope. *)
Theorem cost_monotone_in_scope (ids : list string) (s1 s2 : Scope) :
  Derived.scope_le s1 s2 →
  (∀ i, (calculate_component_cost i s1).1 = (calculate_component_cost i s2).1
        ∧ (calculate_component_cost i s1).2 <= (calculate_component_cost i s2).2)
  ∧ total (calculate_architecture_cost ids s1) <= total (calculate_architecture_cost ids s2).
Proof.
  intros Hle. split.
  - intros i. destruct (get_component_by_id i) as [c|] eqn:Hc.
    + split; [|exact (scaled_cost_bounds i c s1 s2 Hc Hle)].
      unfold calculate_component_cost. rewrite Hc.
      destruct (base_cost c =? 0)%Z; reflexivity.
    + unfold calculate_component_cost. rewrite Hc. split; [reflexivity|apply Qle_refl].
  - unfold calculate_architecture_cost.
    pose proof (cost_fold_mono ids s1 s2 [] [] 0.0 0.0 Hle (Qle_refl _)) as H.
    destruct (fold_left (cost_step s1) ids ([], 0.0)) as [bd1 t1].
    destruct (fold_left (cost_step s2) ids ([], 0.0)) as [bd2 t2].
    cbn [total]. apply round_mono. exact H.
Qed.

Lemma cost_loop_entries (scope : Scope) (ids : list string) bd (t : Q) :
  fold_left (cost_step scope) ids (bd, t)
  = (bd ++ omap (Derived.cost_entry scope) ids,
     fold_left Qplus (map scaledCost (omap (Derived.cost_entry scope) ids)) t).
Proof.
  revert bd t. induction ids as [|i ids IH]; intros bd t; cbn [fold_left omap list_omap].
  - rewrite app_nil_r. reflexivity.
  - destruct (Derived.cost_entry scope i) as [e|] eqn:He;
      unfold Derived.cost_entry in He; unfold cost_step at 2;
      destruct (get_component_by_id i) as [c|]; try discriminate He.
    + injection He as <-.
      destruct (calculate_component_cost i scope) as [b sc]. cbn [fst snd].
      rewrite IH, <- app_assoc. reflexivity.
    + apply IH.
Qed.

(** X6: cost breakdowns compose.  The breakdown lists the resolvable
    identifiers in input order, one entry each; every entry carries the
    costs of its own identifier, whatever else is in the input; and the
    breakdown of a concatenation is the concatenation of the
    breakdowns. *)
Theorem cost_breakdown_additive (l1 l2 : list string) (s : Scope) :
  map cb_componentId (breakdown (calculate_architecture_cost l1 s))
  = filter (λ i, Spec.known i = true) l1
  ∧ Forall (λ e, (baseCost e, scaledCost e)
                 = calculate_component_cost (cb_componentId e) s)
           (breakdown (calculate_architecture_cost l1 s))
  ∧ breakdown (calculate_architecture_cost (l1 ++ l2) s)
    = breakdown (calculate_architecture_cost l1 s)
      ++ breakdown (calculate_architecture_cost l2 s).
Proof.
  assert (Hbd : ∀ l, breakdown (calculate_architecture_cost l s)
                     = omap (Derived.cost_entry s) l).
  { intros l. unfold calculate_architecture_cost. rewrite cost_loop_entries. reflexivity. }
  split; [|split].
  - rewrite Hbd. induction l1 as [|i l IH]; [reflexivity|]. cbn [omap list_omap].
    unfold Derived.cost_entry at 1, Spec.known at 1.
    destruct (get_component_by_id i) as [c|] eqn:Hc; cbn [fmap option_fmap option_map].
    + rewrite filter_cons_True; [cbn [map cb_componentId]; rewrite IH; reflexivity|].
      unfold Spec.known. rewrite Hc. reflexivity.
    + rewrite filter_cons_False; [exact IH|]. unfold Spec.known. rewrite Hc. discriminate.
  - rewrite Hbd. apply Forall_forall. intros e He.
    apply list_elem_of_omap in He as (i & _ & He). unfold Derived.cost_entry in He.
    destruct (get_component_by_id i) as [c|]; [|discriminate He].
    injection He as <-. cbn [baseCost scaledCost cb_componentId].
    destruct (calculate_component_cost i s). reflexivity.
  - rewrite !Hbd. apply omap_app.
Qed.

End CostMoreFacts.

Section RulesFacts.
Import ConnectionValidator.

(** X7: the three queries on the connection rules agree. *)
Theorem connection_rules_consistent (src tgt : string) :
  (is_valid_connection src tgt = true ↔ tgt ∈ get_valid_targets src)
  ∧ (is_valid_connection src tgt = true ↔ src ∈ get_valid_sources tgt).
Proof.
  unfold is_valid_connection, get_valid_targets, get_valid_sources.
  rewrite bool_decide_eq_true, !elem_of_map. split; split.
  - intros H. exists (src, tgt). split; [reflexivity|]. apply elem_of_filter. split; [reflexivity|exact H].
  - intros ([a b] & -> & H). apply elem_of_filter in H as [E H]. simpl in E. subst a. exact H.
  - intros H. exists (src, tgt). split; [reflexivity|]. apply elem_of_filter. split; [reflexivity|exact H].
  - intros ([a b] & -> & H). apply elem_of_filter in H as [E H]. simpl in E. subst b. exact H.
Qed.

End RulesFacts.

Section CatalogFacts.
Import Catalog.

Lemma find_by_key {A K} `{EqDecision K} (f : A → K) (l : list A) (a : A) :
  NoDup (map f l) → a ∈ l → List.find (λ x, bool_decide (f x = f a)) l = Some a.
Proof.
  induction l as [|x l IH]; intros Hnd Ha; [inversion Ha|].
  cbn [map] in Hnd. apply NoDup_cons in Hnd as [Hx Hnd]. cbn [List.find].
  apply elem_of_cons in Ha as [->|Ha].
  - rewrite bool_decide_true by reflexivity. reflexivity.
  - rewrite bool_decide_false; [apply IH; assumption|].
    intros E. apply Hx. rewrite E. apply (list_elem_of_fmap_2 f), Ha.
Qed.

Lemma catalog_ids_NoDup : NoDup (map id COMPONENTS).
Proof. apply (bool_decide_unpack _). vm_compute. exact I. Qed.

(** X8: the catalog can be searched by identifier.  Identifiers are
    unique, so every entry is found under its own identifier, and
    whatever a lookup returns is the catalog's entry of that
    identifier. *)
Theorem catalog_lookup_roundtrip (c : Component) (i : string) :
  (c ∈ get_all_components → get_component_by_id (id c) = Some c)
  ∧ (get_component_by_id i = Some c → c ∈ get_all_components ∧ id c = i).
Proof.
  split.
  - intros Hc. apply (find_by_key id COMPONENTS c catalog_ids_NoDup Hc).
  - intros H. apply find_some in H as [Hin Hid].
    split; [apply list_elem_of_In, Hin|]. exact (bool_decide_eq_true_1 _ Hid).
Qed.

(** X9: the category query partitions the catalog: a component is listed
    under a category exactly when it is a catalog entry of that
    category, the listing keeps the catalog order, and every category
    of the catalog has its own layer in the layout table. *)
Theorem catalog_by_category (cat : string) (c : Component) :
  (c ∈ get_components_by_category cat ↔ c ∈ get_all_components ∧ category c = cat)
  ∧ get_components_by_category cat `sublist_of` get_all_components
  ∧ (c ∈ get_all_components →
     is_Some (Py.dict_item ArchitectureService.CATEGORY_LAYERS (category c))).
Proof.
  unfold get_components_by_category, get_all_components. split; [|split].
  - rewrite !list_elem_of_In, filter_In, bool_decide_eq_true. reflexivity.
  - induction COMPONENTS as [|x l IH]; [constructor|]. cbn [List.filter].
    destruct (bool_decide _); [apply sublist_skip|apply sublist_cons]; exact IH.
  - intros Hc.
    assert (Hall : Forall (λ c, is_Some (Py.dict_item ArchitectureService.CATEGORY_LAYERS
                                           (category c))) COMPONENTS).
    { apply (bool_decide_unpack _). vm_compute. exact I. }
    rewrite Forall_forall in Hall. apply Hall, Hc.
Qed.

End CatalogFacts.

Section EdgeMoreFacts.
Import Models ArchitectureService.
Variable token : nat → string.

Lemma edge_step_shape (nodes : list Node) (s : Node) (es : list Edge) (k : nat) (c : string) :
  edge_step token (group_by_category nodes) s (es, k) c
  = match Spec.first_in_category c nodes with
    | None => (es, k)
    | Some t => (es ++ [Spec.mk_edge token k (Spec.expected_link s t)], S k)
    end.
Proof. apply edge_step_first. Qed.

Lemma imap_shift {A B} (f : nat → A → B) (k : nat) (l : list A) :
  imap (λ j, f (S k + j)) l = imap ((λ j, f (k + j)) ∘ S) l.
Proof. apply imap_ext. intros j x _. simpl. f_equal. lia. Qed.

Lemma inner_loop_edges (nodes : list Node) (s : Node) (cats : list string) es k :
  fold_left (edge_step token (group_by_category nodes) s) cats (es, k)
  = (es ++ imap (λ j, Spec.mk_edge token (k + j))
               (omap (λ c, Spec.expected_link s <$> Spec.first_in_category c nodes) cats),
     k + length (omap (λ c, Spec.expected_link s <$> Spec.first_in_category c nodes) cats)).
Proof.
  revert es k. induction cats as [|c cats IH]; intros es k; cbn [fold_left omap list_omap].
  - cbn. rewrite app_nil_r, Nat.add_0_r. reflexivity.
  - rewrite edge_step_shape.
    destruct (Spec.first_in_category c nodes) as [t|]; cbn [fmap option_fmap option_map].
    + rewrite IH, <- app_assoc. cbn [imap length app].
      rewrite Nat.add_0_r, imap_shift, Nat.add_succ_r. reflexivity.
    + apply IH.
Qed.

Lemma outer_loop_edges (nodes srcs : list Node) es k :
  fold_left (source_step token (group_by_category nodes)) srcs (es, k)
  = (es ++ imap (λ j, Spec.mk_edge token (k + j)) (srcs ≫= Spec.links_from nodes),
     k + length (srcs ≫= Spec.links_from nodes)).
Proof.
  revert es k. induction srcs as [|s srcs IH]; intros es k; cbn [fold_left].
  - cbn. rewrite app_nil_r, Nat.add_0_r. reflexivity.
  - unfold source_step at 2. rewrite inner_loop_edges, IH, bind_cons.
    fold (Spec.links_from nodes s).
    rewrite <- app_assoc, imap_app, length_app, Nat.add_assoc. f_equal. f_equal. f_equal.
    apply imap_ext. intros j x _. f_equal. lia.
Qed.

(** The edges in full: the links in order, the [j]-th one named by the
    [j]-th token drawn. *)
Lemma generate_edges_shape (nodes : list Node) (k : nat) :
  generate_edges token nodes k
  = (imap (λ j, Spec.mk_edge token (k + j)) (nodes ≫= Spec.links_from nodes),
     k + length (nodes ≫= Spec.links_from nodes)).
Proof. unfold generate_edges. rewrite outer_loop_edges. reflexivity. Qed.

(** X10: every edge joins two nodes of the list along a licensed
    connection: its source and target are identifiers of nodes, the
    pair of their categories is a valid connection, and the target is
    the first node of its category. *)
Theorem edges_connect_valid (nodes : list Node) (k : nat) (e : Edge) :
  e ∈ (generate_edges token nodes k).1 →
  ∃ s t, s ∈ nodes ∧ t ∈ nodes
         ∧ source e = node_id s ∧ target e = node_id t
         ∧ ConnectionValidator.is_valid_connection (category (data s)) (category (data t))
           = true
         ∧ Spec.first_in_category (category (data t)) nodes = Some t.
Proof.
  intros He. destruct (edge_is_link token nodes k e He) as (s & c & t & Hs & Hc & Ht & Hl).
  destruct (first_in_category_Some _ _ _ Ht) as [Htin Htc].
  exists s, t. split; [exact Hs|]. split; [exact Htin|].
  destruct (expected_link_ends s t) as [H1 H2]. rewrite <- Hl in H1, H2.
  split; [exact H1|]. split; [exact H2|]. rewrite Htc. split; [|exact Ht].
  unfold ConnectionValidator.is_valid_connection. apply bool_decide_eq_true.
  unfold ConnectionValidator.get_valid_targets in Hc.
  apply elem_of_map in Hc as ([a b] & -> & Hp).
  apply elem_of_filter in Hp as [E Hp]. simpl in E. subst a. exact Hp.
Qed.

Lemma valid_sources_listed (p : string * string) :
  p ∈ ConnectionValidator.VALID_CONNECTIONS → p.1 ∈ Derived.source_categories.
Proof.
  unfold ConnectionValidator.VALID_CONNECTIONS. rewrite elem_of_list_to_set.
  revert p. apply Forall_forall. apply (bool_decide_unpack _). vm_compute. exact I.
Qed.

(** No category has more than ten valid targets. *)
Lemma valid_targets_bound (c : string) :
  length (elements (ConnectionValidator.get_valid_targets c)) ≤ 10.
Proof.
  destruct (decide (c ∈ Derived.source_categories)) as [Hin|Hout].
  - unfold Derived.source_categories in Hin.
    repeat (apply elem_of_cons in Hin as [->|Hin]; [vm_compute; lia|]).
    inversion Hin.
  - assert (E : elements (ConnectionValidator.get_valid_targets c) = []).
    { apply elements_empty_iff. apply elem_of_equiv_empty. intros t Ht.
      unfold ConnectionValidator.get_valid_targets in Ht.
      apply elem_of_map in Ht as (p & _ & Hp). apply elem_of_filter in Hp as [E Hp].
      apply Hout. rewrite <- E. apply valid_sources_listed, Hp. }
    rewrite E. simpl. lia.
Qed.

Lemma length_omap_le {A B} (f : A → option B) (l : list A) : length (omap f l) ≤ length l.
Proof.
  induction l as [|a l IH]; [reflexivity|]. cbn [omap list_omap].
  destruct (f a); simpl; lia.
Qed.

(** X11: edge generation is linear and accounts for its tokens.  At most
    ten edges start at any node, so there are at most ten times as many
    edges as nodes; one token is drawn per edge, the [j]-th edge being
    named ["e"] followed by the [j]-th token drawn; nodes without any
    licensed partner yield no edge. *)
Theorem edge_count_bound (nodes : list Node) (k : nat) :
  length (generate_edges token nodes k).1 ≤ 10 * length nodes
  ∧ (generate_edges token nodes k).2 = k + length (generate_edges token nodes k).1
  ∧ (∀ j e, (generate_edges token nodes k).1 !! j = Some e →
            edge_id e = "e" +:+ token (k + j) ∧ edge_type e = "custom")
  ∧ ((∀ s t, s ∈ nodes → t ∈ nodes →
             ConnectionValidator.is_valid_connection (category (data s))
               (category (data t)) = false) →
     (generate_edges token nodes k).1 = []).
Proof.
  rewrite generate_edges_shape. cbn [fst snd]. rewrite length_imap.
  split; [|split; [reflexivity|split]].
  - generalize nodes at 2 3. intros srcs.
    induction srcs as [|s srcs IH]; [simpl; lia|].
    rewrite bind_cons, length_app. cbn [length]. unfold Spec.links_from at 1.
    pose proof (length_omap_le
                  (λ c, Spec.expected_link s <$> Spec.first_in_category c nodes)
                  (elements (ConnectionValidator.get_valid_targets (category (data s))))).
    pose proof (valid_targets_bound (category (data s))). lia.
  - intros j e He. rewrite list_lookup_imap in He.
    destruct ((nodes ≫= Spec.links_from nodes) !! j) as [[[[a b] sh] th]|]; [|discriminate He].
    injection He as <-. split; reflexivity.
  - intros Hnone.
    assert (E : nodes ≫= Spec.links_from nodes = []).
    { destruct (nodes ≫= Spec.links_from nodes) as [|l ls] eqn:El; [reflexivity|exfalso].
      assert (Hl : l ∈ nodes ≫= Spec.links_from nodes) by (rewrite El; left).
      apply list_elem_of_bind in Hl as (s & Hl & Hs).
      unfold Spec.links_from in Hl. apply list_elem_of_omap in Hl as (c & Hc & Hl).
      destruct (Spec.first_in_category c nodes) as [t|] eqn:Ht; [|discriminate Hl].
      destruct (first_in_category_Some _ _ _ Ht) as [Htin Htc].
      specialize (Hnone s t Hs Htin). apply bool_decide_eq_false_1 in Hnone.
      apply Hnone. rewrite Htc. apply elem_of_elements in Hc.
      unfold ConnectionValidator.get_valid_targets in Hc.
      apply elem_of_map in Hc as ([a b] & -> & Hp).
      apply elem_of_filter in Hp as [E Hp]. simpl in E. subst a. exact Hp. }
    rewrite E. reflexivity.
Qed.

End EdgeMoreFacts.

Section GenerateMoreFacts.
Import Catalog Models ArchitectureService.
Variable token : nat → string.

Lemma ids_drawn_app (k : nat) (l1 l2 : list Node) :
  Derived.ids_drawn token k l1 →
  Derived.ids_drawn token (k + length l1) l2 →
  Derived.ids_drawn token k (l1 ++ l2).
Proof.
  intros H1 H2 j n Hj. destruct (decide (j < length l1)) as [Hlt|Hge].
  - rewrite lookup_app_l in Hj by exact Hlt. apply H1, Hj.
  - rewrite lookup_app_r in Hj by lia. rewrite (H2 _ _ Hj). do 3 f_equal. lia.
Qed.

Lemma node_loop_ids (layer : Z) (ics : list (nat * string)) ns k :
  ∃ new,
    fold_left (node_step token layer) ics (ns, k) = (ns ++ new, k + length new)
    ∧ Derived.ids_drawn token k new
    ∧ Forall (λ n, Spec.known (componentId (data n)) = true) new.
Proof.
  revert ns k. induction ics as [|[idx c] ics IH]; intros ns k; cbn [fold_left].
  - exists []. rewrite app_nil_r, Nat.add_0_r.
    split; [reflexivity|]. split; [intros j n H; discriminate H|constructor].
  - unfold node_step at 2, create_node_from_component, generate_node_id.
    destruct (get_component_by_id c) as [comp|] eqn:Hc.
    + match goal with
      | |- context [fold_left _ ics (ns ++ [?n], S k)] =>
          destruct (IH (ns ++ [n]) (S k)) as (new & Hf & Hids & Hk); exists (n :: new)
      end.
      rewrite Hf, <- app_assoc. cbn [app length]. rewrite Nat.add_succ_r.
      split; [reflexivity|]. split.
      * apply (ids_drawn_app k [_] new).
        -- intros [|j] n Hj; [|destruct j; discriminate Hj].
           injection Hj as <-. cbn. rewrite Nat.add_0_r. reflexivity.
        -- cbn [length]. rewrite Nat.add_1_r. exact Hids.
      * constructor; [|exact Hk]. cbn. unfold Spec.known. rewrite Hc. reflexivity.
    + apply IH.
Qed.

Lemma place_loop_ids (layers : gmap Z (list string)) (keys : list Z) ns k :
  ∃ new,
    fold_left (place_layer token layers) keys (ns, k) = (ns ++ new, k + length new)
    ∧ Derived.ids_drawn token k new
    ∧ Forall (λ n, Spec.known (componentId (data n)) = true) new.
Proof.
  revert ns k. induction keys as [|l keys IH]; intros ns k; cbn [fold_left].
  - exists []. rewrite app_nil_r, Nat.add_0_r.
    split; [reflexivity|]. split; [intros j n H; discriminate H|constructor].
  - unfold place_layer at 2.
    destruct (node_loop_ids l (Py.enumerate (default [] (layers !! l))) ns k)
      as (new1 & Hf1 & Hi1 & Hk1).
    rewrite Hf1.
    destruct (IH (ns ++ new1) (k + length new1)) as (new2 & Hf2 & Hi2 & Hk2).
    exists (new1 ++ new2). rewrite Hf2, <- app_assoc, length_app, Nat.add_assoc.
    split; [reflexivity|]. split; [apply ids_drawn_app; assumption|].
    apply Forall_app. split; assumption.
Qed.

(** What [generate_architecture_from_components] returns, part by
    part. *)
Lemma generate_parts (ids : list string) (scope : Scope) (k : nat) :
  let a := generate_architecture_from_components token ids scope k in
  Derived.ids_drawn token k (nodes a)
  ∧ Forall (λ n, Spec.known (componentId (data n)) = true) (nodes a)
  ∧ edges a = (generate_edges token (nodes a) (k + length (nodes a))).1
  ∧ costEstimate a = Some (CostCalculator.calculate_architecture_cost ids scope)
  ∧ Models.scope a = scope
  ∧ timestamp a = None.
Proof.
  unfold generate_architecture_from_components.
  destruct (place_loop_ids (fold_left layer_step ids ∅)
              (sorted_keys (fold_left layer_step ids ∅)) [] k) as (new & Hf & Hi & Hk).
  rewrite Hf. cbn [app].
  destruct (generate_edges token new (k + length new)) as [es k2] eqn:He.
  cbn [nodes edges costEstimate Models.scope timestamp].
  rewrite He. repeat split; try assumption.
  destruct (CostCalculator.calculate_architecture_cost ids scope). reflexivity.
Qed.

Lemma split_at_dash (a a' t t' : string) :
  Derived.has_char "-" a = false →
  Derived.has_char "-" a' = false →
  a +:+ "-" +:+ t = a' +:+ "-" +:+ t' →
  a = a' ∧ t = t'.
Proof.
  revert a'. induction a as [|x a IH]; intros [|x' a'] Ha Ha' E.
  - change (String "-" t = String "-" t') in E. injection E as ->. split; reflexivity.
  - change (String "-" t = String x' (a' +:+ "-" +:+ t')) in E.
    injection E as <- _. cbn in Ha'. discriminate Ha'.
  - change (String x (a +:+ "-" +:+ t) = String "-" t') in E.
    injection E as -> _. cbn in Ha. discriminate Ha.
  - change (String x (a +:+ "-" +:+ t) = String x' (a' +:+ "-" +:+ t')) in E.
    injection E as -> E. cbn in Ha, Ha'.
    apply orb_false_elim in Ha as [_ Ha]. apply orb_false_elim in Ha' as [_ Ha'].
    destruct (IH a' Ha Ha' E) as [-> ->]. split; reflexivity.
Qed.

Lemma known_no_dash (c : string) : Spec.known c = true → Derived.has_char "-" c = false.
Proof.
  unfold Spec.known. rewrite bool_decide_eq_true. intros [comp Hc].
  apply find_some in Hc as [Hin Hid]. apply bool_decide_eq_true_1 in Hid. subst c.
  assert (Hall : Forall (λ comp, Derived.has_char "-" (id comp) = false) COMPONENTS)
    by (apply (bool_decide_unpack _); vm_compute; exact I).
  rewrite Forall_forall in Hall. apply Hall, list_elem_of_In, Hin.
Qed.

(** Distinct tokens among the [n] drawn from the [k]-th on. *)
Lemma drawn_inj (k n i j : nat) :
  NoDup (map token (seq k n)) → i < n → j < n → token (k + i) = token (k + j) → i = j.
Proof.
  intros Hnd Hi Hj E.
  apply (proj1 (NoDup_alt _) Hnd i j (token (k + i))).
  - rewrite list_lookup_fmap, lookup_seq_lt by exact Hi. reflexivity.
  - rewrite list_lookup_fmap, lookup_seq_lt by exact Hj. rewrite E. reflexivity.
Qed.

Lemma NoDup_seq_prefix (k n m : nat) :
  NoDup (map token (seq k (n + m))) →
  NoDup (map token (seq k n)) ∧ NoDup (map token (seq (k + n) m)).
Proof.
  rewrite seq_app, map_app. intros H. apply NoDup_app in H as (H1 & _ & H2).
  split; assumption.
Qed.

(** X12: identifiers are as distinct as the tokens drawn.  A node
    identifier is the component identifier, a dash and a token, an edge
    identifier is ["e"] and a token; the nodes take the tokens from
    the [k]-th on, the edges the following ones.  When the tokens drawn
    by the call are pairwise distinct, no two nodes and no two edges
    of the generated architecture share an identifier. *)
Theorem generated_ids_distinct (ids : list string) (scope : Scope) (k : nat) :
  let a := generate_architecture_from_components token ids scope k in
  let drawn := map token (seq k (length (nodes a) + length (edges a))) in
  (∀ j n, nodes a !! j = Some n →
          node_id n = componentId (data n) +:+ "-" +:+ token (k + j))
  ∧ (∀ j e, edges a !! j = Some e →
            edge_id e = "e" +:+ token (k + length (nodes a) + j))
  ∧ (NoDup drawn →
     NoDup (map node_id (nodes a)) ∧ NoDup (map edge_id (edges a))).
Proof.
  intros a drawn. destruct (generate_parts ids scope k) as (Hi & Hk & He & _).
  fold a in Hi, Hk, He.
  assert (Hedge : ∀ j e, edges a !! j = Some e →
                         edge_id e = "e" +:+ token (k + length (nodes a) + j)).
  { intros j e Hj. rewrite He, generate_edges_shape in Hj. cbn [fst] in Hj.
    rewrite list_lookup_imap in Hj.
    destruct (_ !! j) as [[[[s1 t1] sh1] th1]|]; [|discriminate Hj].
    injection Hj as <-. reflexivity. }
  split; [exact Hi|]. split; [exact Hedge|].
  intros Hnd. subst drawn. apply NoDup_seq_prefix in Hnd as [Hn He'].
  split.
  - apply NoDup_alt. intros i j x Hx Hy.
    rewrite list_lookup_fmap in Hx, Hy.
    destruct (nodes a !! i) as [n|] eqn:Hni; [|discriminate Hx].
    destruct (nodes a !! j) as [m|] eqn:Hmj; [|discriminate Hy].
    injection Hx as Hx. injection Hy as Hy. rewrite <- Hy in Hx.
    rewrite (Hi _ _ Hni), (Hi _ _ Hmj) in Hx.
    rewrite Forall_forall in Hk.
    apply split_at_dash in Hx as [_ Hx].
    + apply (drawn_inj k (length (nodes a))); [exact Hn| | |exact Hx].
      * apply lookup_lt_Some in Hni. exact Hni.
      * apply lookup_lt_Some in Hmj. exact Hmj.
    + apply known_no_dash, Hk, list_elem_of_lookup. exists i. exact Hni.
    + apply known_no_dash, Hk, list_elem_of_lookup. exists j. exact Hmj.
  - apply NoDup_alt. intros i j x Hx Hy.
    rewrite list_lookup_fmap in Hx, Hy.
    destruct (edges a !! i) as [e1|] eqn:H1; [|discriminate Hx].
    destruct (edges a !! j) as [e2|] eqn:H2; [|discriminate Hy].
    injection Hx as Hx. injection Hy as Hy. rewrite <- Hy in Hx.
    rewrite (Hedge _ _ H1), (Hedge _ _ H2) in Hx.
    apply (String.app_inj "e") in Hx.
    apply (drawn_inj (k + length (nodes a)) (length (edges a))); [exact He'| | |exact Hx].
    + apply lookup_lt_Some in H1. exact H1.
    + apply lookup_lt_Some in H2. exact H2.
Qed.

End GenerateMoreFacts.

Section LayoutFacts.
Import Catalog Models ArchitectureService.
Variable token : nat → string.

(** The positions of the nodes: column by column. *)
Lemma layer_range (i : string) (l : Z) : Spec.layer_of i = Some l → (0 <= l <= 6)%Z.
Proof.
  unfold Spec.layer_of. destruct (get_component_by_id i) as [c|]; [|discriminate].
  cbn [fmap option_fmap option_map]. intros E. injection E as <-.
  unfold Py.dict_get, CATEGORY_LAYERS. cbn [List.find fst snd].
  repeat (case_bool_decide; [cbn [snd]; lia|]). cbn [snd]. lia.
Qed.

Lemma column_sorted (l : Z) {A} (comps : list A) (off : nat) :
  StronglySorted Derived.before
    (imap (λ i _, calculate_node_position l (off + i)) comps).
Proof.
  revert off. induction comps as [|c comps IH]; intros off; [constructor|].
  cbn [imap]. apply StronglySorted_cons. split.
  - apply Forall_lookup. intros i p Hp. rewrite list_lookup_imap in Hp.
    destruct (comps !! i); [|discriminate Hp]. injection Hp as <-.
    right. split; [reflexivity|]. cbn. rewrite <- Zlt_Qlt.
    unfold START_Y, VERTICAL_SPACING. lia.
  - rewrite (imap_ext _ (λ i _, calculate_node_position l (S off + i))).
    + apply IH.
    + intros i x _. cbn. do 3 f_equal. lia.
Qed.

Lemma keys_strictly_sorted (m : gmap Z (list string)) : StronglySorted Z.lt (sorted_keys m).
Proof.
  pose proof (sorted_keys_NoDup m) as Hnd.
  assert (Hs : StronglySorted Z.le (sorted_keys m))
    by (unfold sorted_keys; apply StronglySorted_merge_sort; apply _).
  induction Hs as [|a l Hs IH Hall]; [constructor|].
  apply NoDup_cons in Hnd as [Ha Hnd]. constructor; [apply IH, Hnd|].
  rewrite Forall_forall in Hall |- *. intros b Hb.
  specialize (Hall b Hb). assert (a ≠ b) by (intros ->; contradiction). lia.
Qed.

(** X13: the layout runs left to right and top to bottom.  Along the node
    list of a generated architecture every node comes before all later
    ones (a column further left, or the same column and higher up); so
    no two nodes share a position; and every node sits in one of the
    columns 0 to 6, at x = 100 + 300 * column and y = 100 + 150 * row. *)
Theorem layout_order (ids : list string) (scope : Scope) (k : nat) :
  let a := generate_architecture_from_components token ids scope k in
  StronglySorted Derived.before (map position (nodes a))
  ∧ NoDup (map position (nodes a))
  ∧ Forall (λ p, ∃ column row,
                 (0 <= column <= 6)%Z ∧ row < length ids
                 ∧ p = {| x := inject_Z (100 + 300 * column);
                          y := inject_Z (100 + 150 * Z.of_nat row) |})
           (map position (nodes a)).
Proof.
  intros a.
  assert (Hsorted : StronglySorted Derived.before (map position (nodes a))).
  { subst a. rewrite generate_positions.
    pose proof (keys_strictly_sorted (fold_left layer_step ids ∅)) as Hk.
    induction Hk as [|l keys Hk IH Hall]; [constructor|].
    rewrite bind_cons. apply StronglySorted_app_2.
    - intros p q Hp Hq. apply list_elem_of_bind in Hq as (l' & Hq & Hl').
      rewrite Forall_forall in Hall. specialize (Hall l' Hl').
      apply list_elem_of_lookup in Hp as [i Hp], Hq as [j Hq].
      rewrite list_lookup_imap in Hp, Hq.
      destruct (_ !! i); [|discriminate Hp]. destruct (_ !! j); [|discriminate Hq].
      injection Hp as <-. injection Hq as <-.
      left. cbn. rewrite <- Zlt_Qlt. unfold START_X, HORIZONTAL_SPACING. lia.
    - apply (column_sorted l _ 0).
    - exact IH. }
  split; [exact Hsorted|]. split.
  - clear -Hsorted. induction Hsorted as [|p l Hs IH Hall]; [constructor|].
    apply NoDup_cons. split; [|exact IH].
    intros Hin. rewrite Forall_forall in Hall. specialize (Hall p Hin).
    destruct Hall as [Hlt|[_ Hlt]]; exact (Qlt_irrefl _ Hlt).
  - subst a. rewrite generate_positions. apply Forall_forall. intros p Hp.
    apply list_elem_of_bind in Hp as (l & Hp & _).
    apply list_elem_of_lookup in Hp as [i Hp]. rewrite list_lookup_imap in Hp.
    destruct (filter _ ids !! i) as [c|] eqn:Hc; [|discriminate Hp]. injection Hp as <-.
    exists l, i. split; [|split].
    + apply (layer_range c). apply list_elem_of_lookup_2 in Hc.
      apply list_elem_of_filter in Hc as [Hc _]. exact Hc.
    + apply lookup_lt_Some in Hc. pose proof (length_filter (λ i, Spec.layer_of i = Some l) ids). lia.
    + unfold calculate_node_position, START_X, START_Y, HORIZONTAL_SPACING, VERTICAL_SPACING.
      do 2 f_equal; lia.
Qed.

(** X14: nodes and cost entries go together: a generated architecture
    carries the cost estimate of its input, with as many breakdown
    entries as nodes, for the same components. *)
Theorem nodes_match_breakdown (ids : list string) (scope : Scope) (k : nat) :
  let a := generate_architecture_from_components token ids scope k in
  let cost := CostCalculator.calculate_architecture_cost ids scope in
  costEstimate a = Some cost
  ∧ map cb_componentId (breakdown cost) ≡ₚ map (λ n, componentId (data n)) (nodes a)
  ∧ length (breakdown cost) = length (nodes a).
Proof.
  intros a cost.
  assert (Hids : map cb_componentId (breakdown cost) = filter (λ i, Spec.known i = true) ids).
  { subst cost. unfold CostCalculator.calculate_architecture_cost.
    destruct (cost_loop scope ids [] 0.0%Q) as (new & Hf & _ & Hids).
    rewrite Hf. exact Hids. }
  assert (Hperm : map cb_componentId (breakdown cost)
                  ≡ₚ map (λ n, componentId (data n)) (nodes a)).
  { rewrite Hids. symmetry. apply generate_components. }
  split; [|split; [exact Hperm|]].
  - subst a cost. unfold generate_architecture_from_components.
    destruct (fold_left (place_layer token _) _ _) as [ns k1].
    destruct (generate_edges token ns k1) as [es k2].
    destruct (CostCalculator.calculate_architecture_cost ids scope). reflexivity.
  - apply Permutation_length in Hperm. rewrite !length_map in Hperm. exact Hperm.
Qed.

End LayoutFacts.

Section CarbonMoreFacts.
Import Models CarbonService.
Local Open Scope Q_scope.

Variable log10 : Z → Q.
Variable calculate_costs_total : list Node → Scope → Q.
Variable uuid4 : string.
Variable utcnow : Z.

Lemma carbon_loop_entries (ci tm um : Q) (ns : list Node) bd te tc :
  fold_left (carbon_step ci tm um) ns (bd, te, tc)
  = (bd ++ map (Derived.carbon_entry ci tm um) ns,
     fold_left (λ acc n, acc + Spec.node_energy tm um n) ns te,
     fold_left (λ acc n, acc + Derived.node_carbon ci tm um n) ns tc).
Proof.
  revert bd te tc. induction ns as [|n ns IH]; intros bd te tc; cbn [fold_left map].
  - rewrite app_nil_r. reflexivity.
  - unfold carbon_step at 2. rewrite IH, <- app_assoc. reflexivity.
Qed.

(** The report in full, when there is one. *)
Lemma report_parts (a : ArchitectureJson) (region : string) (uid : option string) :
  generate_report log10 calculate_costs_total uuid4 utcnow a region uid
  = if (users (scope a) + 1 <=? 0)%Z then None
    else
      let ci := Spec.intensity region in
      let tm := Derived.traffic_mul (scope a) in
      let um := Derived.user_mul log10 (scope a) in
      Some {| report_id := Some uuid4;
              architecture_json := a;
              metrics :=
                {| energy_kwh :=
                     Py.round (fold_left (λ acc n, acc + Spec.node_energy tm um n)
                                         (nodes a) 0.0) 4;
                   carbon_kg :=
                     Py.round (fold_left (λ acc n, acc + Derived.node_carbon ci tm um n)
                                         (nodes a) 0.0) 4;
                   carbon_intensity := ci;
                   region := region;
                   cost_usd := Py.round (calculate_costs_total (nodes a) (scope a)) 2 |};
              component_breakdown := map (Derived.carbon_entry ci tm um) (nodes a);
              created_at := utcnow;
              user_id := uid |}.
Proof.
  unfold generate_report.
  change (Py.dict_item REGION_CARBON_INTENSITY "default") with (Some 400.0).
  cbn iota beta. destruct (users (scope a) + 1 <=? 0)%Z; [reflexivity|].
  rewrite carbon_loop_entries. reflexivity.
Qed.

(** X15: a carbon report exists exactly for non-negative user counts
    (otherwise [math.log10] raises), whatever the region and the nodes.
    It carries the architecture it was made for and one breakdown entry
    per node, in node order, with the node's component, label and
    category; for an architecture without nodes the energy and the
    carbon are 0. *)
Theorem report_exists_iff (a : ArchitectureJson) (region : string) (uid : option string) :
  (is_Some (generate_report log10 calculate_costs_total uuid4 utcnow a region uid)
   ↔ (0 <= users (scope a))%Z)
  ∧ (∀ r, generate_report log10 calculate_costs_total uuid4 utcnow a region uid = Some r →
          architecture_json r = a
          ∧ CarbonService.region (metrics r) = region
          ∧ map (λ c, (component_id c, component_name c, cc_category c))
                (component_breakdown r)
            = map (λ n, (componentId (data n), label (data n), category (data n)))
                  (nodes a)
          ∧ (nodes a = [] →
             energy_kwh (metrics r) = 0 ∧ carbon_kg (metrics r) = 0
             ∧ component_breakdown r = [])).
Proof.
  rewrite report_parts. split.
  - destruct (Z.leb_spec (users (scope a) + 1) 0).
    + split; [intros [? H0]; discriminate H0|lia].
    + split; [lia|]. intros _. eexists. reflexivity.
  - intros r Hr. destruct (users (scope a) + 1 <=? 0)%Z; [discriminate Hr|].
    injection Hr as <-. cbn [architecture_json metrics CarbonService.region component_breakdown
                             energy_kwh carbon_kg].
    split; [reflexivity|]. split; [reflexivity|]. split.
    + rewrite map_map. reflexivity.
    + intros ->. repeat split.
Qed.

Lemma dict_get_missing {V} (d : list (string * V)) (k : string) (dflt : V) :
  Py.dict_item d k = None → Py.dict_get d k dflt = dflt.
Proof.
  unfold Py.dict_item, Py.dict_get. destruct (List.find _ d); [discriminate|reflexivity].
Qed.

(** X16: the region only sets the carbon intensity.  The energy figures
    and the power draws of a report do not depend on the region; a
    region that is not in the table is given the intensity 400.0 and
    the same carbon figures as the table's "default" entry. *)
Theorem report_region_effect (a : ArchitectureJson) (region1 region2 : string)
    (uid : option string) (r1 r2 : CarbonReport) :
  generate_report log10 calculate_costs_total uuid4 utcnow a region1 uid = Some r1 →
  generate_report log10 calculate_costs_total uuid4 utcnow a region2 uid = Some r2 →
  energy_kwh (metrics r1) = energy_kwh (metrics r2)
  ∧ map cc_energy_kwh (component_breakdown r1) = map cc_energy_kwh (component_breakdown r2)
  ∧ map power_draw_watts (component_breakdown r1)
    = map power_draw_watts (component_breakdown r2)
  ∧ cost_usd (metrics r1) = cost_usd (metrics r2)
  ∧ (Py.dict_item REGION_CARBON_INTENSITY region1 = None →
     region2 = "default" →
     carbon_intensity (metrics r1) = 400.0
     ∧ carbon_kg (metrics r1) = carbon_kg (metrics r2)
     ∧ component_breakdown r1 = component_breakdown r2).
Proof.
  rewrite !report_parts. destruct (users (scope a) + 1 <=? 0)%Z; [discriminate|].
  intros H1 H2. injection H1 as <-. injection H2 as <-.
  cbn [metrics energy_kwh component_breakdown carbon_intensity carbon_kg cost_usd].
  split; [reflexivity|]. split; [rewrite !map_map; reflexivity|].
  split; [rewrite !map_map; reflexivity|]. split; [reflexivity|].
  intros Hmiss ->.
  assert (E : Spec.intensity region1 = Spec.intensity "default").
  { unfold Spec.intensity. rewrite (dict_get_missing _ _ _ Hmiss). reflexivity. }
  rewrite E. repeat split.
Qed.




End CarbonMoreFacts.

(** ** Identifier extraction *)

Section DedupeFacts.
Import GeminiService.

Lemma dedupe_step_eq (seen : gset string) (result : list string) (c : string) :
  dedupe_step (seen, result) c
  = if bool_decide (c ∉ seen) then ({[c]} ∪ seen, result ++ [c]) else (seen, result).
Proof. reflexivity. Qed.

Lemma dedupe_loop (l : list string) (seen : gset string) (result : list string) :
  (∀ x, x ∈ seen ↔ x ∈ result) →
  NoDup result →
  let st := fold_left dedupe_step l (seen, result) in
  (∀ x, x ∈ st.1 ↔ x ∈ st.2)
  ∧ NoDup st.2
  ∧ (∀ x, x ∈ st.2 ↔ x ∈ result ∨ x ∈ l)
  ∧ ∃ kept, st.2 = result ++ kept ∧ kept `sublist_of` l
            ∧ ((∀ x, x ∈ l → x ∉ result) → NoDup l → kept = l).
Proof.
  revert seen result.
  induction l as [|c l IH]; intros seen result Hseen Hnd; cbn [fold_left]; cbn zeta.
  - cbn. split; [exact Hseen|]. split; [exact Hnd|]. split.
    + intros x. rewrite elem_of_nil. tauto.
    + exists []. rewrite app_nil_r. repeat split; constructor.
  - rewrite dedupe_step_eq. case_bool_decide as Hc.
    + assert (Hseen' : ∀ x, x ∈ {[c]} ∪ seen ↔ x ∈ result ++ [c]).
      { intros x. rewrite elem_of_union, elem_of_singleton, elem_of_app,
          list_elem_of_singleton, Hseen. tauto. }
      assert (Hnd' : NoDup (result ++ [c])).
      { apply NoDup_app. split; [exact Hnd|]. split; [|apply NoDup_singleton].
        intros x Hx Hxc. apply list_elem_of_singleton in Hxc. subst x.
        apply Hc, Hseen, Hx. }
      destruct (IH ({[c]} ∪ seen) (result ++ [c]) Hseen' Hnd')
        as (H1 & H2 & H3 & kept & Hk & Hsub & Hall).
      * split; [exact H1|]. split; [exact H2|]. split.
        -- intros x. rewrite H3, elem_of_app, list_elem_of_singleton, elem_of_cons. tauto.
        -- exists (c :: kept). rewrite Hk, <- app_assoc. split; [reflexivity|].
           split; [apply sublist_skip, Hsub|].
           intros Hfresh Hndl. apply NoDup_cons in Hndl as [Hcl Hndl]. f_equal.
           apply Hall; [|exact Hndl]. intros x Hx Hin.
           apply elem_of_app in Hin as [Hin|Hin].
           ++ apply (Hfresh x); [right; exact Hx|exact Hin].
           ++ apply list_elem_of_singleton in Hin. subst x. contradiction.
    + destruct (IH seen result Hseen Hnd) as (H1 & H2 & H3 & kept & Hk & Hsub & Hall).
      split; [exact H1|]. split; [exact H2|]. split.
      * intros x. rewrite H3, elem_of_cons.
        assert (c ∈ result) by (apply Hseen; destruct (decide (c ∈ seen)); [assumption|contradiction]).
        split; [tauto|]. intros [?|[->|?]]; tauto.
      * exists kept. split; [exact Hk|]. split; [apply sublist_cons, Hsub|].
        intros Hfresh _. exfalso. apply (Hfresh c); [left|].
        apply Hseen. destruct (decide (c ∈ seen)); [assumption|contradiction].
Qed.

Lemma dedupe_result_prefix (l : list string) (seen : gset string) (result : list string) :
  (fold_left dedupe_step l (seen, result)).2
  = result ++ (fold_left dedupe_step l (seen, [])).2.
Proof.
  revert seen result. induction l as [|c l IH]; intros seen result; cbn [fold_left].
  - cbn. rewrite app_nil_r. reflexivity.
  - rewrite !dedupe_step_eq. destruct (bool_decide (c ∉ seen)).
    + rewrite (IH _ (result ++ [c])), (IH _ ([] ++ [c])), <- app_assoc. reflexivity.
    + apply IH.
Qed.

Lemma not_in_singleton_union (c y : string) (seen : gset string) :
  y ∉ ({[c]} ∪ seen) ↔ (y ∉ seen) ∧ (y ≠ c).
Proof.
  rewrite elem_of_union, elem_of_singleton. tauto.
Qed.

(** Starting the loop with identifiers already seen filters them out of
    the result. *)
Lemma dedupe_seen (l : list string) (seen : gset string) :
  (fold_left dedupe_step l (seen, [])).2
  = filter (λ y, y ∉ seen) (remove_duplicates l).
Proof.
  revert seen. induction l as [|c l IH]; intros seen; [reflexivity|].
  unfold remove_duplicates. cbn [fold_left]. rewrite !dedupe_step_eq.
  rewrite (bool_decide_true (c ∉ (∅ : gset string)))
    by exact (not_elem_of_empty (C := gset string) c).
  rewrite (dedupe_result_prefix l _ ([] ++ [c])), (IH ({[c]} ∪ ∅)). cbn [app].
  destruct (bool_decide (c ∉ seen)) eqn:Hc.
  - apply bool_decide_eq_true_1 in Hc.
    rewrite (dedupe_result_prefix l _ ([] ++ [c])), (IH ({[c]} ∪ seen)). cbn [app].
    rewrite filter_cons_True by exact Hc. f_equal.
    rewrite list_filter_filter. apply list_filter_iff. intros y.
    rewrite !not_in_singleton_union. pose proof (not_elem_of_empty (C := gset string) y).
    tauto.
  - apply bool_decide_eq_false_1 in Hc.
    rewrite filter_cons_False by exact Hc. rewrite IH, list_filter_filter.
    apply list_filter_iff. intros y. rewrite not_in_singleton_union.
    pose proof (not_elem_of_empty (C := gset string) y).
    split; [|tauto]. intros Hy. split; [exact Hy|]. split; [assumption|].
    intros ->. destruct (decide (c ∈ seen)) as [Hin|Hin]; [exact (Hy Hin)|exact (Hc Hin)].
Qed.

(** The first occurrence is the one kept. *)
Lemma remove_duplicates_cons (c : string) (l : list string) :
  remove_duplicates (c :: l) = c :: filter (λ y, y ≠ c) (remove_duplicates l).
Proof.
  unfold remove_duplicates at 1. cbn [fold_left]. rewrite dedupe_step_eq.
  rewrite (bool_decide_true (c ∉ (∅ : gset string)))
    by exact (not_elem_of_empty (C := gset string) c).
  rewrite (dedupe_result_prefix l _ ([] ++ [c])), dedupe_seen. cbn [app]. f_equal.
  apply list_filter_iff. intros y. rewrite not_in_singleton_union.
  pose proof (not_elem_of_empty (C := gset string) y). tauto.
Qed.

(** X18: removing duplicates keeps the first occurrence of each
    identifier: the head of the input stays at the head and its later
    occurrences are removed from the result for the rest.  So the
    result has no duplicates, the same members as the input and their
    order; a list without duplicates is returned unchanged, and
    removing duplicates twice changes nothing more. *)
Theorem remove_duplicates_spec (l : list string) :
  NoDup (remove_duplicates l)
  ∧ (∀ x, x ∈ remove_duplicates l ↔ x ∈ l)
  ∧ remove_duplicates l `sublist_of` l
  ∧ (NoDup l → remove_duplicates l = l)
  ∧ remove_duplicates (remove_duplicates l) = remove_duplicates l
  ∧ remove_duplicates [] = []
  ∧ (∀ c, remove_duplicates (c :: l)
          = c :: filter (λ y, y ≠ c) (remove_duplicates l)).
Proof.
  assert (Hspec : ∀ l, NoDup (remove_duplicates l)
                       ∧ (∀ x, x ∈ remove_duplicates l ↔ x ∈ l)
                       ∧ remove_duplicates l `sublist_of` l
                       ∧ (NoDup l → remove_duplicates l = l)).
  { intros l0. unfold remove_duplicates.
    assert (H0 : ∀ x : string, x ∈ (∅ : gset string) ↔ x ∈ @nil string).
    { intros x. rewrite elem_of_empty, elem_of_nil. tauto. }
    destruct (dedupe_loop l0 ∅ [] H0 (NoDup_nil_2))
      as (_ & H2 & H3 & kept & Hk & Hsub & Hall).
    split; [exact H2|]. split.
    - intros x. rewrite H3, elem_of_nil. tauto.
    - rewrite Hk. cbn [app]. split; [exact Hsub|].
      intros Hnd. apply Hall; [|exact Hnd]. intros x _. apply not_elem_of_nil. }
  destruct (Hspec l) as (H1 & H2 & H3 & H4).
  split; [exact H1|]. split; [exact H2|]. split; [exact H3|]. split; [exact H4|].
  split; [apply (Hspec (remove_duplicates l)), H1|].
  split; [reflexivity|]. intros c. apply remove_duplicates_cons.
Qed.

Lemma prefix_app (p s : string) :
  String.prefix p s = true ↔ ∃ post, s = p +:+ post.
Proof.
  revert s. induction p as [|a p IH]; intros s.
  - split; [intros _; exists s; reflexivity|intros _; destruct s; reflexivity].
  - destruct s as [|b s]; cbn [String.prefix].
    + split; [discriminate|]. intros [post H]. discriminate H.
    + destruct (Ascii.ascii_dec a b) as [->|Hne].
      * rewrite IH. split; intros [post H]; exists post.
        -- rewrite H. reflexivity.
        -- change (String b s = String b (p +:+ post)) in H. injection H as H. exact H.
      * split; [discriminate|]. intros [post H].
        change (String b s = String a (p +:+ post)) in H. injection H as H _. congruence.
Qed.

(** [contains] is the substring test. *)
Lemma contains_app (needle hay : string) :
  Builtins.contains needle hay = true ↔ ∃ pre post, hay = pre +:+ needle +:+ post.
Proof.
  induction hay as [|b hay IH].
  - cbn [Builtins.contains]. rewrite orb_false_r, prefix_app. split.
    + intros [post H]. exists "", post. exact H.
    + intros (pre & post & H). destruct pre as [|x pre]; [exists post; exact H|].
      discriminate H.
  - cbn [Builtins.contains]. rewrite orb_true_iff, prefix_app, IH. split.
    + intros [[post H]|(pre & post & H)].
      * exists "", post. exact H.
      * exists (String b pre), post. rewrite H. reflexivity.
    + intros (pre & post & H). destruct pre as [|x pre].
      * left. exists post. exact H.
      * right. change (String b hay = String x (pre +:+ needle +:+ post)) in H.
        injection H as _ H. exists pre, post. exact H.
Qed.

End DedupeFacts.

Section ExtractFacts.
Import Catalog Models GeminiService.
Variable lower : string → string.

Lemma mention_loop (text_lower : string) (comps : list Component) (mentioned : list string)
    (text : string) :
  text_lower = lower text →
  fold_left (mention_step lower text_lower) comps mentioned
  = mentioned ++ map id (filter (λ c, Derived.mentions lower text c = true) comps).
Proof.
  intros ->. revert mentioned.
  induction comps as [|c comps IH]; intros mentioned; cbn [fold_left].
  - rewrite app_nil_r. reflexivity.
  - rewrite IH. unfold mention_step, Derived.mentions.
    destruct (Builtins.contains (lower (name c)) (lower text)) eqn:H1.
    + rewrite filter_cons_True by (rewrite H1; reflexivity).
      rewrite <- app_assoc. reflexivity.
    + destruct (Builtins.contains _ (Builtins.strip2 _ _ (lower text))) eqn:H2.
      * rewrite filter_cons_True by (rewrite H1, H2; reflexivity).
        rewrite <- app_assoc. reflexivity.
      * rewrite filter_cons_False by (rewrite H1, H2; discriminate). reflexivity.
Qed.

Lemma catalog_id_known (c : Component) : c ∈ COMPONENTS → Spec.known (id c) = true.
Proof.
  intros Hc. unfold Spec.known. apply bool_decide_eq_true.
  destruct (get_component_by_id (id c)) as [c'|] eqn:H; [eexists; reflexivity|].
  exfalso. unfold get_component_by_id in H.
  apply list_elem_of_In in Hc. pose proof (find_none _ _ H c Hc) as Hf. cbv beta in Hf.
  rewrite bool_decide_true in Hf by reflexivity. discriminate Hf.
Qed.

(** The identifiers extracted from a text, in closed form. *)
Lemma extract_closed_form (text : string) :
  extract_component_ids_from_text lower text
  = map id (filter (λ c, Derived.mentions lower text c = true) COMPONENTS).
Proof.
  unfold extract_component_ids_from_text, get_all_components.
  rewrite (mention_loop (lower text) COMPONENTS [] text eq_refl). cbn [app].
  unfold remove_duplicates.
  assert (H0 : ∀ x : string, x ∈ (∅ : gset string) ↔ x ∈ @nil string).
  { intros x. rewrite elem_of_empty, elem_of_nil. tauto. }
  destruct (dedupe_loop (map id (filter (λ c, Derived.mentions lower text c = true) COMPONENTS))
              ∅ [] H0 NoDup_nil_2) as (_ & _ & _ & kept & Hk & _ & Hall).
  cbn zeta in Hk. rewrite Hk. cbn [app]. apply Hall.
  - intros x _. apply not_elem_of_nil.
  - eapply sublist_NoDup; [exact catalog_ids_NoDup|apply (fmap_sublist id), sublist_filter].
Qed.

Lemma extracted_ids_known (text : string) :
  NoDup (extract_component_ids_from_text lower text)
  ∧ Forall (λ i, Spec.known i = true) (extract_component_ids_from_text lower text).
Proof.
  rewrite extract_closed_form. split.
  - eapply sublist_NoDup; [exact catalog_ids_NoDup|apply (fmap_sublist id), sublist_filter].
  - apply Forall_forall. intros i Hi. apply list_elem_of_fmap in Hi as (c & -> & Hc).
    apply list_elem_of_filter in Hc as [_ Hc]. apply catalog_id_known, Hc.
Qed.

(** X19: the identifiers extracted from a text are those of the catalog
    components the text mentions, in catalog order and each once, so
    every one of them resolves; the duplicate removal at the end finds
    nothing to remove. *)
Theorem extracted_ids_spec (text : string) :
  let ids := extract_component_ids_from_text lower text in
  NoDup ids
  ∧ ids `sublist_of` map id get_all_components
  ∧ Forall (λ i, Spec.known i = true) ids
  ∧ (∀ c, c ∈ get_all_components →
          (id c ∈ ids ↔ Derived.mentions lower text c = true))
  ∧ ids = fold_left (mention_step lower (lower text)) get_all_components [].
Proof.
  intros ids. subst ids. rewrite extract_closed_form. unfold get_all_components.
  assert (Hsub : map id (filter (λ c, Derived.mentions lower text c = true) COMPONENTS)
                 `sublist_of` map id COMPONENTS) by apply (fmap_sublist id), sublist_filter.
  split; [eapply sublist_NoDup; [exact catalog_ids_NoDup|exact Hsub]|].
  split; [exact Hsub|]. split; [|split].
  - apply Forall_forall. intros i Hi. apply list_elem_of_fmap in Hi as (c & -> & Hc).
    apply list_elem_of_filter in Hc as [_ Hc]. apply catalog_id_known, Hc.
  - intros c Hc. split.
    + intros Hi. apply list_elem_of_fmap in Hi as (c' & E & Hc').
      apply list_elem_of_filter in Hc' as [Hm Hc'].
      assert (c = c') as ->; [|exact Hm].
      clear -E Hc Hc'. pose proof catalog_ids_NoDup as Hnd.
      induction COMPONENTS as [|x l IH]; [inversion Hc|].
      cbn [map] in Hnd. apply NoDup_cons in Hnd as [Hx Hnd].
      apply elem_of_cons in Hc as [->|Hc]; apply elem_of_cons in Hc' as [->|Hc'].
      * reflexivity.
      * exfalso. apply Hx. rewrite E. apply (list_elem_of_fmap_2 id), Hc'.
      * exfalso. apply Hx. rewrite <- E. apply (list_elem_of_fmap_2 id), Hc.
      * apply IH; assumption.
    + intros Hm. apply (list_elem_of_fmap_2 id). apply list_elem_of_filter. split; assumption.
  - rewrite (mention_loop (lower text) COMPONENTS [] text eq_refl). reflexivity.
Qed.

(** X20: an architecture generated from a text has one node per component
    mentioned: as many nodes as extracted identifiers, for the same
    components, none twice, and one cost entry for each. *)
Theorem generate_from_text (token : nat → string) (text : string)
    (scope : Scope) (k : nat) :
  let ids := extract_component_ids_from_text lower text in
  let a := ArchitectureService.generate_architecture_from_components token ids scope k in
  map (λ n, componentId (data n)) (nodes a) ≡ₚ ids
  ∧ NoDup (map (λ n, componentId (data n)) (nodes a))
  ∧ length (nodes a) = length ids
  ∧ map cb_componentId
        (breakdown (CostCalculator.calculate_architecture_cost ids scope)) = ids.
Proof.
  intros ids a.
  assert (Hknown : filter (λ i, Spec.known i = true) ids = ids).
  { destruct (extracted_ids_known text) as [_ Hall]. fold ids in Hall.
    clear -Hall. induction Hall as [|i l Hi _ IH]; [reflexivity|].
    rewrite filter_cons_True by exact Hi. rewrite IH. reflexivity. }
  assert (Hperm : map (λ n, componentId (data n)) (nodes a) ≡ₚ ids).
  { subst a. etransitivity; [apply generate_components|]. rewrite Hknown. reflexivity. }
  split; [exact Hperm|]. split; [|split].
  - rewrite Hperm. apply (extracted_ids_known text).
  - rewrite <- (length_map (λ n, componentId (data n))). rewrite Hperm. reflexivity.
  - unfold CostCalculator.calculate_architecture_cost.
    destruct (cost_loop scope ids [] 0.0%Q) as (new & Hf & _ & Hids).
    rewrite Hf. cbn [breakdown app]. rewrite Hids. exact Hknown.
Qed.

End ExtractFacts.

(** ** The sustainability score *)

Section ScoreFacts.
Import Float IncentiveService.
Local Open Scope Q_scope.

Lemma min_cases (a b : Q) :
  (b < a ∧ Builtins.min a b = b) ∨ (a <= b ∧ Builtins.min a b = a).
Proof.
  unfold Builtins.min. destruct (Qcompare_spec b a) as [E|L|G].
  - right. split; [rewrite E; apply Qle_refl|reflexivity].
  - left. split; [exact L|reflexivity].
  - right. split; [apply Qlt_le_weak, G|reflexivity].
Qed.

Lemma min_mono (a b b' : Q) : b <= b' → Builtins.min a b <= Builtins.min a b'.
Proof.
  intros L. destruct (min_cases a b) as [[H ->]|[H ->]];
    destruct (min_cases a b') as [[H' ->]|[H' ->]]; lra.
Qed.

Lemma int_nonneg (x : Q) : 0 <= x → (0 <= Builtins.int x)%Z.
Proof.
  intros H. unfold Builtins.int.
  assert (Hn : (0 <= Qnum x)%Z) by (unfold Qle in H; simpl in H; lia).
  apply Z.leb_le in Hn. rewrite Hn.
  change 0%Z with (Qfloor 0). apply Qfloor_resp_le, H.
Qed.

Lemma int_mono_nonneg (x y : Q) : 0 <= x → x <= y → (Builtins.int x <= Builtins.int y)%Z.
Proof.
  intros Hx L. unfold Builtins.int.
  assert (Hn : (0 <= Qnum x)%Z) by (unfold Qle in Hx; simpl in Hx; lia).
  assert (Hm : (0 <= Qnum y)%Z).
  { assert (Hy : 0 <= y) by lra. unfold Qle in Hy; simpl in Hy; lia. }
  apply Z.leb_le in Hn, Hm. rewrite Hn, Hm. apply Qfloor_resp_le, L.
Qed.

(** The threshold is far above every score and point count. *)
Lemma overflow_big : 1000 < Float.overflow.
Proof. reflexivity. Qed.

Lemma of_Q_fin (q : Q) : - Float.overflow < q → q < Float.overflow → of_Q q = Fin q.
Proof.
  intros L U. unfold of_Q.
  destruct (Py.leb Float.overflow q) eqn:E1; [apply leb_le in E1; exfalso; lra|].
  destruct (Py.leb q (- Float.overflow)) eqn:E2; [apply leb_le in E2; exfalso; lra|].
  reflexivity.
Qed.

Lemma of_Q_pos (q : Q) :
  0 < q →
  (q < Float.overflow ∧ of_Q q = Fin q) ∨ (Float.overflow <= q ∧ of_Q q = PInf).
Proof.
  intros Hq. pose proof overflow_big as Hb. unfold of_Q.
  destruct (Py.leb Float.overflow q) eqn:E1.
  - apply leb_le in E1. right. split; [exact E1|reflexivity].
  - assert (Hlt : ¬ Float.overflow <= q) by (rewrite <- leb_le, E1; discriminate).
    destruct (Py.leb q (- Float.overflow)) eqn:E2; [apply leb_le in E2; exfalso; lra|].
    left. split; [lra|reflexivity].
Qed.

Lemma of_Q_nonpos (q : Q) :
  q <= 0 → of_Q q = Fin q ∨ of_Q q = NInf.
Proof.
  intros Hq. pose proof overflow_big as Hb. unfold of_Q.
  destruct (Py.leb Float.overflow q) eqn:E1; [apply leb_le in E1; exfalso; lra|].
  destruct (Py.leb q (- Float.overflow)); [right|left]; reflexivity.
Qed.

Lemma ltb_0_of_Q (q : Q) : Float.ltb (Fin 0) (of_Q q) = Py.ltb 0 q.
Proof.
  pose proof overflow_big as Hb.
  destruct (Py.ltb 0 q) eqn:E.
  - apply ltb_lt in E. destruct (of_Q_pos q E) as [[_ ->]|[_ ->]]; [|reflexivity].
    apply ltb_lt, E.
  - assert (Hq : q <= 0).
    { destruct (Qlt_le_dec 0 q) as [H|H]; [|exact H].
      apply ltb_lt in H. rewrite H in E. discriminate E. }
    destruct (of_Q_nonpos q Hq) as [-> | ->]; [|reflexivity]. exact E.
Qed.

Lemma scale_pos (inf : Float.t) (a : Q) : 0 < a → Float.scale inf a = inf.
Proof.
  intros H. unfold Float.scale.
  destruct (Qcompare_spec 0 a) as [E|L|G]; [exfalso; lra|reflexivity|exfalso; lra].
Qed.

Lemma div_pos_some (a p : Q) :
  0 < p → Float.div (Fin a) (Fin p) = Some (of_Q (a / p)).
Proof.
  intros Hp. unfold Float.div.
  destruct (Qeq_bool p 0) eqn:E; [apply Qeq_bool_eq in E; exfalso; lra|reflexivity].
Qed.

Lemma div_inf_pos (inf : Float.t) (p : Q) :
  0 < p → inf = PInf ∨ inf = NInf → Float.div inf (Fin p) = Some inf.
Proof.
  intros Hp Hinf. unfold Float.div.
  destruct (Qeq_bool p 0) eqn:E; [apply Qeq_bool_eq in E; exfalso; lra|].
  destruct Hinf as [-> | ->]; rewrite scale_pos by exact Hp; reflexivity.
Qed.

(** The guard [if previous_carbon_kg and previous_carbon_kg > 0]. *)
Lemma previous_guard (previous : Q) :
  negb (Qeq_bool previous 0) && Py.ltb 0 previous = true ↔ 0 < previous.
Proof.
  rewrite andb_true_iff, ltb_lt. split; [tauto|]. intros H. split; [|exact H].
  destruct (Qeq_bool previous 0) eqn:E; [|reflexivity].
  apply Qeq_bool_eq in E. exfalso. lra.
Qed.

Lemma previous_guard_false (previous : Q) :
  negb (Qeq_bool previous 0) && Py.ltb 0 previous = false ↔ previous <= 0.
Proof.
  split.
  - intros E. destruct (Qlt_le_dec 0 previous) as [H|H]; [|exact H].
    apply previous_guard in H. rewrite H in E. discriminate E.
  - intros H. destruct (negb _ && _) eqn:E; [|reflexivity].
    apply previous_guard in E. exfalso. lra.
Qed.

(** The exact reduction in percent has the sign of the difference, and
    goes down when the current emissions go up. *)
Lemma reduction_sign (previous current : Q) :
  0 < previous →
  (0 < Derived.reduction_pct previous current ↔ current < previous).
Proof.
  intros Hp. unfold Derived.reduction_pct, Qdiv.
  pose proof (Qinv_lt_0_compat _ Hp) as Hi.
  set (ip := / previous) in *. split; intros H; nra.
Qed.

Lemma reduction_mono (previous c1 c2 : Q) :
  0 < previous → c1 <= c2 →
  Derived.reduction_pct previous c2 <= Derived.reduction_pct previous c1.
Proof.
  intros Hp L. unfold Derived.reduction_pct, Qdiv.
  pose proof (Qinv_lt_0_compat _ Hp) as Hi.
  set (ip := / previous) in *. nra.
Qed.

Lemma reduction_at_most_100 (previous current : Q) :
  0 < previous → 0 <= current → Derived.reduction_pct previous current <= 100.
Proof.
  intros Hp Hc. unfold Derived.reduction_pct, Qdiv.
  assert (E : previous * / previous == 1) by (field; lra).
  pose proof (Qinv_lt_0_compat _ Hp) as Hi.
  set (ip := / previous) in *. nra.
Qed.

(** The float [reduction_pct] of the code: the exact value, or an
    infinity of its sign where a step overflows. *)
Lemma reduction_float (previous current : Q) :
  0 < previous →
  ∃ ratio,
    Float.div (Float.sub (Fin previous) (Fin current)) (Fin previous) = Some ratio
    ∧ Float.ltb (Fin 0) (Float.mul ratio (Fin 100))
      = Py.ltb 0 (Derived.reduction_pct previous current)
    ∧ (current < previous →
       (previous - current < Float.overflow
        ∧ Derived.reduction_pct previous current < Float.overflow
        ∧ Float.sub (Fin previous) (Fin current) = Fin (previous - current)
        ∧ Float.mul ratio (Fin 100) = Fin (Derived.reduction_pct previous current))
       ∨ ((Float.overflow <= previous - current
           ∨ Float.overflow <= Derived.reduction_pct previous current)
          ∧ Float.mul ratio (Fin 100) = PInf)).
Proof.
  intros Hp. pose proof overflow_big as Hb.
  pose proof (Qinv_lt_0_compat _ Hp) as Hi.
  unfold Float.sub, Float.neg, Float.add. fold (Qminus previous current).
  unfold Derived.reduction_pct.
  set (d := previous - current) in *.
  destruct (Qlt_le_dec 0 d) as [Hd|Hd].
  - (* a reduction *)
    assert (Hq : 0 < d / previous) by (unfold Qdiv; set (ip := / previous) in *; nra).
    destruct (of_Q_pos d Hd) as [[Hd1 ->]|[Hd1 ->]].
    + rewrite (div_pos_some d previous Hp). eexists. split; [reflexivity|].
      destruct (of_Q_pos _ Hq) as [[Hq1 ->]|[Hq1 ->]].
      * cbn [Float.mul]. rewrite ltb_0_of_Q. split; [reflexivity|]. intros _.
        assert (He : 0 < d / previous * 100) by lra.
        destruct (of_Q_pos _ He) as [[He1 ->]|[He1 ->]].
        -- left. repeat split; assumption.
        -- right. split; [right; exact He1|reflexivity].
      * cbn [Float.mul]. rewrite scale_pos by reflexivity. cbn [Float.ltb].
        split; [symmetry; apply ltb_lt; lra|]. intros _.
        right. split; [right; lra|reflexivity].
    + rewrite (div_inf_pos PInf previous Hp) by (left; reflexivity).
      eexists. split; [reflexivity|].
      cbn [Float.mul]. rewrite scale_pos by reflexivity. cbn [Float.ltb].
      split; [symmetry; apply ltb_lt; lra|]. intros _.
      right. split; [left; exact Hd1|reflexivity].
  - (* no reduction *)
    assert (Hq : d / previous <= 0) by (unfold Qdiv; set (ip := / previous) in *; nra).
    assert (Hneg : Py.ltb 0 (d / previous * 100) = false).
    { destruct (Py.ltb 0 (d / previous * 100)) eqn:E; [|reflexivity].
      apply ltb_lt in E. exfalso. lra. }
    rewrite Hneg.
    assert (Hcur : ¬ current < previous) by (subst d; lra).
    destruct (of_Q_nonpos d Hd) as [-> | ->].
    + rewrite (div_pos_some d previous Hp). eexists. split; [reflexivity|].
      split; [|intros H; contradiction].
      destruct (of_Q_nonpos _ Hq) as [-> | ->].
      * cbn [Float.mul]. rewrite ltb_0_of_Q. exact Hneg.
      * cbn [Float.mul]. rewrite scale_pos by reflexivity. reflexivity.
    + rewrite (div_inf_pos NInf previous Hp) by (right; reflexivity).
      eexists. split; [reflexivity|]. split; [|intros H; contradiction].
      cbn [Float.mul]. rewrite scale_pos by reflexivity. reflexivity.
Qed.

Lemma Qeq_eq_round (x y : Q) (n : nat) : x == y → Py.round x n == Py.round y n.
Proof. intros E. rewrite (round_comp x y n E). reflexivity. Qed.

Lemma min_fin (a b : Q) : Float.min (Fin a) (Fin b) = Fin (Builtins.min a b).
Proof.
  unfold Float.min, Float.ltb, Py.ltb, Builtins.min.
  destruct (b ?= a); reflexivity.
Qed.

(** What the carbon part does, case by case: nothing without a
    reduction; the exact scoring when no step overflows; an exception
    when one does. *)
Lemma carbon_part_cases (current : Q) (previous : option Q) (a : acc) (s : Q) :
  a_score a = Fin s → - Float.overflow < s → s + 60 < Float.overflow →
  ((∀ p, previous = Some p → 0 < p → p <= current)
   ∧ carbon_part current previous a = Some a)
  ∨ (∃ p, previous = Some p ∧ 0 < p ∧ current < p
          ∧ ((p - current < Float.overflow
              ∧ Derived.reduction_pct p current * 5 < Float.overflow
              ∧ ∃ a', carbon_part current previous a = Some a'
                      ∧ a_score a'
                        = Fin (s + Builtins.min 60 (Derived.reduction_pct p current * 1.2))
                      ∧ a_green_points a'
                        = (a_green_points a
                           + Builtins.int (Derived.reduction_pct p current * 5))%Z
                      ∧ a_carbon_saved a' = Fin (p - current)
                      ∧ a_energy_saved a' = of_Q ((p - current) * 2.5))
             ∨ ((Float.overflow <= p - current
                 ∨ Float.overflow <= Derived.reduction_pct p current * 5)
                ∧ carbon_part current previous a = None))).
Proof.
  intros Hs Hlo Hhi. pose proof overflow_big as Hb.
  destruct previous as [p|]; [|left; split; [intros p H; discriminate H|reflexivity]].
  unfold carbon_part.
  destruct (negb (Qeq_bool p 0) && Py.ltb 0 p) eqn:G.
  2:{ left. apply previous_guard_false in G. split; [|reflexivity].
      intros p' E Hp'. injection E as <-. exfalso. lra. }
  apply previous_guard in G.
  destruct (reduction_float p current G) as (ratio & -> & Htest & Hval).
  cbv zeta. rewrite Htest.
  destruct (Py.ltb 0 (Derived.reduction_pct p current)) eqn:R.
  2:{ left. split; [|reflexivity]. intros p' E _. injection E as <-.
      destruct (Qlt_le_dec current p) as [H|H]; [|exact H].
      apply (reduction_sign p current G), ltb_lt in H. rewrite H in R. discriminate R. }
  apply ltb_lt in R. pose proof (proj1 (reduction_sign p current G) R) as Hcur.
  right. exists p. split; [reflexivity|]. split; [exact G|]. split; [exact Hcur|].
  set (e := Derived.reduction_pct p current) in *.
  destruct (Hval Hcur) as [(Hd & He & Hsub & ->)|[Hov ->]].
  - cbn [Float.mul].
    assert (He5 : 0 < e * 5) by lra.
    destruct (of_Q_pos _ He5) as [[H5 E5]|[H5 E5]]; rewrite E5; cbn [Float.int].
    + left. split; [exact Hd|]. split; [exact H5|]. eexists. split; [reflexivity|].
      cbn [a_score a_green_points a_carbon_saved a_energy_saved].
      rewrite Hs, Hsub. cbn [Float.mul].
      rewrite (of_Q_fin (e * 1.2)) by lra. rewrite min_fin. cbn [Float.add].
      assert (Hm : 0 < Builtins.min 60 (e * 1.2) <= 60).
      { destruct (min_cases 60 (e * 1.2)) as [[H ->]|[H ->]]; lra. }
      rewrite (of_Q_fin (s + _)) by lra.
      repeat split.
    + right. split; [right; exact H5|reflexivity].
  - cbn [Float.mul]. rewrite scale_pos by reflexivity. cbn [Float.int].
    right. split; [|reflexivity].
    destruct Hov as [H|H]; [left; exact H|right; lra].
Qed.

Lemma credited_Some (previous : option Q) (current p : Q) :
  Derived.credited previous current = Some p ↔ previous = Some p ∧ 0 < p ∧ current < p.
Proof.
  unfold Derived.credited. destruct previous as [q|]; [|split; [discriminate|intros [H _]; discriminate H]].
  destruct (Py.ltb 0 q && Py.ltb current q) eqn:E.
  - apply andb_true_iff in E as [E1 E2]. apply ltb_lt in E1, E2. split.
    + intros H. injection H as <-. repeat split; assumption.
    + intros [H _]. exact H.
  - split; [discriminate|]. intros (H & H1 & H2). injection H as ->.
    apply ltb_lt in H1, H2. rewrite H1, H2 in E. discriminate E.
Qed.

Lemma credited_None (previous : option Q) (current : Q) :
  Derived.credited previous current = None
  ↔ ∀ p, previous = Some p → 0 < p → p <= current.
Proof.
  split.
  - intros E p Hp H0. destruct (Qlt_le_dec current p) as [H|H]; [|exact H].
    assert (Hc : Derived.credited previous current = Some p)
      by (apply credited_Some; repeat split; assumption).
    rewrite Hc in E. discriminate E.
  - intros H. destruct (Derived.credited previous current) as [p|] eqn:E; [|reflexivity].
    apply credited_Some in E as (E & H0 & Hc). specialize (H p E H0). exfalso. lra.
Qed.

(** The carbon part in closed form, from the start state. *)
Lemma carbon_part_exact (current : Q) (previous : option Q) :
  (Derived.overflows previous current ∧ carbon_part current previous initial = None)
  ∨ (¬ Derived.overflows previous current
     ∧ ∃ a s, carbon_part current previous initial = Some a
              ∧ a_score a = Fin s
              ∧ s == 15 + Derived.carbon_points previous current
              ∧ a_green_points a = (10 + Derived.carbon_green previous current)%Z
              ∧ a_carbon_saved a = Fin (Derived.carbon_saved previous current)
              ∧ a_energy_saved a = Derived.energy_saved previous current).
Proof.
  pose proof overflow_big as Hb.
  destruct (carbon_part_cases current previous initial 15.0 eq_refl) as
    [[Hno E]|(p & Hp & H0 & Hc & [(Hd & He & a' & E & Hs & Hg & Hsv & Hen)|[Hov E]])];
    [lra|lra| | |].
  - apply credited_None in Hno. right.
    unfold Derived.overflows, Derived.carbon_points, Derived.carbon_green,
      Derived.carbon_saved, Derived.energy_saved. rewrite Hno.
    split; [tauto|]. exists initial, 15.0. split; [exact E|].
    split; [reflexivity|]. split; [lra|]. repeat split.
  - assert (Hcr : Derived.credited previous current = Some p)
      by (apply credited_Some; repeat split; assumption).
    right. unfold Derived.overflows, Derived.carbon_points, Derived.carbon_green,
      Derived.carbon_saved, Derived.energy_saved. rewrite Hcr.
    split; [intros [H|H]; lra|]. exists a'. eexists. split; [exact E|].
    split; [exact Hs|]. split; [lra|]. split; [exact Hg|]. split; assumption.
  - assert (Hcr : Derived.credited previous current = Some p)
      by (apply credited_Some; repeat split; assumption).
    left. unfold Derived.overflows. rewrite Hcr. split; assumption.
Qed.

Lemma region_points_range (i : Q) : (0 <= Derived.region_points i <= 25)%Z.
Proof.
  unfold Derived.region_points.
  destruct (Py.leb i 100); [lia|]. destruct (Py.leb i 250); [lia|].
  destruct (Py.leb i 400); lia.
Qed.

Lemma region_points_antitone (i1 i2 : Q) :
  i1 <= i2 → (Derived.region_points i2 <= Derived.region_points i1)%Z.
Proof.
  intros L. unfold Derived.region_points.
  destruct (Py.leb i1 100) eqn:A1; destruct (Py.leb i1 250) eqn:B1;
    destruct (Py.leb i1 400) eqn:C1;
    destruct (Py.leb i2 100) eqn:A2; destruct (Py.leb i2 250) eqn:B2;
    destruct (Py.leb i2 400) eqn:C2;
    try lia;
    exfalso;
    repeat match goal with
    | H : Py.leb _ _ = true |- _ => apply leb_le in H
    | H : Py.leb ?x ?y = false |- _ =>
        assert (¬ x <= y) by (rewrite <- leb_le, H; discriminate); clear H
    end; lra.
Qed.

Lemma region_part_exact (region : string) (i : Q) (a : acc) (s : Q) :
  a_score a = Fin s → - Float.overflow < s → s + 25 < Float.overflow →
  ∃ s', a_score (region_part region i a) = Fin s'
        ∧ s' == s + inject_Z (Derived.region_points i)
        ∧ a_green_points (region_part region i a)
          = (a_green_points a + Derived.region_points i)%Z
        ∧ a_carbon_saved (region_part region i a) = a_carbon_saved a
        ∧ a_energy_saved (region_part region i a) = a_energy_saved a.
Proof.
  intros Hs Hlo Hhi. unfold region_part, Derived.region_points.
  destruct (Py.leb i 100); [|destruct (Py.leb i 250); [|destruct (Py.leb i 400)]];
    cbn [a_score a_green_points a_carbon_saved a_energy_saved];
    try (rewrite Hs; cbn [Float.add]; rewrite of_Q_fin by lra;
         eexists; split; [reflexivity|]; split; [reflexivity|]; repeat split).
  exists s. split; [exact Hs|]. split; [change (inject_Z 0) with 0; lra|].
  split; [lia|]. split; reflexivity.
Qed.

Lemma bonus_part_exact (region : string) (i : Q) (previous_region : option string) (a : acc) :
  a_score (bonus_part region i previous_region a) = a_score a
  ∧ a_green_points (bonus_part region i previous_region a)
    = (a_green_points a + Derived.region_bonus i previous_region)%Z
  ∧ a_carbon_saved (bonus_part region i previous_region a) = a_carbon_saved a
  ∧ a_energy_saved (bonus_part region i previous_region a) = a_energy_saved a.
Proof.
  unfold bonus_part, Derived.region_bonus, Derived.scoring_intensity.
  destruct previous_region as [p|]; [|repeat split; lia].
  destruct (bool_decide (p = "")); [repeat split; lia|]. cbv zeta.
  destruct (Py.ltb i _); [|repeat split; lia].
  repeat split.
Qed.

Lemma region_bonus_range (i : Q) (previous_region : option string) :
  (0 <= Derived.region_bonus i previous_region <= 15)%Z.
Proof.
  unfold Derived.region_bonus. destruct previous_region as [p|]; [|lia].
  destruct (bool_decide (p = "")); [lia|]. cbv zeta.
  destruct (Py.ltb i _) eqn:L; [|lia]. apply ltb_lt in L.
  set (prev := Derived.scoring_intensity p) in *.
  assert (H : (0 <= Builtins.int ((prev - i) / 20))%Z).
  { apply int_nonneg. unfold Qdiv. assert (0 < / 20) by reflexivity.
    set (iv := / 20) in *. nra. }
  lia.
Qed.

Lemma region_bonus_antitone (i1 i2 : Q) (previous_region : option string) :
  i1 <= i2 →
  (Derived.region_bonus i2 previous_region <= Derived.region_bonus i1 previous_region)%Z.
Proof.
  intros L. unfold Derived.region_bonus. destruct previous_region as [p|]; [|lia].
  destruct (bool_decide (p = "")); [lia|]. cbv zeta.
  set (prev := Derived.scoring_intensity p).
  assert (Hdiv : ∀ x y, x <= y → x / 20 <= y / 20).
  { intros x y H. unfold Qdiv. assert (0 < / 20) by reflexivity.
    set (i := / 20) in *. nra. }
  assert (Hpos : ∀ x, 0 <= x → 0 <= x / 20).
  { intros x H. unfold Qdiv. assert (0 < / 20) by reflexivity.
    set (i := / 20) in *. nra. }
  destruct (Py.ltb i2 prev) eqn:L2; destruct (Py.ltb i1 prev) eqn:L1.
  - apply ltb_lt in L1, L2.
    assert (Builtins.int ((prev - i2) / 20) <= Builtins.int ((prev - i1) / 20))%Z.
    { apply int_mono_nonneg; [|apply Hdiv; lra]. apply Hpos. lra. }
    lia.
  - apply ltb_lt in L2. assert (¬ i1 < prev) by (rewrite <- ltb_lt, L1; discriminate).
    exfalso. lra.
  - apply ltb_lt in L1.
    assert (0 <= Builtins.int ((prev - i1) / 20))%Z.
    { apply int_nonneg, Hpos. lra. }
    lia.
  - lia.
Qed.

Lemma carbon_points_range (previous : option Q) (current : Q) :
  0 <= Derived.carbon_points previous current <= 60.
Proof.
  unfold Derived.carbon_points.
  destruct (Derived.credited previous current) as [p|] eqn:E; [|lra].
  apply credited_Some in E as (_ & H0 & Hc).
  apply (reduction_sign p current H0) in Hc.
  destruct (min_cases 60 (Derived.reduction_pct p current * 1.2)) as [[H ->]|[H ->]]; lra.
Qed.

(** The whole function in closed form: an exception exactly when a
    step of the carbon part overflows, and else the exact scoring. *)
Lemma score_exact (current : Q) (previous : option Q) (region : string)
    (previous_region : option string) :
  (Derived.overflows previous current
   ∧ calculate_sustainability_score current previous region previous_region = None)
  ∨ (¬ Derived.overflows previous current
     ∧ ∃ sc x,
         calculate_sustainability_score current previous region previous_region = Some sc
         ∧ score sc = Fin x
         ∧ x == Py.round (15 + Derived.carbon_points previous current
                          + inject_Z (Derived.region_points
                                        (Derived.scoring_intensity region))) 1
         ∧ 15 <= x <= 100
         ∧ green_points sc
           = (10 + Derived.carbon_green previous current
              + Derived.region_points (Derived.scoring_intensity region)
              + Derived.region_bonus (Derived.scoring_intensity region) previous_region)%Z
         ∧ carbon_saved_kg sc = Fin (Py.round (Derived.carbon_saved previous current) 4)
         ∧ energy_saved_kwh sc
           = Float.round (Derived.energy_saved previous current) 4).
Proof.
  pose proof overflow_big as Hb.
  unfold calculate_sustainability_score.
  destruct (carbon_part_exact current previous) as
    [[Hov ->]|(Hno & a & s & -> & Hs & Hsv & Hg & Hc & He)]; [left; split; [exact Hov|reflexivity]|].
  right. split; [exact Hno|]. cbv zeta.
  fold (Derived.scoring_intensity region).
  set (i := Derived.scoring_intensity region).
  pose proof (carbon_points_range previous current) as Hcp.
  destruct (region_part_exact region i a s Hs) as (s' & Hs' & Hsv' & Hg' & Hc' & He');
    [lra|lra|].
  destruct (bonus_part_exact region i previous_region (region_part region i a))
    as (Hs2 & Hg2 & Hc2 & He2).
  rewrite Hs2, Hg2, Hc2, He2, Hs', Hg', Hc', He', Hg, Hc, He.
  cbn [Float.round]. rewrite min_fin.
  pose proof (region_points_range i) as Hr.
  assert (Hr' : 0 <= inject_Z (Derived.region_points i) <= 25).
  { split; [change 0 with (inject_Z 0)|change 25 with (inject_Z 25)];
      rewrite <- Zle_Qle; lia. }
  assert (Hrange : 15 <= s' <= 100) by lra.
  pose proof (round_mono _ _ 1%nat (proj1 Hrange)) as R1.
  pose proof (round_mono _ _ 1%nat (proj2 Hrange)) as R2.
  change (Py.round 15 1) with 15 in R1. change (Py.round 100 1) with 100 in R2.
  assert (Hmin : Builtins.min 100 (Py.round s' 1) == Py.round s' 1).
  { destruct (min_cases 100 (Py.round s' 1)) as [[H ->]|[H ->]]; [reflexivity|lra]. }
  unfold SustainabilityScore_new. cbn [Float.leb].
  assert (Hok : Py.leb 0 (Builtins.min 100 (Py.round s' 1))
                && Py.leb (Builtins.min 100 (Py.round s' 1)) 100 = true).
  { apply andb_true_iff. split; apply leb_le; rewrite Hmin; lra. }
  rewrite Hok. eexists _, _. split; [reflexivity|].
  cbn [score green_points carbon_saved_kg energy_saved_kwh].
  split; [reflexivity|]. split.
  { rewrite Hmin. apply Qeq_eq_round. rewrite Hsv', Hsv. reflexivity. }
  split; [rewrite Hmin; lra|]. split; [lia|]. split; reflexivity.
Qed.

Lemma carbon_green_nonneg (previous : option Q) (current : Q) :
  (0 <= Derived.carbon_green previous current)%Z.
Proof.
  unfold Derived.carbon_green.
  destruct (Derived.credited previous current) as [p|] eqn:E; [|lia].
  apply credited_Some in E as (_ & H0 & Hc).
  apply (reduction_sign p current H0) in Hc. apply int_nonneg. lra.
Qed.

Lemma carbon_saved_nonneg (previous : option Q) (current : Q) :
  0 <= Derived.carbon_saved previous current.
Proof.
  unfold Derived.carbon_saved.
  destruct (Derived.credited previous current) as [p|] eqn:E; [|lra].
  apply credited_Some in E as (_ & H0 & Hc). lra.
Qed.

Lemma of_Q_leb (x y : Q) : x <= y → Float.leb (of_Q x) (of_Q y) = true.
Proof.
  intros L. pose proof overflow_big as Hb. unfold of_Q.
  destruct (Py.leb Float.overflow x) eqn:X1.
  - apply leb_le in X1.
    rewrite (proj2 (leb_le Float.overflow y)) by lra. reflexivity.
  - assert (Hx : ¬ Float.overflow <= x) by (rewrite <- leb_le, X1; discriminate).
    destruct (Py.leb x (- Float.overflow)) eqn:X2.
    + destruct (Py.leb Float.overflow y); [reflexivity|].
      destruct (Py.leb y (- Float.overflow)); reflexivity.
    + assert (Hx' : ¬ x <= - Float.overflow) by (rewrite <- leb_le, X2; discriminate).
      destruct (Py.leb Float.overflow y); [reflexivity|].
      destruct (Py.leb y (- Float.overflow)) eqn:Y2.
      * apply leb_le in Y2. exfalso. lra.
      * cbn [Float.leb]. apply leb_le, L.
Qed.

Lemma round_leb (x y : Float.t) (n : nat) :
  Float.leb x y = true → Float.leb (Float.round x n) (Float.round y n) = true.
Proof.
  destruct x as [a| | |], y as [b| | |]; cbn [Float.round Float.leb]; try (intros H; exact H).
  intros H. apply leb_le. apply round_mono. apply leb_le, H.
Qed.

Lemma leb_refl (x : Q) : Py.leb x x = true.
Proof. apply leb_le, Qle_refl. Qed.

Lemma energy_saved_nonneg (previous : option Q) (current z : Q) :
  z <= 0 → Float.leb (Fin z) (Derived.energy_saved previous current) = true.
Proof.
  intros Hz. unfold Derived.energy_saved.
  destruct (Derived.credited previous current) as [p|] eqn:E;
    [|cbn [Float.leb]; apply leb_le; lra].
  apply credited_Some in E as (_ & H0 & Hc).
  assert (Hpos : 0 < (p - current) * 2.5) by lra.
  destruct (of_Q_pos _ Hpos) as [[_ ->]|[_ ->]]; [|reflexivity].
  cbn [Float.leb]. apply leb_le. lra.
Qed.

(** Emitting more credits no reduction where emitting less did not,
    and overflows only where emitting less does. *)
Lemma credited_mono (previous : option Q) (c1 c2 p : Q) :
  c1 <= c2 → Derived.credited previous c2 = Some p → Derived.credited previous c1 = Some p.
Proof.
  intros L E. apply credited_Some in E as (E & H0 & Hc).
  apply credited_Some. repeat split; [exact E|exact H0|lra].
Qed.

Lemma overflows_mono (previous : option Q) (c1 c2 : Q) :
  c1 <= c2 → Derived.overflows previous c2 → Derived.overflows previous c1.
Proof.
  intros L. unfold Derived.overflows.
  destruct (Derived.credited previous c2) as [p|] eqn:E; [|contradiction].
  rewrite (credited_mono previous c1 c2 p L E).
  apply credited_Some in E as (_ & H0 & _).
  pose proof (reduction_mono p c1 c2 H0 L). intros [H1|H1]; [left|right]; lra.
Qed.

Lemma carbon_exact_mono (previous : option Q) (c1 c2 : Q) :
  c1 <= c2 →
  Derived.carbon_points previous c2 <= Derived.carbon_points previous c1
  ∧ (Derived.carbon_green previous c2 <= Derived.carbon_green previous c1)%Z
  ∧ Derived.carbon_saved previous c2 <= Derived.carbon_saved previous c1
  ∧ Float.leb (Derived.energy_saved previous c2) (Derived.energy_saved previous c1) = true.
Proof.
  intros L.
  pose proof (carbon_points_range previous c1) as P1.
  pose proof (carbon_green_nonneg previous c1) as G1.
  pose proof (carbon_saved_nonneg previous c1) as S1.
  pose proof (energy_saved_nonneg previous c1 0.0) as E1.
  unfold Derived.carbon_points, Derived.carbon_green, Derived.carbon_saved,
    Derived.energy_saved in *.
  destruct (Derived.credited previous c2) as [p|] eqn:E.
  - rewrite (credited_mono previous c1 c2 p L E) in *.
    apply credited_Some in E as (_ & H0 & Hc).
    pose proof (reduction_mono p c1 c2 H0 L) as M.
    pose proof (proj2 (reduction_sign p c2 H0) Hc) as Pos.
    split; [apply min_mono; lra|]. split; [apply int_mono_nonneg; lra|].
    split; [lra|]. apply of_Q_leb. lra.
  - split; [lra|]. split; [lia|]. split; [lra|]. apply E1. lra.
Qed.


(** Where the current emissions are not negative and the previous
    measurement is finite, nothing overflows. *)
Lemma no_overflow (current : Q) (previous : option Q) :
  0 <= current → (∀ p, previous = Some p → p < Float.overflow) →
  ¬ Derived.overflows previous current.
Proof.
  intros Hc Hfin Hov. pose proof overflow_big as Hb. unfold Derived.overflows in Hov.
  destruct (Derived.credited previous current) as [p|] eqn:Hcr; [|contradiction].
  apply credited_Some in Hcr as (Hp & H0 & Hlt).
  specialize (Hfin p Hp).
  pose proof (reduction_at_most_100 p current H0 Hc). destruct Hov; lra.
Qed.

Lemma sustainability_score_returns (current : Q) (previous : option Q)
    (region : string) (previous_region : option string) :
  0 <= current → (∀ p, previous = Some p → p < Float.overflow) →
  ∃ s, calculate_sustainability_score current previous region previous_region = Some s.
Proof.
  intros Hc Hfin.
  destruct (score_exact current previous region previous_region) as
    [[Hov _]|(_ & sc & x & E & _)].
  - exfalso. exact (no_overflow current previous Hc Hfin Hov).
  - exists sc. exact E.
Qed.

(** X21: with current emissions that are not negative and a finite
    previous measurement the scoring returns, and what it returns
    passes the validation of the model: the score lies between the
    base 15 and 100, the green points are at least the base 10, and
    the savings are not negative (the energy saving can be an
    infinity). *)
Theorem sustainability_score_bounds (current : Q) (previous : option Q)
    (region : string) (previous_region : option string) :
  0 <= current →
  (∀ p, previous = Some p → p < Float.overflow) →
  ∃ s x y,
    calculate_sustainability_score current previous region previous_region = Some s
    ∧ score s = Fin x ∧ 15 <= x <= 100
    ∧ (10 <= green_points s)%Z
    ∧ carbon_saved_kg s = Fin y ∧ 0 <= y
    ∧ Float.leb (Fin 0) (energy_saved_kwh s) = true.
Proof.
  intros Hc Hfin. pose proof overflow_big as Hb.
  destruct (score_exact current previous region previous_region) as
    [[Hov _]|(_ & sc & x & E & Hs & _ & Hx & Hg & Hsv & He)].
  - exfalso. exact (no_overflow current previous Hc Hfin Hov).
  - exists sc, x. eexists. split; [exact E|]. split; [exact Hs|]. split; [exact Hx|].
    split.
    { rewrite Hg. pose proof (carbon_green_nonneg previous current).
      pose proof (region_points_range (Derived.scoring_intensity region)).
      pose proof (region_bonus_range (Derived.scoring_intensity region) previous_region).
      lia. }
    split; [exact Hsv|]. split.
    { pose proof (round_mono _ _ 4%nat (carbon_saved_nonneg previous current)) as H.
      change (Py.round 0 4) with 0 in H. exact H. }
    rewrite He. change (Fin 0) with (Float.round (Fin 0) 4).
    apply round_leb, energy_saved_nonneg. lra.
Qed.

(** X22: emissions that did not go down earn nothing and cost nothing:
    the result is that of a first evaluation, without a previous
    measurement. *)
Theorem no_credit_without_reduction (current previous : Q) (region : string)
    (previous_region : option string) :
  previous <= current →
  calculate_sustainability_score current (Some previous) region previous_region
  = calculate_sustainability_score current None region previous_region.
Proof.
  intros L. pose proof overflow_big as Hb. unfold calculate_sustainability_score.
  destruct (carbon_part_cases current (Some previous) initial 15.0 eq_refl) as
    [[_ ->]|(p & Hp & H0 & Hc & _)]; [lra|lra|reflexivity|].
  injection Hp as <-. exfalso. lra.
Qed.

(** X23: emitting less never scores lower.  With the same previous
    measurement and regions, when the scoring returns for the lower of
    two current emissions it returns for the higher one, with a score,
    green points and savings that are not higher; and it does return
    when the lower one is not negative and the previous measurement is
    finite. *)
Theorem less_carbon_scores_higher (c1 c2 : Q) (previous : option Q) (region : string)
    (previous_region : option string) :
  c1 <= c2 →
  (∀ s1,
     calculate_sustainability_score c1 previous region previous_region = Some s1 →
     ∃ s2,
       calculate_sustainability_score c2 previous region previous_region = Some s2
       ∧ Float.leb (score s2) (score s1) = true
       ∧ (green_points s2 <= green_points s1)%Z
       ∧ Float.leb (carbon_saved_kg s2) (carbon_saved_kg s1) = true
       ∧ Float.leb (energy_saved_kwh s2) (energy_saved_kwh s1) = true)
  ∧ (0 <= c1 → (∀ p, previous = Some p → p < Float.overflow) →
     is_Some (calculate_sustainability_score c1 previous region previous_region)).
Proof.
  intros L. pose proof overflow_big as Hb. split.
  - intros s1 E1.
    destruct (score_exact c1 previous region previous_region) as
      [[_ E]|(Hno1 & sc1 & x1 & E & Hs1 & Hx1 & _ & Hg1 & Hsv1 & He1)];
      [rewrite E in E1; discriminate E1|].
    rewrite E in E1. injection E1 as <-.
    destruct (score_exact c2 previous region previous_region) as
      [[Hov _]|(_ & sc2 & x2 & E2 & Hs2 & Hx2 & _ & Hg2 & Hsv2 & He2)];
      [exfalso; apply Hno1, (overflows_mono previous c1 c2 L Hov)|].
    destruct (carbon_exact_mono previous c1 c2 L) as (Mp & Mg & Ms & Me).
    exists sc2. split; [exact E2|]. split.
    { rewrite Hs1, Hs2. cbn [Float.leb]. apply leb_le. rewrite Hx1, Hx2.
      apply round_mono. lra. }
    split; [rewrite Hg1, Hg2; lia|]. split.
    { rewrite Hsv1, Hsv2. cbn [Float.leb]. apply leb_le, round_mono, Ms. }
    rewrite He1, He2. apply round_leb, Me.
  - intros H0 Hfin.
    destruct (sustainability_score_returns c1 previous region previous_region H0 Hfin)
      as (s & E). exists s. exact E.
Qed.

(** X24: a greener region never scores lower.  Of two regions, the one
    with the lower carbon intensity in the table (400 for a region the
    table does not have) gets at least the score and the green points
    of the other, and the same savings, everything else being equal;
    the scoring returns for the one exactly when it returns for the
    other. *)
Theorem greener_region_scores_higher (current : Q) (previous : option Q)
    (r1 r2 : string) (previous_region : option string) :
  Derived.scoring_intensity r1 <= Derived.scoring_intensity r2 →
  (is_Some (calculate_sustainability_score current previous r1 previous_region)
   ↔ is_Some (calculate_sustainability_score current previous r2 previous_region))
  ∧ (∀ s1 s2,
       calculate_sustainability_score current previous r1 previous_region = Some s1 →
       calculate_sustainability_score current previous r2 previous_region = Some s2 →
       Float.leb (score s2) (score s1) = true
       ∧ (green_points s2 <= green_points s1)%Z
       ∧ carbon_saved_kg s2 = carbon_saved_kg s1
       ∧ energy_saved_kwh s2 = energy_saved_kwh s1).
Proof.
  intros L.
  destruct (score_exact current previous r1 previous_region) as
    [[Hov1 E1]|(Hno1 & sc1 & x1 & E1 & Hs1 & Hx1 & _ & Hg1 & Hsv1 & He1)];
  destruct (score_exact current previous r2 previous_region) as
    [[Hov2 E2]|(Hno2 & sc2 & x2 & E2 & Hs2 & Hx2 & _ & Hg2 & Hsv2 & He2)];
    try contradiction; rewrite E1, E2.
  - split; [split; intros [? H]; discriminate H|]. intros s1 s2 H. discriminate H.
  - split; [split; intros _; eexists; reflexivity|].
    intros s1 s2 H1 H2. injection H1 as <-. injection H2 as <-.
    pose proof (region_points_antitone _ _ L) as Hp.
    pose proof (region_bonus_antitone _ _ previous_region L) as Hbn.
    split.
    { rewrite Hs1, Hs2. cbn [Float.leb]. apply leb_le. rewrite Hx1, Hx2.
      apply round_mono.
      assert (inject_Z (Derived.region_points (Derived.scoring_intensity r2))
              <= inject_Z (Derived.region_points (Derived.scoring_intensity r1)))
        by (rewrite <- Zle_Qle; exact Hp).
      lra. }
    split; [rewrite Hg1, Hg2; lia|]. split; [rewrite Hsv1, Hsv2|rewrite He1, He2];
      reflexivity.
Qed.

(** X25: the scoring raises where the reduction overflows.  When the
    previous measurement is positive and five times the exact
    reduction in percent is at least twice the overflow threshold of
    binary64 (beyond any rounding of the steps), [int] gets an infinity
    and the call ends in an exception. *)
Theorem score_overflow_raises (current previous : Q) (region : string)
    (previous_region : option string) :
  0 < previous →
  2 * Float.overflow <= Derived.reduction_pct previous current * 5 →
  calculate_sustainability_score current (Some previous) region previous_region = None.
Proof.
  intros H0 Hbig. pose proof overflow_big as Hb.
  destruct (score_exact current (Some previous) region previous_region) as
    [[_ E]|(Hno & _)]; [exact E|].
  exfalso. apply Hno. unfold Derived.overflows.
  assert (Hc : current < previous) by (apply (reduction_sign previous current H0); lra).
  rewrite (proj2 (credited_Some (Some previous) current previous))
    by (repeat split; assumption).
  right. lra.
Qed.

End ScoreFacts.

(** ** Examples of the further properties *)

Section MoreExamples.
Import Catalog Models CostCalculator ArchitectureService.

Lemma region_multiplier_monotone_witness :
  (get_region_multiplier 1 <= get_region_multiplier 4)%Q
  ∧ get_region_multiplier 1 = 1.0%Q ∧ get_region_multiplier 4 = 1.8%Q.
Proof.
  assert (H : (1 <= 4)%Z) by lia.
  pose proof (region_multiplier_monotone 1 4 H) as (H1 & _ & H2 & H3).
  split; [exact H1|]. split; [apply H2; lia|apply H3; lia].
Defined.

Lemma availability_multiplier_monotone_witness :
  (get_availability_multiplier 99.0 <= get_availability_multiplier 99.9999)%Q
  ∧ get_availability_multiplier 99.9999 = 2.5%Q.
Proof.
  assert (H : (99.0 <= 99.9999)%Q) by (unfold Qle; simpl; lia).
  pose proof (availability_multiplier_monotone 99.0 99.9999 H) as (H1 & _ & H2).
  split; [exact H1|]. apply H2. reflexivity.
Defined.


Lemma scaling_never_lowers_cost_witness :
  ((calculate_component_cost "postgresql" Sample.sample_scope).1
   <= (calculate_component_cost "postgresql" Sample.sample_scope).2)%Q
  ∧ ∃ c, get_component_by_id "postgresql" = Some c
         ∧ ((calculate_component_cost "postgresql" Sample.sample_scope).1
            == inject_Z (base_cost c))%Q.
Proof.
  assert (H : (0 <= dataVolumeGB Sample.sample_scope)%Q) by (unfold Qle; simpl; lia).
  pose proof (scaling_never_lowers_cost "postgresql" Sample.sample_scope H) as (_ & H1 & H2).
  split; [exact H1|]. eexists. split; [reflexivity|]. apply H2. reflexivity.
Defined.

Lemma cost_monotone_in_scope_witness :
  Derived.scope_le Sample.sample_scope MoreSamples.large_scope
  ∧ (total (calculate_architecture_cost ["nextjs"; "postgresql"] Sample.sample_scope)
     <= total (calculate_architecture_cost ["nextjs"; "postgresql"] MoreSamples.large_scope))%Q.
Proof.
  assert (H : Derived.scope_le Sample.sample_scope MoreSamples.large_scope).
  { unfold Derived.scope_le. simpl. split; [lia|]. split; [right; lia|].
    split; [unfold Qle; simpl; lia|]. split; [lia|]. unfold Qle; simpl; lia. }
  split; [exact H|].
  apply (proj2 (cost_monotone_in_scope ["nextjs"; "postgresql"]
                  Sample.sample_scope MoreSamples.large_scope H)).
Defined.

Lemma lookup_member (c : Component) (i : string) :
  get_component_by_id i = Some c → c ∈ get_all_components.
Proof.
  intros E. apply list_elem_of_In. apply (find_some _ _ E).
Qed.

Lemma catalog_lookup_roundtrip_witness :
  ∃ c, get_component_by_id "nextjs" = Some c
       ∧ c ∈ get_all_components ∧ id c = "nextjs"
       ∧ get_component_by_id (id c) = Some c.
Proof.
  eexists. split; [reflexivity|].
  match goal with |- ?c ∈ _ ∧ _ =>
    pose proof (catalog_lookup_roundtrip c "nextjs") as [H1 H2] end.
  destruct (H2 eq_refl) as [Hc Hid].
  split; [exact Hc|]. split; [exact Hid|]. apply H1, Hc.
Defined.

Lemma catalog_by_category_witness :
  ∃ c, get_component_by_id "nextjs" = Some c
       ∧ c ∈ get_components_by_category "frontend"
       ∧ is_Some (Py.dict_item CATEGORY_LAYERS (Catalog.category c)).
Proof.
  eexists. split; [reflexivity|].
  match goal with |- ?c ∈ _ ∧ _ =>
    pose proof (catalog_by_category "frontend" c) as (H1 & _ & H2);
    assert (Hc : c ∈ get_all_components)
      by (apply (lookup_member _ "nextjs"); reflexivity) end.
  split; [apply H1; split; [exact Hc|reflexivity]|apply H2, Hc].
Defined.

Lemma edges_connect_valid_witness :
  ∃ e s t,
    e ∈ (generate_edges Sample.sample_token Sample.sample_nodes 0).1
    ∧ s ∈ Sample.sample_nodes ∧ t ∈ Sample.sample_nodes
    ∧ source e = node_id s ∧ target e = node_id t
    ∧ ConnectionValidator.is_valid_connection (category (data s)) (category (data t)) = true
    ∧ Spec.first_in_category (category (data t)) Sample.sample_nodes = Some t.
Proof.
  assert (H : ∃ e, e ∈ (generate_edges Sample.sample_token Sample.sample_nodes 0).1).
  { eexists. left. }
  destruct H as [e He].
  destruct (edges_connect_valid Sample.sample_token Sample.sample_nodes 0 e He)
    as (s & t & H).
  exists e, s, t. split; [exact He|exact H].
Defined.

Lemma edge_count_bound_witness :
  (∃ e, (generate_edges Sample.sample_token Sample.sample_nodes 0).1 !! 0%nat = Some e
        ∧ edge_id e = "e" +:+ Sample.sample_token 0 ∧ edge_type e = "custom")
  ∧ (generate_edges Sample.sample_token MoreSamples.lone_nodes 0).1 = [].
Proof.
  split.
  - eexists. split; [reflexivity|].
    apply (proj1 (proj2 (proj2
             (edge_count_bound Sample.sample_token Sample.sample_nodes 0))) 0%nat).
    reflexivity.
  - apply (proj2 (proj2 (proj2
             (edge_count_bound Sample.sample_token MoreSamples.lone_nodes 0)))).
    intros s t Hs Ht. apply list_elem_of_singleton in Hs, Ht. subst. reflexivity.
Defined.

Lemma generated_ids_distinct_witness :
  NoDup (map Sample.sample_token (seq 0 (4 + 4)))
  ∧ NoDup (map node_id
             (nodes (generate_architecture_from_components Sample.sample_token
                       ["nextjs"; "nextjs"; "fastapi"; "postgresql"] Sample.sample_scope 0)))
  ∧ NoDup (map edge_id
             (edges (generate_architecture_from_components Sample.sample_token
                       ["nextjs"; "nextjs"; "fastapi"; "postgresql"] Sample.sample_scope 0))).
Proof.
  assert (H : NoDup (map Sample.sample_token (seq 0 (4 + 4))))
    by (apply (bool_decide_unpack _); vm_compute; exact I).
  split; [exact H|].
  apply (proj2 (proj2 (generated_ids_distinct Sample.sample_token
                         ["nextjs"; "nextjs"; "fastapi"; "postgresql"] Sample.sample_scope 0))).
  exact H.
Defined.

Lemma report_exists_iff_witness :
  (∃ r, CarbonService.generate_report Sample.sample_log10 Sample.sample_costs "report" 0
          Sample.sample_architecture "eu-north-1" None = Some r
        ∧ CarbonService.architecture_json r = Sample.sample_architecture
        ∧ CarbonService.region (CarbonService.metrics r) = "eu-north-1")
  ∧ (∃ r, CarbonService.generate_report Sample.sample_log10 Sample.sample_costs "report" 0
            MoreSamples.empty_architecture "eu-north-1" None = Some r
          ∧ CarbonService.energy_kwh (CarbonService.metrics r) = 0%Q
          ∧ CarbonService.carbon_kg (CarbonService.metrics r) = 0%Q
          ∧ CarbonService.component_breakdown r = []).
Proof.
  split.
  - pose proof (report_exists_iff Sample.sample_log10 Sample.sample_costs "report" 0
                  Sample.sample_architecture "eu-north-1" None) as [Hex Hr].
    assert (H0 : (0 <= users (scope Sample.sample_architecture))%Z) by (simpl; lia).
    destruct (proj2 Hex H0) as [r E]. exists r.
    destruct (Hr r E) as (H1 & H2 & _). split; [exact E|]. split; assumption.
  - pose proof (report_exists_iff Sample.sample_log10 Sample.sample_costs "report" 0
                  MoreSamples.empty_architecture "eu-north-1" None) as [Hex Hr].
    assert (H0 : (0 <= users (scope MoreSamples.empty_architecture))%Z) by (simpl; lia).
    destruct (proj2 Hex H0) as [r E]. exists r.
    destruct (Hr r E) as (_ & _ & _ & H). split; [exact E|]. apply H. reflexivity.
Defined.

Lemma report_region_effect_witness :
  ∃ r1 r2,
    CarbonService.generate_report Sample.sample_log10 Sample.sample_costs "report" 0
      Sample.sample_architecture "mars-1" None = Some r1
    ∧ CarbonService.generate_report Sample.sample_log10 Sample.sample_costs "report" 0
        Sample.sample_architecture "default" None = Some r2
    ∧ CarbonService.energy_kwh (CarbonService.metrics r1)
      = CarbonService.energy_kwh (CarbonService.metrics r2)
    ∧ CarbonService.carbon_intensity (CarbonService.metrics r1) = 400.0%Q
    ∧ CarbonService.carbon_kg (CarbonService.metrics r1)
      = CarbonService.carbon_kg (CarbonService.metrics r2).
Proof.
  eexists _, _. split; [reflexivity|]. split; [reflexivity|].
  match goal with |- CarbonService.energy_kwh (CarbonService.metrics ?r1)
                     = CarbonService.energy_kwh (CarbonService.metrics ?r2) ∧ _ =>
    pose proof (report_region_effect Sample.sample_log10 Sample.sample_costs "report" 0
                  Sample.sample_architecture "mars-1" "default" None r1 r2
                  eq_refl eq_refl) as (H1 & _ & _ & _ & H2) end.
  split; [exact H1|]. destruct (H2 eq_refl eq_refl) as (H3 & H4 & _).
  split; assumption.
Defined.


Lemma remove_duplicates_spec_witness :
  (NoDup ["nextjs"; "postgresql"]
   ∧ GeminiService.remove_duplicates ["nextjs"; "postgresql"] = ["nextjs"; "postgresql"])
  ∧ GeminiService.remove_duplicates ["nextjs"; "react"; "nextjs"] = ["nextjs"; "react"].
Proof.
  split.
  - assert (H : NoDup ["nextjs"; "postgresql"])
      by (apply (bool_decide_unpack _); vm_compute; exact I).
    split; [exact H|].
    apply (proj1 (proj2 (proj2 (proj2 (remove_duplicates_spec ["nextjs"; "postgresql"])))) H).
  - apply (proj2 (proj2 (proj2 (proj2 (proj2 (proj2
             (remove_duplicates_spec ["react"; "nextjs"])))))) "nextjs").
Defined.

Lemma extracted_ids_spec_witness :
  ∃ c, get_component_by_id "postgresql" = Some c
       ∧ c ∈ get_all_components
       ∧ id c ∈ GeminiService.extract_component_ids_from_text MoreSamples.lower
                  "A Next.js site on PostgreSQL".
Proof.
  eexists. split; [reflexivity|].
  match goal with |- ?c ∈ _ ∧ _ =>
    assert (Hc : c ∈ get_all_components)
      by (apply (lookup_member _ "postgresql"); reflexivity);
    pose proof (proj1 (proj2 (proj2 (proj2
                  (extracted_ids_spec MoreSamples.lower "A Next.js site on PostgreSQL"))))
                c Hc) as H end.
  split; [exact Hc|]. apply H. vm_compute. reflexivity.
Defined.

Lemma sustainability_score_bounds_witness :
  ∃ s x y,
    IncentiveService.calculate_sustainability_score 8 (Some 10%Q) "us-east-1" None = Some s
    ∧ IncentiveService.score s = Float.Fin x ∧ (15 <= x <= 100)%Q
    ∧ (10 <= IncentiveService.green_points s)%Z
    ∧ IncentiveService.carbon_saved_kg s = Float.Fin y ∧ (0 <= y)%Q
    ∧ Float.leb (Float.Fin 0) (IncentiveService.energy_saved_kwh s) = true.
Proof.
  apply (sustainability_score_bounds 8 (Some 10%Q) "us-east-1" None).
  - unfold Qle; simpl; lia.
  - intros p H. injection H as <-. reflexivity.
Defined.

Lemma no_credit_without_reduction_witness :
  IncentiveService.calculate_sustainability_score 12 (Some 10%Q) "eu-north-1" None
  = IncentiveService.calculate_sustainability_score 12 None "eu-north-1" None.
Proof.
  apply (no_credit_without_reduction 12 10 "eu-north-1" None).
  unfold Qle; simpl; lia.
Defined.

Lemma less_carbon_scores_higher_witness :
  ∃ s1 s2,
    IncentiveService.calculate_sustainability_score 5 (Some 10%Q) "us-east-1" None = Some s1
    ∧ IncentiveService.calculate_sustainability_score 8 (Some 10%Q) "us-east-1" None = Some s2
    ∧ Float.leb (IncentiveService.score s2) (IncentiveService.score s1) = true
    ∧ (IncentiveService.green_points s2 <= IncentiveService.green_points s1)%Z
    ∧ Float.leb (IncentiveService.carbon_saved_kg s2) (IncentiveService.carbon_saved_kg s1)
      = true
    ∧ Float.leb (IncentiveService.energy_saved_kwh s2) (IncentiveService.energy_saved_kwh s1)
      = true.
Proof.
  assert (L : (5 <= 8)%Q) by (unfold Qle; simpl; lia).
  destruct (less_carbon_scores_higher 5 8 (Some 10%Q) "us-east-1" None L) as [Hm Hr].
  destruct Hr as [s1 E1].
  - unfold Qle; simpl; lia.
  - intros p H. injection H as <-. reflexivity.
  - destruct (Hm s1 E1) as (s2 & E2 & H). exists s1, s2.
    split; [exact E1|]. split; [exact E2|exact H].
Defined.

Lemma greener_region_scores_higher_witness :
  ∃ s1 s2,
    IncentiveService.calculate_sustainability_score 8 (Some 10%Q) "eu-north-1"
      (Some "us-east-1") = Some s1
    ∧ IncentiveService.calculate_sustainability_score 8 (Some 10%Q) "ap-south-1"
        (Some "us-east-1") = Some s2
    ∧ Float.leb (IncentiveService.score s2) (IncentiveService.score s1) = true
    ∧ (IncentiveService.green_points s2 <= IncentiveService.green_points s1)%Z.
Proof.
  assert (L : (Derived.scoring_intensity "eu-north-1"
               <= Derived.scoring_intensity "ap-south-1")%Q)
    by (unfold Qle; simpl; lia).
  destruct (greener_region_scores_higher 8 (Some 10%Q) "eu-north-1" "ap-south-1"
              (Some "us-east-1") L) as [_ Hm].
  destruct (IncentiveService.calculate_sustainability_score 8 (Some 10%Q) "eu-north-1"
              (Some "us-east-1")) as [s1|] eqn:E1; [|vm_compute in E1; discriminate E1].
  destruct (IncentiveService.calculate_sustainability_score 8 (Some 10%Q) "ap-south-1"
              (Some "us-east-1")) as [s2|] eqn:E2; [|vm_compute in E2; discriminate E2].
  destruct (Hm s1 s2 eq_refl eq_refl) as (H1 & H2 & _).
  exists s1, s2. repeat split; assumption.
Defined.

(** A previous measurement of 1e-320 kg against current emissions of
    -1e-10 kg: the reduction in percent is about 1e312. *)
Lemma score_overflow_raises_witness :
  IncentiveService.calculate_sustainability_score (- (1 # 10 ^ 10)) (Some (1 # 10 ^ 320)%Q)
    "us-east-1" None = None.
Proof.
  apply (score_overflow_raises (- (1 # 10 ^ 10)) (1 # 10 ^ 320) "us-east-1" None).
  - reflexivity.
  - vm_compute. discriminate.
Defined.

End MoreExamples.
